(** * config-differ: a model of the diff core of the script

    The development follows the script section by section: the string
    primitives the script borrows from the JavaScript runtime, the LCS
    character differ, [PropertyParser], [YAMLParser] and [DiffEngine].  The
    repository holds the script twice; the two copies agree on everything
    modelled here for inputs that are not [null], except for the loop of
    [DiffEngine.compare], so the copy with the guards against [null] is the
    one modelled throughout and the other loop is modelled beside it
    ([Legacy]).  Definitions come first, the lemmas about them afterwards.

    Strings are sequences of code units; the model uses [string] and thus
    the code units below 256.  Arrays are lists, the [Map]s of the diff
    engine are [gmap]s, and a plain object whose key order is observable
    (the YAML tree) is an association list kept in property order.  Loops
    whose number of turns is not the length of a list take a bound on the
    turns; the lemmas show each bound to be enough. *)

From Stdlib Require Import ZArith Lia Ascii String.
From stdpp Require Import base option list sorting gmap strings pretty.

Local Open Scope string_scope.
Local Open Scope list_scope.

(** ** Runtime string primitives *)

Module Js.

(** Characters matched by [\s] and stripped by [trim]: the white space and
    line terminator code units (TAB, LF, VT, FF, CR, SP, NBSP). *)
Definition isWhiteSpace (c : ascii) : bool :=
  match c with
  | "009" | "010" | "011" | "012" | "013" | " " | "160" => true
  | _ => false
  end%char.

(** Characters that [.] refuses to match: the line terminators LF and CR. *)
Definition isLineTerminator (c : ascii) : bool :=
  match c with
  | "010" | "013" => true
  | _ => false
  end%char.

(** The line feed, as a string. *)
Definition LF : string := String "010"%char EmptyString.

Definition chars (s : string) : list ascii := list_ascii_of_string s.
Definition str (l : list ascii) : string := string_of_list_ascii l.

(** [s[i]]; [None] stands for [undefined]. *)
Definition charAt (s : string) (i : nat) : option ascii := chars s !! i.

Fixpoint trimStart (s : string) : string :=
  match s with
  | String c s' => if isWhiteSpace c then trimStart s' else s
  | EmptyString => EmptyString
  end.

Fixpoint trimEnd (s : string) : string :=
  match s with
  | String c s' =>
      match trimEnd s' with
      | EmptyString => if isWhiteSpace c then EmptyString else String c EmptyString
      | t => String c t
      end
  | EmptyString => EmptyString
  end.

Definition trim (s : string) : string := trimEnd (trimStart s).

Definition startsWith (s : string) (p : string) : bool := String.prefix p s.

Definition endsWith (s : string) (c : ascii) : bool :=
  bool_decide (last (chars s) = Some c).

(** [s.slice(0, -1)]: everything but the last code unit. *)
Definition dropLast (s : string) : string := str (removelast (chars s)).

(** [s.search(/\S/)]: index of the first character that is not white
    space, [-1] when there is none. *)
Fixpoint searchNonSpace (s : string) : Z :=
  match s with
  | EmptyString => (-1)%Z
  | String c s' =>
      if isWhiteSpace c then
        (let r := searchNonSpace s' in if (r <? 0)%Z then (-1)%Z else r + 1)%Z
      else 0%Z
  end.

(** [s.split('\n')]: never empty, [""] splits into [[""]]. *)
Fixpoint splitLines (s : string) : list string :=
  match s with
  | EmptyString => [EmptyString]
  | String c s' =>
      if Ascii.eqb c "010"%char then EmptyString :: splitLines s'
      else match splitLines s' with
           | l :: ls => String c l :: ls
           | [] => [String c EmptyString]
           end
  end.

(** *** The fragment of regular expressions the script uses

    A matcher takes the remaining input and a continuation for what
    follows it in the pattern; greedy quantifiers try the longest
    repetition first and fall back one character at a time, as the
    backtracking engine does.  The continuation receives the input left
    over, so a capture group is the difference of two remainders. *)

Definition matcher (R : Type) := string -> (string -> option R) -> option R.

(** [[cls]*] *)
Fixpoint star {R} (cls : ascii -> bool) (s : string) (k : string -> option R)
  : option R :=
  match s with
  | String c s' =>
      if cls c then
        match star cls s' k with
        | Some r => Some r
        | None => k s
        end
      else k s
  | EmptyString => k s
  end.

(** [[cls]] *)
Definition one {R} (cls : ascii -> bool) : matcher R := fun s k =>
  match s with
  | String c s' => if cls c then k s' else None
  | EmptyString => None
  end.

(** [[cls]+] *)
Definition plus {R} (cls : ascii -> bool) : matcher R := fun s k =>
  one cls s (fun s' => star cls s' k).

(** [$] without the [m] flag. *)
Definition atEnd (s : string) : bool :=
  match s with EmptyString => true | _ => false end.

(** The text consumed between the remainders [s] and [rest]. *)
Definition consumed (s rest : string) : string :=
  str (take (String.length s - String.length rest) (chars s)).

Definition dot (c : ascii) : bool := negb (isLineTerminator c).
Definition notSpace (c : ascii) : bool := negb (isWhiteSpace c).

(** *** [Array.prototype.sort]

    The sort is stable, and for a consistent comparator its result is the
    one stable arrangement in comparator order; inserting every element
    in front of the first later element that does not precede it computes
    that arrangement. *)

Fixpoint sortInsert {A} (cmp : A -> A -> Z) (x : A) (l : list A) : list A :=
  match l with
  | [] => [x]
  | y :: l' => if (cmp x y <=? 0)%Z then x :: l else y :: sortInsert cmp x l'
  end.

Definition sortBy {A} (cmp : A -> A -> Z) (l : list A) : list A :=
  foldr (sortInsert cmp) [] l.

(** [x] may stand in front of [y]. *)
Definition precedes {A} (cmp : A -> A -> Z) (x y : A) : Prop := (cmp x y <= 0)%Z.

(** A consistent comparator: it orders equivalence classes totally. *)
Record consistent {A} (cmp : A -> A -> Z) : Prop := Consistent {
  cmp_refl : forall a, cmp a a = 0%Z;
  cmp_sym : forall a b, Z.sgn (cmp a b) = (- Z.sgn (cmp b a))%Z;
  cmp_trans : forall a b c, precedes cmp a b -> precedes cmp b c -> precedes cmp a c }.

(** The comparison [sort()] uses without a comparator: code unit order. *)
Definition codeUnitCompare (a b : string) : Z :=
  match String.compare a b with
  | Lt => (-1)%Z
  | Eq => 0%Z
  | Gt => 1%Z
  end.

Definition sort (l : list string) : list string := sortBy codeUnitCompare l.

(** *** Plain objects with observable key order

    A plain object is the list of its own enumerable string-keyed
    properties in the order [Object.keys] reports them: array indices
    first, in ascending numeric order, then the other keys in the order
    they were created. *)

Definition obj (V : Type) := list (string * V).

Fixpoint digits (s : string) (acc : N) : option N :=
  match s with
  | EmptyString => Some acc
  | String c s' =>
      match Ascii.is_nat c with
      | Some d => digits s' (acc * 10 + N.of_nat d)%N
      | None => None
      end
  end.

(** An array index is the canonical decimal spelling of an integer
    below [2^32 - 1]. *)
Definition arrayIndex (k : string) : option N :=
  match k with
  | EmptyString => None
  | _ =>
      match digits k 0%N with
      | Some n =>
          if bool_decide (pretty n = k) && (n <? 4294967295)%N then Some n else None
      | None => None
      end
  end.

Definition keys {V} (o : obj V) : list string := o.*1.

(** [o[k]] for an own property; [None] is [undefined]. *)
Fixpoint get {V} (o : obj V) (k : string) : option V :=
  match o with
  | [] => None
  | (k', v) :: o' => if bool_decide (k' = k) then Some v else get o' k
  end.

Fixpoint replace {V} (k : string) (v : V) (o : obj V) : obj V :=
  match o with
  | [] => []
  | (k', v') :: o' =>
      if bool_decide (k' = k) then (k', v) :: o' else (k', v') :: replace k v o'
  end.

(** Where a new key goes: an array index in front of the first key that
    is no array index or a larger one, any other key at the end. *)
Fixpoint create {V} (k : string) (v : V) (o : obj V) : obj V :=
  match o with
  | [] => [(k, v)]
  | (k', v') :: o' =>
      match arrayIndex k, arrayIndex k' with
      | Some n, Some n' =>
          if (n <? n')%N then (k, v) :: o else (k', v') :: create k v o'
      | Some _, None => (k, v) :: o
      | None, _ => (k', v') :: create k v o'
      end
  end.

(** [o[k] = v] where [v] is an object, which is all the script assigns:
    the key [__proto__] reaches the prototype setter and creates no own
    property. *)
Definition set {V} (k : string) (v : V) (o : obj V) : obj V :=
  if bool_decide (k = "__proto__") then o
  else if bool_decide (k ∈ keys o) then replace k v o
  else create k v o.

(** [l.join(sep)] for an array of strings. *)
Fixpoint join (sep : string) (l : list string) : string :=
  match l with
  | [] => ""
  | x :: l' =>
      match l' with
      | [] => x
      | _ => x +:+ sep +:+ join sep l'
      end
  end.

(** [s.repeat(n)] *)
Fixpoint repeat (s : string) (n : nat) : string :=
  match n with
  | 0 => ""
  | S n' => s +:+ repeat s n'
  end.

End Js.

(** ** LCS algorithm for the character-level diff *)

(** [dp[i][j]]; a read outside the table does not occur in the script and
    reads 0 here. *)
Definition dp_get (dp : list (list nat)) (i j : nat) : nat :=
  default 0 (dp !! i ≫= (.!! j)).

(** [dp[i][j] = v] *)
Definition dp_set (dp : list (list nat)) (i j v : nat) : list (list nat) :=
  alter (<[j := v]>) i dp.

Definition lcs_cell (str1 str2 : string) (i : nat) (dp : list (list nat)) (j : nat)
  : list (list nat) :=
  if decide (Js.charAt str1 (i - 1) = Js.charAt str2 (j - 1)) then
    dp_set dp i j (dp_get dp (i - 1) (j - 1) + 1)
  else
    dp_set dp i j (Nat.max (dp_get dp (i - 1) j) (dp_get dp i (j - 1))).

Definition lcs_row (str1 str2 : string) (dp : list (list nat)) (i : nat)
  : list (list nat) :=
  fold_left (lcs_cell str1 str2 i) (seq 1 (String.length str2)) dp.

Definition computeLCS (str1 str2 : string) : list (list nat) :=
  let m := String.length str1 in
  let n := String.length str2 in
  let dp := replicate (m + 1) (replicate (n + 1) 0) in
  fold_left (lcs_row str1 str2) (seq 1 m) dp.

Inductive segType := unchanged | added | removed.

Global Instance segType_eq_dec : EqDecision segType.
Proof. solve_decision. Defined.

Record segment := Segment { text : ascii; type : segType }.

Global Instance segment_eq_dec : EqDecision segment.
Proof. solve_decision. Defined.

(** The body of the [while (i > 0 || j > 0)] loop; [unshift] is [cons].
    Every turn lowers [i + j], which bounds the number of turns. *)
Fixpoint highlight_loop (turns : nat) (dp : list (list nat)) (str1 str2 : string)
    (i j : nat) (left right : list segment) : list segment * list segment :=
  match turns with
  | 0 => (left, right)
  | S turns' =>
      if bool_decide (0 < i) || bool_decide (0 < j) then
        if bool_decide (0 < i) && bool_decide (0 < j)
           && bool_decide (Js.charAt str1 (i - 1) = Js.charAt str2 (j - 1)) then
          match Js.charAt str1 (i - 1), Js.charAt str2 (j - 1) with
          | Some c1, Some c2 =>
              highlight_loop turns' dp str1 str2 (i - 1) (j - 1)
                (Segment c1 unchanged :: left) (Segment c2 unchanged :: right)
          | _, _ => (left, right)
          end
        else if bool_decide (0 < j)
                && (bool_decide (i = 0)
                    || bool_decide (dp_get dp (i - 1) j <= dp_get dp i (j - 1))) then
          match Js.charAt str2 (j - 1) with
          | Some c2 =>
              highlight_loop turns' dp str1 str2 i (j - 1)
                left (Segment c2 added :: right)
          | None => (left, right)
          end
        else if bool_decide (0 < i) then
          match Js.charAt str1 (i - 1) with
          | Some c1 =>
              highlight_loop turns' dp str1 str2 (i - 1) j
                (Segment c1 removed :: left) right
          | None => (left, right)
          end
        else highlight_loop turns' dp str1 str2 i j left right
      else (left, right)
  end.

Definition highlightDifferences (str1 str2 : string) : list segment * list segment :=
  let dp := computeLCS str1 str2 in
  highlight_loop (String.length str1 + String.length str2) dp str1 str2
    (String.length str1) (String.length str2) [] [].


(** ** Property parser *)

Module Entry.
(** An element of the array [PropertyParser.parse] returns.  [type] is the
    tag the script stores (['blank'], ['comment'] or ['property']); [key]
    and [value] are read for property entries only and are empty where the
    script leaves them out of the object literal. *)
Record t := Make { type : string; key : string; value : string; line : string }.

Global Instance eq_dec : EqDecision t.
Proof. solve_decision. Defined.

Definition blank : t := Make "blank" "" "" "".
Definition comment (line : string) : t := Make "comment" "" "" line.
Definition property (key value line : string) : t := Make "property" key value line.
End Entry.

Module PropertyParser.

(** What [parsePropertyLine] returns when it does not return [null]. *)
Record result := Result {
  key : string; value : string; fullLine : string; nextIndex : nat }.

(** The separator pattern, anchored at both ends: group 1 is one or more
    characters other than [=], [:] and white space; then white space, one
    [:] or [=], white space; group 2 is any run of characters that are not
    line terminators. *)
Definition keyChar (c : ascii) : bool :=
  negb (Ascii.eqb c "="%char || Ascii.eqb c ":"%char || Js.isWhiteSpace c).
Definition sepChar (c : ascii) : bool := Ascii.eqb c ":"%char || Ascii.eqb c "="%char.

Definition separatorMatch (s : string) : option (string * string) :=
  Js.plus keyChar s (fun r1 =>
  Js.star Js.isWhiteSpace r1 (fun r2 =>
  Js.one sepChar r2 (fun r3 =>
  Js.star Js.isWhiteSpace r3 (fun r4 =>
  Js.star Js.dot r4 (fun r5 =>
  if Js.atEnd r5 then Some (Js.consumed s r1, Js.consumed r4 r5) else None))))).

(** The fallback pattern, anchored at both ends: group 1 is one or more
    characters that are not white space; then at least one white space
    character; group 2 is one or more characters that are not line
    terminators. *)
Definition spaceMatch (s : string) : option (string * string) :=
  Js.plus Js.notSpace s (fun r1 =>
  Js.plus Js.isWhiteSpace r1 (fun r2 =>
  Js.plus Js.dot r2 (fun r3 =>
  if Js.atEnd r3 then Some (Js.consumed s r1, Js.consumed r2 r3) else None))).

(** The continuation loop of [parsePropertyLine]; every turn advances
    [currentIndex], which stays below [allLines.length]. *)
Fixpoint continuation (turns : nat) (allLines : list string)
    (fullLine : string) (currentIndex : nat) : string * nat :=
  match turns with
  | 0 => (fullLine, currentIndex)
  | S turns' =>
      if Js.endsWith (Js.trimEnd fullLine) "\"%char
         && bool_decide (currentIndex + 1 < length allLines) then
        continuation turns' allLines
          (Js.dropLast (Js.trimEnd fullLine)
             +:+ default "" (allLines !! (currentIndex + 1)))
          (currentIndex + 1)
      else (fullLine, currentIndex)
  end.

Definition parsePropertyLine (line : string) (allLines : list string)
    (startIndex : nat) : option result :=
  let '(fullLine, currentIndex) :=
    continuation (length allLines - startIndex) allLines line startIndex in
  match separatorMatch fullLine with
  | Some (k, v) => Some (Result (Js.trim k) (Js.trim v) fullLine (currentIndex + 1))
  | None =>
      match spaceMatch fullLine with
      | Some (k, v) => Some (Result (Js.trim k) (Js.trim v) fullLine (currentIndex + 1))
      | None => None
      end
  end.

(** One turn of the [while (i < lines.length)] loop of [parse]: the entry
    pushed and the next value of [i]. *)
Definition parse_step (lines : list string) (i : nat) (line : string)
  : Entry.t * nat :=
  let trimmed := Js.trim line in
  if bool_decide (trimmed = "") then (Entry.blank, i + 1)
  else if Js.startsWith trimmed "#" || Js.startsWith trimmed "!" then
    (Entry.comment line, i + 1)
  else
    match parsePropertyLine line lines i with
    | Some r => (Entry.property (key r) (value r) (fullLine r), nextIndex r)
    | None => (Entry.comment line, i + 1)
    end.

(** The loop itself; [None] when the turns are used up before the loop
    condition fails. *)
Fixpoint parse_loop (turns : nat) (lines : list string) (i : nat)
    (entries : list Entry.t) : option (list Entry.t) :=
  match lines !! i with
  | None => Some entries
  | Some line =>
      match turns with
      | 0 => None
      | S turns' =>
          let '(e, i') := parse_step lines i line in
          parse_loop turns' lines i' (entries ++ [e])
      end
  end.

Definition parse (text : string) : option (list Entry.t) :=
  let lines := Js.splitLines text in
  parse_loop (length lines) lines 0 [].

(** An element of the [properties] array of [sort]. *)
Record prop := Prop_ {
  pkey : string; pvalue : string; comments : list Entry.t; entry : Entry.t }.

(** The grouping loop of [sort]: the state is [properties] and
    [pendingComments]. *)
Definition group_step (st : list prop * list Entry.t) (e : Entry.t)
  : list prop * list Entry.t :=
  let '(properties, pendingComments) := st in
  if bool_decide (Entry.type e = "comment") then (properties, pendingComments ++ [e])
  else if bool_decide (Entry.type e = "property") then
    (properties ++ [Prop_ (Entry.key e) (Entry.value e) pendingComments e], [])
  else if bool_decide (Entry.type e = "blank") then (properties, pendingComments ++ [e])
  else (properties, pendingComments).

Definition group (entries : list Entry.t) : list prop * list Entry.t :=
  fold_left group_step entries ([], []).

Definition emit (p : prop) : list Entry.t := comments p ++ [entry p].

Section Sort.
(** [String.prototype.localeCompare] depends on the host's locale data. *)
Variable localeCompare : string -> string -> Z.

Definition byKey (a b : prop) : Z := localeCompare (pkey a) (pkey b).

Definition sort (entries : list Entry.t) : list Entry.t :=
  let '(properties, pendingComments) := group entries in
  let properties := Js.sortBy byKey properties in
  concat (emit <$> properties) ++ pendingComments.
End Sort.

(** The callback [stringify] maps over the entries: the line an entry is
    printed as. *)
Definition stringifyEntry (entry : Entry.t) : string :=
  if bool_decide (Entry.type entry = "property") then
    Entry.key entry +:+ "=" +:+ Entry.value entry
  else if bool_decide (Entry.type entry = "comment")
          || bool_decide (Entry.type entry = "blank") then
    Entry.line entry
  else "".

Definition stringify (entries : list Entry.t) : string :=
  Js.join Js.LF (stringifyEntry <$> entries).

End PropertyParser.

(** ** YAML parser *)

Module YAMLParser.

(** The tree [parse] builds: an object from keys to nodes
    [{ _value, _comments }], where [_value] is a string or again such an
    object. *)
Inductive value : Type :=
| Str (s : string)
| Obj (o : list (string * node))
with node : Type :=
| Node (_value : value) (_comments : list string).

Definition _value (n : node) : value := let '(Node v _) := n in v.
Definition _comments (n : node) : list string := let '(Node _ c) := n in c.

Abbreviation tree := (Js.obj node).

(** The key pattern applied to the trimmed line, anchored at both ends:
    group 1 is one or more characters other than [:] and [#]; then one
    [:], white space; group 2 is any run of characters that are not line
    terminators. *)
Definition yamlKeyChar (c : ascii) : bool :=
  negb (Ascii.eqb c ":"%char || Ascii.eqb c "#"%char).

Definition keyValueMatch (s : string) : option (string * string) :=
  Js.plus yamlKeyChar s (fun r1 =>
  Js.one (Ascii.eqb ":"%char) r1 (fun r2 =>
  Js.star Js.isWhiteSpace r2 (fun r3 =>
  Js.star Js.dot r3 (fun r4 =>
  if Js.atEnd r4 then Some (Js.consumed s r1, Js.consumed r3 r4) else None)))).

(** [s.substring(1)] *)
Definition substring1 (s : string) : string :=
  match s with String _ s' => s' | EmptyString => EmptyString end.

(** How one turn of the loop of [parseLevel] ends: by [break], or at the
    bottom of the body (or a [continue]) with new values for
    [this.currentLine], [obj] and [pendingComments]. *)
Inductive outcome :=
| Break
| Continue (currentLine : nat) (o : tree) (pendingComments : list string).

Section Lines.
(** [this.lines] *)
Variable lines : list string.

(** One turn of the loop, for [line = this.lines[this.currentLine]].
    [recur] is the recursive call [this.parseLevel]: it takes the base
    indentation and the cursor and gives the object and the cursor it
    leaves; it gives [None] when it does not return. *)
Definition level_step (recur : Z -> nat -> option (tree * nat))
    (baseIndent : Z) (currentLine : nat) (o : tree)
    (pendingComments : list string) (line : string) : option outcome :=
  let trimmed := Js.trim line in
  if bool_decide (trimmed = "") then
    Some (Continue (currentLine + 1) o pendingComments)
  else if Js.startsWith trimmed "#" then
    Some (Continue (currentLine + 1) o (pendingComments ++ [trimmed]))
  else
    let indent := Js.searchNonSpace line in
    if bool_decide (indent = (-1)%Z) then
      Some (Continue (currentLine + 1) o pendingComments)
    else if bool_decide (indent < baseIndent)%Z then Some Break
    else if bool_decide (indent > baseIndent)%Z
            && negb (bool_decide (baseIndent = 0%Z)) then Some Break
    else
      match keyValueMatch trimmed with
      | Some (k, v) =>
          let key := Js.trim k in
          let value := Js.trim v in
          let currentLine := currentLine + 1 in
          match lines !! currentLine with
          | Some nextLine =>
              let nextIndent := Js.searchNonSpace nextLine in
              if bool_decide (nextIndent > indent)%Z
                 && negb (bool_decide (Js.trim nextLine = "")) then
                match recur nextIndent currentLine with
                | Some (children, currentLine) =>
                    Some (Continue currentLine
                            (Js.set key (Node (Obj children) pendingComments) o) [])
                | None => None
                end
              else if bool_decide (value = "") then
                Some (Continue currentLine
                        (Js.set key (Node (Str "") pendingComments) o) [])
              else
                Some (Continue currentLine
                        (Js.set key (Node (Str value) pendingComments) o) [])
          | None =>
              Some (Continue currentLine
                      (Js.set key (Node (Str value) pendingComments) o) [])
          end
      | None =>
          if Js.startsWith trimmed "-" then
            let arrayValue := Js.trim (substring1 trimmed) in
            Some (Continue (currentLine + 1)
                    (Js.set ("_array_" +:+ pretty currentLine)
                       (Node (Str arrayValue) pendingComments) o) [])
          else Some (Continue (currentLine + 1) o pendingComments)
      end.

(** The [while (this.currentLine < this.lines.length)] loop; [None]
    when the turns are used up or a recursive call does not return. *)
Fixpoint level_loop (recur : Z -> nat -> option (tree * nat)) (turns : nat)
    (baseIndent : Z) (currentLine : nat) (o : tree)
    (pendingComments : list string) : option (tree * nat) :=
  match lines !! currentLine with
  | None => Some (o, currentLine)
  | Some line =>
      match turns with
      | 0 => None
      | S turns' =>
          match level_step recur baseIndent currentLine o pendingComments line with
          | None => None
          | Some Break => Some (o, currentLine)
          | Some (Continue currentLine' o' pendingComments') =>
              level_loop recur turns' baseIndent currentLine' o' pendingComments'
          end
      end
  end.

(** [parseLevel(baseIndent)] entered with [this.currentLine = currentLine];
    [depth] bounds the nesting of recursive calls. *)
Fixpoint parseLevel (depth : nat) (baseIndent : Z) (currentLine : nat)
  : option (tree * nat) :=
  match depth with
  | 0 => None
  | S depth' =>
      level_loop (parseLevel depth') (length lines - currentLine)
        baseIndent currentLine [] []
  end.
End Lines.

Definition parse (text : string) : option tree :=
  let lines := Js.splitLines text in
  fst <$> parseLevel lines (S (length lines)) 0 0.

(** [sortRecursively].  [sortItem] is what the loop body stores for an
    item: a copy with a sorted [_value] for a nested object, the item
    itself for a scalar.  [arrange] is the loop: the sorted keys of [obj]
    in order, each stored into [sorted] with its item. *)
Definition store (items : tree) (sorted : tree) (key : string) : tree :=
  match Js.get items key with
  | Some item => Js.set key item sorted
  | None => sorted
  end.

Definition arrange (o items : tree) : tree :=
  fold_left (store items) (Js.sort (Js.keys o)) [].

Fixpoint sortItem (item : node) : node :=
  match item with
  | Node (Obj o) c =>
      Node (Obj (arrange o
                   ((fix each (l : tree) : tree :=
                       match l with
                       | [] => []
                       | (k, i) :: l' => (k, sortItem i) :: each l'
                       end) o))) c
  | Node (Str _) _ => item
  end.

Definition sortRecursively (o : tree) : tree :=
  arrange o (prod_map id sortItem <$> o).

(** An element of the array [flatten] returns. *)
Module Flat.
Record t := Make { key : string; value : string; comments : list string }.
End Flat.
Abbreviation flat := Flat.t.
Abbreviation Flat := Flat.Make.

Definition fullKey (prefix key : string) : string :=
  if bool_decide (prefix = "") then key else prefix +:+ "." +:+ key.

(** The body of the loop of [flatten] for one item, [fullKey] computed:
    a nested object with keys is flattened under [fullKey]; an empty
    object is not [null] and is rendered by [String]. *)
Fixpoint flattenItem (item : node) (fullKey_ : string) : list flat :=
  match item with
  | Node (Obj []) c => [Flat fullKey_ "[object Object]" c]
  | Node (Obj o) _ =>
      (fix each (l : tree) : list flat :=
         match l with
         | [] => []
         | (k, i) :: l' => flattenItem i (fullKey fullKey_ k) ++ each l'
         end) o
  | Node (Str v) c => [Flat fullKey_ v c]
  end.

Definition flatten (o : tree) (prefix : string) : list flat :=
  '(k, i) ← o; flattenItem i (fullKey prefix k).

(** [flatten(obj)] with the default prefix; [None] is [null]. *)
Definition flattenData (d : option tree) : list flat :=
  match d with
  | Some o => flatten o ""
  | None => [Flat "" "" []]
  end.

(** [stringify].  [stringifyItem] is the body of the loop for one key:
    the strings it pushes on [lines], which are the comments, indented,
    and then either the key line and the text of the nested object, for
    an object with keys, or the key with the value, where an empty object
    is rendered by the string concatenation. *)
Fixpoint stringifyItem (indent : nat) (key : string) (item : node) : list string :=
  let indentStr := Js.repeat "  " indent in
  match item with
  | Node (Obj []) c =>
      ((fun comment => indentStr +:+ comment) <$> c)
      ++ [indentStr +:+ key +:+ ": " +:+ "[object Object]"]
  | Node (Obj o) c =>
      ((fun comment => indentStr +:+ comment) <$> c)
      ++ [indentStr +:+ key +:+ ":";
          Js.join Js.LF
            ((fix each (l : tree) : list string :=
                match l with
                | [] => []
                | (k, i) :: l' => stringifyItem (S indent) k i ++ each l'
                end) o)]
  | Node (Str v) c =>
      ((fun comment => indentStr +:+ comment) <$> c)
      ++ [indentStr +:+ key +:+ ": " +:+ v]
  end.

Definition stringify (o : tree) (indent : nat) : string :=
  Js.join Js.LF ('(k, i) ← o; stringifyItem indent k i).

End YAMLParser.

(** ** Diff engine *)

Module Status.
Inductive t := added | removed | modified | unchanged.

Global Instance eq_dec : EqDecision t.
Proof. solve_decision. Defined.
End Status.

Module DiffEngine.

(** The value of the [fileType] radio button; the script treats whatever
    is not ['properties'] as YAML. *)
Inductive fileType := properties | yaml.

Global Instance fileType_eq_dec : EqDecision fileType.
Proof. solve_decision. Defined.

(** What the controller hands to [compare] for each format: the sorted
    entries, or the sorted tree. *)
Definition data (ft : fileType) : Type :=
  match ft with
  | properties => list Entry.t
  | yaml => YAMLParser.tree
  end.

(** An element of [diffResults].  [key] and [fileType] are present on
    modified rows only. *)
Record row := Row {
  status : Status.t;
  leftLine : string;
  rightLine : string;
  leftHighlight : option (list segment);
  rightHighlight : option (list segment);
  key : option string;
  rowFileType : option fileType }.

Global Instance row_eq_dec : EqDecision row.
Proof. solve_decision. Defined.

(** [None] is [null]: not an array, so the map stays empty. *)
Definition propertiesToMap (entries : option (list Entry.t)) : gmap string string :=
  match entries with
  | None => ∅
  | Some entries =>
      fold_left
        (fun map e =>
           if bool_decide (Entry.type e = "property")
           then <[Entry.key e := Entry.value e]> map else map)
        entries ∅
  end.

Definition yamlToMap (entries : list YAMLParser.flat) : gmap string string :=
  fold_left
    (fun map e => <[YAMLParser.Flat.key e := YAMLParser.Flat.value e]> map)
    entries ∅.

Definition toMap (ft : fileType) : option (data ft) -> gmap string string :=
  match ft with
  | properties => propertiesToMap
  | yaml => fun d => yamlToMap (YAMLParser.flattenData d)
  end.

(** [value] is [None] for [undefined]. *)
Definition formatLine (key : string) (value : option string) (ft : fileType)
  : string :=
  let safeValue := default "" value in
  match ft with
  | properties => key +:+ "=" +:+ safeValue
  | yaml => key +:+ ": " +:+ safeValue
  end.

(** The keys of both maps go through a [Set] and the array made of it is
    sorted; the keys being distinct, the order the set had does not show
    after the sort. *)
Definition sortedKeys (leftEntries rightEntries : gmap string string)
  : list string :=
  Js.sort (elements (dom leftEntries ∪ dom rightEntries)).

(** The body of the loop over [sortedKeys]: the row pushed for [key]. *)
Definition diffRow (ft : fileType) (leftEntries rightEntries : gmap string string)
    (key : string) : row :=
  let hasLeft := bool_decide (is_Some (leftEntries !! key)) in
  let hasRight := bool_decide (is_Some (rightEntries !! key)) in
  let leftValue := if hasLeft then leftEntries !! key else None in
  let rightValue := if hasRight then rightEntries !! key else None in
  if negb hasLeft && hasRight then
    Row Status.added "" (formatLine key rightValue ft) None None None None
  else if hasLeft && negb hasRight then
    Row Status.removed (formatLine key leftValue ft) "" None None None None
  else if bool_decide (leftValue ≠ rightValue) then
    let highlights :=
      highlightDifferences (default "" leftValue) (default "" rightValue) in
    Row Status.modified (formatLine key leftValue ft) (formatLine key rightValue ft)
      (Some highlights.1) (Some highlights.2) (Some key) (Some ft)
  else
    Row Status.unchanged (formatLine key leftValue ft) (formatLine key rightValue ft)
      None None None None.

Definition compare (ft : fileType) (leftData rightData : option (data ft))
  : list row :=
  match leftData, rightData with
  | None, None => []
  | _, _ =>
      let leftEntries := toMap ft leftData in
      let rightEntries := toMap ft rightData in
      diffRow ft leftEntries rightEntries <$> sortedKeys leftEntries rightEntries
  end.

End DiffEngine.

(** ** The diff engine of the copy of the script kept as [app.js]

    This copy tests the values it reads from the maps instead of asking the
    maps whether they hold the key, and its character differ reads
    [length] of whatever it is given. *)

Module Legacy.
Import DiffEngine.

(** JavaScript truthiness of a map lookup: [undefined] and [''] are falsy. *)
Definition truthy (v : option string) : bool :=
  match v with
  | Some s => negb (bool_decide (s = ""))
  | None => false
  end.

(** The template literal renders [undefined] by name. *)
Definition formatLine (key : string) (value : option string) (ft : fileType)
  : string :=
  let value := default "undefined" value in
  match ft with
  | properties => key +:+ "=" +:+ value
  | yaml => key +:+ ": " +:+ value
  end.

(** The loop body; [None] when it throws ([highlightDifferences] given
    [undefined] reads [undefined.length]). *)
Definition diffRow (ft : fileType) (leftEntries rightEntries : gmap string string)
    (key : string) : option row :=
  let leftValue := leftEntries !! key in
  let rightValue := rightEntries !! key in
  if negb (truthy leftValue) && truthy rightValue then
    Some (Row Status.added "" (formatLine key rightValue ft) None None None None)
  else if truthy leftValue && negb (truthy rightValue) then
    Some (Row Status.removed (formatLine key leftValue ft) "" None None None None)
  else if bool_decide (leftValue ≠ rightValue) then
    match leftValue, rightValue with
    | Some l, Some r =>
        let highlights := highlightDifferences l r in
        Some (Row Status.modified
                (formatLine key leftValue ft) (formatLine key rightValue ft)
                (Some highlights.1) (Some highlights.2) (Some key) (Some ft))
    | _, _ => None
    end
  else
    Some (Row Status.unchanged
            (formatLine key leftValue ft) (formatLine key rightValue ft)
            None None None None).

Definition compare (ft : fileType) (leftData rightData : data ft)
  : option (list row) :=
  let leftEntries := toMap ft (Some leftData) in
  let rightEntries := toMap ft (Some rightData) in
  mapM (diffRow ft leftEntries rightEntries) (sortedKeys leftEntries rightEntries).

End Legacy.


(** * Notions the properties are stated with *)

(** ** Character segments *)

(** The recurrence the LCS table is filled by, as a function of the cell. *)
Fixpoint lcs (str1 str2 : string) (i : nat) : nat -> nat :=
  match i with
  | 0 => fun _ => 0
  | S i' =>
      fix row (j : nat) : nat :=
        match j with
        | 0 => 0
        | S j' =>
            if decide (Js.charAt str1 i' = Js.charAt str2 j') then lcs str1 str2 i' j' + 1
            else Nat.max (lcs str1 str2 i' j) (row j')
        end
  end.

Global Arguments lcs : simpl never.

(** The table keeps its shape: one row more than [str1] has characters,
    each with one cell more than [str2] has. *)
Definition shaped (str1 str2 : string) (dp : list (list nat)) : Prop :=
  length dp = String.length str1 + 1
  /\ Forall (fun row => length row = String.length str2 + 1) dp.

(** The cells in front of [(i, j)] in row-major order, and column 0, hold
    the recurrence's values. *)
Definition filled (str1 str2 : string) (dp : list (list nat)) (i j : nat) : Prop :=
  shaped str1 str2 dp
  /\ forall r c, r <= String.length str1 -> c <= String.length str2 ->
                 r < i \/ (r = i /\ c < j) \/ c = 0 ->
                 dp_get dp r c = lcs str1 str2 r c.

(** The characters of the segments that belong to the left string, to the
    right string, and the number of unchanged segments. *)
Definition leftText (l : list segment) : list ascii :=
  text <$> filter (fun s => type s = unchanged \/ type s = removed) l.
Definition rightText (l : list segment) : list ascii :=
  text <$> filter (fun s => type s = unchanged \/ type s = added) l.
Definition unchangedCount (l : list segment) : nat :=
  length (filter (fun s => type s = unchanged) l).

(** What the backtracking loop has yet to contribute when it stands at
    [(i, j)] with [left] and [right] built so far. *)
Definition backtracked (str1 str2 : string) (res : list segment * list segment)
    (i j : nat) (left right : list segment) : Prop :=
  leftText res.1 = take i (Js.chars str1) ++ leftText left
  /\ rightText res.2 = take j (Js.chars str2) ++ rightText right
  /\ text <$> res.1 = take i (Js.chars str1) ++ (text <$> left)
  /\ text <$> res.2 = take j (Js.chars str2) ++ (text <$> right)
  /\ unchangedCount res.1 = lcs str1 str2 i j + unchangedCount left
  /\ unchangedCount res.2 = lcs str1 str2 i j + unchangedCount right.

(** ** Entries *)

(** The entries [PropertyParser.sort] keeps in [pendingComments]. *)
Definition commentLike (e : Entry.t) : Prop :=
  Entry.type e = "comment" \/ Entry.type e = "blank".

(** The entries [PropertyParser.sort] does not skip. *)
Definition known (e : Entry.t) : Prop :=
  Entry.type e = "blank" \/ Entry.type e = "comment" \/ Entry.type e = "property".

(** The shape of the elements of [properties]. *)
Definition grouped (p : PropertyParser.prop) : Prop :=
  Forall commentLike (PropertyParser.comments p)
  /\ Entry.type (PropertyParser.entry p) = "property"
  /\ PropertyParser.pkey p = Entry.key (PropertyParser.entry p)
  /\ PropertyParser.pvalue p = Entry.value (PropertyParser.entry p).

(** The line the patterns are applied to: [line] with its continuation
    lines joined on. *)
Definition resolved (lines : list string) (i : nat) (line : string) : string :=
  (PropertyParser.continuation (length lines - i) lines line i).1.

(** How the entry [e] accounts for the [n] physical lines from index [i]
    on, of which [line] is the first. *)
Definition accounted (lines : list string) (i : nat) (line : string)
    (e : Entry.t) (n : nat) : Prop :=
  (Js.trim line = "" /\ e = Entry.blank /\ n = 1)
  \/ (Js.trim line <> ""
      /\ (Js.startsWith (Js.trim line) "#" \/ Js.startsWith (Js.trim line) "!")
      /\ e = Entry.comment line /\ n = 1)
  \/ (Js.trim line <> ""
      /\ ~ (Js.startsWith (Js.trim line) "#" \/ Js.startsWith (Js.trim line) "!")
      /\ exists r, PropertyParser.parsePropertyLine line lines i = Some r
                   /\ e = Entry.property (PropertyParser.key r) (PropertyParser.value r)
                            (PropertyParser.fullLine r)
                   /\ PropertyParser.nextIndex r = i + n
                   /\ 1 <= n /\ i + n <= length lines)
  \/ (Js.trim line <> ""
      /\ ~ (Js.startsWith (Js.trim line) "#" \/ Js.startsWith (Js.trim line) "!")
      /\ PropertyParser.separatorMatch (resolved lines i line) = None
      /\ PropertyParser.spaceMatch (resolved lines i line) = None
      /\ e = Entry.comment line /\ n = 1).

(** ** YAML trees *)

(** The loop of [sortRecursively] over any array of keys. *)
Definition build (items : YAMLParser.tree) (ks : list string) : YAMLParser.tree :=
  fold_left (YAMLParser.store items) ks [].

Fixpoint node_size (n : YAMLParser.node) : nat :=
  match n with
  | YAMLParser.Node (YAMLParser.Obj o) _ =>
      S ((fix each (l : YAMLParser.tree) : nat :=
            match l with
            | [] => 0
            | (_, i) :: l' => node_size i + each l'
            end) o)
  | YAMLParser.Node (YAMLParser.Str _) _ => 1
  end.

Definition tree_size (o : YAMLParser.tree) : nat := sum_list (node_size ∘ snd <$> o).

(** A line that is neither blank nor a comment. *)
Definition content (line : string) : Prop :=
  Js.trim line <> "" /\ Js.startsWith (Js.trim line) "#" = false.

(** A recursive call that returns from every cursor in [(from, length
    lines]], leaving the cursor no further back and within the lines. *)
Definition returning (lines : list string)
    (recur : Z -> nat -> option (YAMLParser.tree * nat)) (from : nat) : Prop :=
  forall b c, from < c <= length lines ->
    exists o c', recur b c = Some (o, c') /\ c <= c' <= length lines.

(** A recursive call that never moves the cursor back. *)
Definition forward (recur : Z -> nat -> option (YAMLParser.tree * nat)) : Prop :=
  forall b c o c', recur b c = Some (o, c') -> c <= c'.

(** The one place the body of [parseLevel] calls itself: after a key line,
    at a next line that is not blank and indented deeper than the key. *)
Definition callSite (lines : list string) (currentLine : nat) (line : string)
    (b : Z) (c : nat) : Prop :=
  c = currentLine + 1
  /\ exists nextLine, lines !! c = Some nextLine
                      /\ Js.trim nextLine <> ""
                      /\ b = Js.searchNonSpace nextLine
                      /\ (Js.searchNonSpace line < b)%Z.

(** What the body of the loop of [parseLevel] does with a content line it
    takes for its own, behind the two indentation guards: a line the key
    pattern matches is stored under its key, with the nested object the
    recursive call returns when the next line is not blank and indented
    deeper, and with the value otherwise; a line that starts with [-] is
    stored as an array item under the number of the line; any other line
    is passed over.  The cursor moves behind the line, or to where the
    recursive call leaves it. *)
Definition ownLine (lines : list string)
    (recur : Z -> nat -> option (YAMLParser.tree * nat))
    (currentLine : nat) (o : YAMLParser.tree) (pendingComments : list string)
    (line : string) : option YAMLParser.outcome :=
  let trimmed := Js.trim line in
  let indent := Js.searchNonSpace line in
  match YAMLParser.keyValueMatch trimmed with
  | Some (k, v) =>
      let key := Js.trim k in
      let value := Js.trim v in
      let currentLine := currentLine + 1 in
      match lines !! currentLine with
      | Some nextLine =>
          let nextIndent := Js.searchNonSpace nextLine in
          if bool_decide (nextIndent > indent)%Z
             && negb (bool_decide (Js.trim nextLine = "")) then
            match recur nextIndent currentLine with
            | Some (children, currentLine) =>
                Some (YAMLParser.Continue currentLine
                        (Js.set key
                           (YAMLParser.Node (YAMLParser.Obj children) pendingComments) o)
                        [])
            | None => None
            end
          else if bool_decide (value = "") then
            Some (YAMLParser.Continue currentLine
                    (Js.set key (YAMLParser.Node (YAMLParser.Str "") pendingComments) o)
                    [])
          else
            Some (YAMLParser.Continue currentLine
                    (Js.set key (YAMLParser.Node (YAMLParser.Str value) pendingComments) o)
                    [])
      | None =>
          Some (YAMLParser.Continue currentLine
                  (Js.set key (YAMLParser.Node (YAMLParser.Str value) pendingComments) o)
                  [])
      end
  | None =>
      if Js.startsWith trimmed "-" then
        let arrayValue := Js.trim (YAMLParser.substring1 trimmed) in
        Some (YAMLParser.Continue (currentLine + 1)
                (Js.set ("_array_" +:+ pretty currentLine)
                   (YAMLParser.Node (YAMLParser.Str arrayValue) pendingComments) o)
                [])
      else Some (YAMLParser.Continue (currentLine + 1) o pendingComments)
  end.

(** ** Diff rows under a swap of the inputs *)

Definition swapRole (t : segType) : segType :=
  match t with
  | added => removed
  | removed => added
  | unchanged => unchanged
  end.

Definition swapSegment (s : segment) : segment := Segment (text s) (swapRole (type s)).

(** [null] stays [null]. *)
Definition swapSegments (h : option (list segment)) : option (list segment) :=
  match h with
  | Some l => Some (swapSegment <$> l)
  | None => None
  end.

(** The row expected in place of [r] when the inputs are swapped and every
    segment keeps its character and exchanges its role. *)
Definition mirror (r : DiffEngine.row) : DiffEngine.row :=
  DiffEngine.Row
    (match DiffEngine.status r with
     | Status.added => Status.removed
     | Status.removed => Status.added
     | s => s
     end)
    (DiffEngine.rightLine r) (DiffEngine.leftLine r)
    (swapSegments (DiffEngine.rightHighlight r)) (swapSegments (DiffEngine.leftHighlight r))
    (DiffEngine.key r) (DiffEngine.rowFileType r).

(** What does hold of the row [r'] that takes the place of [r]: the mirror
    image for added and removed rows, the row itself for an unchanged one;
    for a modified row the lines are exchanged and each segment sequence
    spells what the other one spelled, with as many unchanged segments, but
    which characters are the unchanged ones is not fixed. *)
Definition swapped (r r' : DiffEngine.row) : Prop :=
  match DiffEngine.status r with
  | Status.added | Status.removed => r' = mirror r
  | Status.unchanged => r' = r
  | Status.modified =>
      DiffEngine.status r' = Status.modified
      /\ DiffEngine.leftLine r' = DiffEngine.rightLine r
      /\ DiffEngine.rightLine r' = DiffEngine.leftLine r
      /\ DiffEngine.key r' = DiffEngine.key r
      /\ DiffEngine.rowFileType r' = DiffEngine.rowFileType r
      /\ exists L R L' R',
          DiffEngine.leftHighlight r = Some L /\ DiffEngine.rightHighlight r = Some R
          /\ DiffEngine.leftHighlight r' = Some L' /\ DiffEngine.rightHighlight r' = Some R'
          /\ text <$> L' = text <$> R /\ text <$> R' = text <$> L
          /\ unchangedCount L' = unchangedCount R
          /\ unchangedCount R' = unchangedCount L
          /\ Forall (fun s => type s <> added) L'
          /\ Forall (fun s => type s <> removed) R'
  end.

(** ** More on character segments *)

(** The characters of the unchanged segments. *)
Definition unchangedText (l : list segment) : list ascii :=
  text <$> filter (fun s => type s = unchanged) l.

(** ** Printing property entries *)

(** A character other than the line feed. *)
Definition notLF (c : ascii) : bool := negb (Ascii.eqb c "010"%char).

(** Entries that [PropertyParser.stringify] prints as a line which
    [PropertyParser.parse] reads back as one entry of the same kind: a
    property whose key is not empty, holds no [=], [:] or white space and
    does not start a comment, and whose value is trimmed, holds no line
    terminator and does not end in a backslash; a comment whose line holds
    no line feed and starts, after white space, with [#] or [!]; a blank
    entry whose line is white space without a line feed.  An entry of any
    other type is printed as an empty line. *)
Definition printable (e : Entry.t) : bool :=
  if bool_decide (Entry.type e = "property") then
    negb (bool_decide (Entry.key e = ""))
    && forallb PropertyParser.keyChar (Js.chars (Entry.key e))
    && negb (Js.startsWith (Entry.key e) "#")
    && negb (Js.startsWith (Entry.key e) "!")
    && bool_decide (Js.trim (Entry.value e) = Entry.value e)
    && forallb Js.dot (Js.chars (Entry.value e))
    && negb (Js.endsWith (Entry.value e) "\"%char)
  else if bool_decide (Entry.type e = "comment") then
    forallb notLF (Js.chars (Entry.line e))
    && negb (bool_decide (Js.trim (Entry.line e) = ""))
    && (Js.startsWith (Js.trim (Entry.line e)) "#"
        || Js.startsWith (Js.trim (Entry.line e)) "!")
  else if bool_decide (Entry.type e = "blank") then
    forallb notLF (Js.chars (Entry.line e))
    && bool_decide (Js.trim (Entry.line e) = "")
  else true.

(** The entry [PropertyParser.parse] builds for the printed line of a
    printable entry. *)
Definition reprinted (e : Entry.t) : Entry.t :=
  if bool_decide (Entry.type e = "property") then
    Entry.property (Entry.key e) (Entry.value e) (PropertyParser.stringifyEntry e)
  else if bool_decide (Entry.type e = "comment") then Entry.comment (Entry.line e)
  else Entry.blank.

(** ** Trees that are objects *)

(** The keys of an object: no key twice, and no own key [__proto__],
    which an assignment cannot create. *)
Definition keysOk (o : YAMLParser.tree) : bool :=
  bool_decide (NoDup (Js.keys o)) && bool_decide ("__proto__" ∉ Js.keys o).

(** A node all of whose nested objects have such keys. *)
Fixpoint wellKeyedNode (n : YAMLParser.node) : bool :=
  match n with
  | YAMLParser.Node (YAMLParser.Obj o) _ =>
      keysOk o
      && (fix each (l : YAMLParser.tree) : bool :=
            match l with
            | [] => true
            | (_, i) :: l' => wellKeyedNode i && each l'
            end) o
  | YAMLParser.Node (YAMLParser.Str _) _ => true
  end.

Definition wellKeyed (o : YAMLParser.tree) : bool :=
  wellKeyedNode (YAMLParser.Node (YAMLParser.Obj o) []).

(** ** Printing YAML trees *)

(** The lines of the text [YAMLParser.stringify] prints for an item and
    for a tree. *)
Fixpoint itemLines (indent : nat) (key : string) (item : YAMLParser.node)
  : list string :=
  let indentStr := Js.repeat "  " indent in
  match item with
  | YAMLParser.Node (YAMLParser.Obj []) c =>
      ((fun comment => indentStr +:+ comment) <$> c)
      ++ [indentStr +:+ key +:+ ": " +:+ "[object Object]"]
  | YAMLParser.Node (YAMLParser.Obj o) c =>
      ((fun comment => indentStr +:+ comment) <$> c)
      ++ (indentStr +:+ key +:+ ":")
         :: (fix each (l : YAMLParser.tree) : list string :=
               match l with
               | [] => []
               | (k, i) :: l' => itemLines (S indent) k i ++ each l'
               end) o
  | YAMLParser.Node (YAMLParser.Str v) c =>
      ((fun comment => indentStr +:+ comment) <$> c)
      ++ [indentStr +:+ key +:+ ": " +:+ v]
  end.

Definition treeLines (indent : nat) (o : YAMLParser.tree) : list string :=
  '(k, i) ← o; itemLines indent k i.

(** A key [YAMLParser.parse] reads back from its printed line: not empty,
    trimmed, without [:], [#] and line feed. *)
Definition printableKey (k : string) : bool :=
  negb (bool_decide (k = ""))
  && bool_decide (Js.trim k = k)
  && forallb (fun c => YAMLParser.yamlKeyChar c && notLF c) (Js.chars k).

(** A comment as [YAMLParser.parse] stores it: trimmed, starting with [#],
    without line feed. *)
Definition printableComment (c : string) : bool :=
  bool_decide (Js.trim c = c) && Js.startsWith c "#" && forallb notLF (Js.chars c).

(** A scalar as [YAMLParser.parse] stores it: trimmed, without line
    terminator. *)
Definition printableScalar (s : string) : bool :=
  bool_decide (Js.trim s = s) && forallb Js.dot (Js.chars s).

(** A key that an assignment creates behind the keys [before]: a key that
    is no array index, or an array index behind smaller array indices
    only. *)
Definition createdLast (k : string) (before : list string) : bool :=
  match Js.arrayIndex k with
  | None => true
  | Some n =>
      forallb (fun k' => match Js.arrayIndex k' with
                         | Some n' => negb (n <? n')%N
                         | None => false
                         end) before
  end.

(** Keys in the order [Object.keys] reports them when they are created
    from left to right. *)
Fixpoint keysInOrder (before ks : list string) : bool :=
  match ks with
  | [] => true
  | k :: ks' => createdLast k before && keysInOrder (before ++ [k]) ks'
  end.

Definition isObj (n : YAMLParser.node) : bool :=
  match n with
  | YAMLParser.Node (YAMLParser.Obj _) _ => true
  | YAMLParser.Node (YAMLParser.Str _) _ => false
  end.

(** No item that follows a nested object has comments: printed, they
    would stand behind the lines of the nested object. *)
Fixpoint noCommentAfterObj (o : YAMLParser.tree) : bool :=
  match o with
  | (_, i) :: o' =>
      match o' with
      | (_, i') :: _ =>
          (negb (isObj i) || bool_decide (YAMLParser._comments i' = []))
          && noCommentAfterObj o'
      | [] => true
      end
  | [] => true
  end.

(** The conditions on one level of a tree. *)
Definition levelOk (o : YAMLParser.tree) : bool :=
  keysOk o && keysInOrder [] (Js.keys o) && noCommentAfterObj o.

(** Trees [YAMLParser.stringify] prints as a text that
    [YAMLParser.parse] reads back: printable keys, comments and scalars,
    no nested object without keys, and every level in order. *)
Fixpoint printableNode (item : YAMLParser.node) : bool :=
  match item with
  | YAMLParser.Node (YAMLParser.Obj o) c =>
      forallb printableComment c
      && negb (bool_decide (o = []))
      && levelOk o
      && (fix each (l : YAMLParser.tree) : bool :=
            match l with
            | [] => true
            | (k, i) :: l' => printableKey k && printableNode i && each l'
            end) o
  | YAMLParser.Node (YAMLParser.Str s) c =>
      forallb printableComment c && printableScalar s
  end.

Definition printableTree (o : YAMLParser.tree) : bool :=
  levelOk o && forallb (fun p => printableKey p.1 && printableNode p.2) o.

(** Lines at which a level with the base indentation [b] ends: no line at
    all, or first a content line indented less than [b]. *)
Definition stopsAt (b : Z) (rest : list string) : Prop :=
  match rest with
  | [] => True
  | l :: _ => content l /\ (Js.searchNonSpace l < b)%Z
  end.

(** * Lemmas *)

(** ** Sorting *)

Section SortBy.
Context {A : Type} (cmp : A -> A -> Z).

Lemma sortInsert_Permutation x l : Js.sortInsert cmp x l ≡ₚ x :: l.
Proof.
  induction l as [|y l IH]; simpl; [done|].
  destruct (cmp x y <=? 0)%Z; [done|].
  rewrite IH. apply Permutation_swap.
Qed.

Lemma sortBy_Permutation l : Js.sortBy cmp l ≡ₚ l.
Proof.
  induction l as [|x l IH]; simpl; [done|].
  unfold Js.sortBy in *. simpl. by rewrite sortInsert_Permutation, IH.
Qed.

Lemma sortBy_sorted_id l : Sorted (Js.precedes cmp) l -> Js.sortBy cmp l = l.
Proof.
  induction 1 as [|x l Hl IH Hhd]; [done|].
  unfold Js.sortBy in *. simpl. rewrite IH.
  destruct Hhd as [|y l' Hxy]; simpl; [done|].
  unfold Js.precedes in Hxy. by apply Z.leb_le in Hxy as ->.
Qed.

Section Total.
Hypothesis cmp_total : forall x y, Js.precedes cmp x y \/ Js.precedes cmp y x.

Lemma sortInsert_Sorted x l :
  Sorted (Js.precedes cmp) l -> Sorted (Js.precedes cmp) (Js.sortInsert cmp x l).
Proof.
  induction 1 as [|y l Hl IH Hhd]; simpl.
  - by repeat constructor.
  - destruct (cmp x y <=? 0)%Z eqn:Hxy.
    + apply Z.leb_le in Hxy. by repeat constructor.
    + apply Z.leb_gt in Hxy. constructor; [done|].
      assert (Js.precedes cmp y x) as Hyx.
      { destruct (cmp_total x y) as [H|H]; [unfold Js.precedes in H; lia|done]. }
      destruct Hhd as [|z l' Hyz]; simpl; [by constructor|].
      destruct (cmp x z <=? 0)%Z; by constructor.
Qed.

Lemma sortBy_Sorted l : Sorted (Js.precedes cmp) (Js.sortBy cmp l).
Proof.
  induction l as [|x l IH]; [constructor|].
  unfold Js.sortBy in *. simpl. by apply sortInsert_Sorted.
Qed.

Lemma sortBy_idempotent l : Js.sortBy cmp (Js.sortBy cmp l) = Js.sortBy cmp l.
Proof. apply sortBy_sorted_id, sortBy_Sorted. Qed.
End Total.
End SortBy.

Lemma consistent_total {A} (cmp : A -> A -> Z) :
  Js.consistent cmp -> forall x y, Js.precedes cmp x y \/ Js.precedes cmp y x.
Proof.
  intros [_ Hsym _] x y. unfold Js.precedes. specialize (Hsym x y). lia.
Qed.

Lemma string_compare_refl s : (s ?= s)%string = Eq.
Proof.
  induction s as [|a s IH]; simpl; [done|].
  unfold Ascii.compare. by rewrite N.compare_refl.
Qed.

Lemma codeUnitCompare_le a b : Js.precedes Js.codeUnitCompare a b <-> String.le a b.
Proof.
  unfold Js.precedes, Js.codeUnitCompare, String.le, String.leb.
  destruct (a ?= b)%string; simpl; split; (lia || done).
Qed.

Lemma codeUnitCompare_consistent : Js.consistent Js.codeUnitCompare.
Proof.
  split.
  - intros a. unfold Js.codeUnitCompare. by rewrite string_compare_refl.
  - intros a b. unfold Js.codeUnitCompare. rewrite (String.compare_antisym a b).
    by destruct (b ?= a)%string.
  - intros a b c. rewrite !codeUnitCompare_le. apply transitivity.
Qed.

Lemma sort_Permutation l : Js.sort l ≡ₚ l.
Proof. apply sortBy_Permutation. Qed.

Lemma Sorted_precedes_le l : Sorted (Js.precedes Js.codeUnitCompare) l <-> Sorted String.le l.
Proof.
  split; induction 1 as [|x l Hl IH Hhd]; constructor; try done;
    destruct Hhd; constructor; by apply codeUnitCompare_le.
Qed.

Lemma sort_Sorted l : Sorted String.le (Js.sort l).
Proof.
  apply Sorted_precedes_le, sortBy_Sorted, consistent_total, codeUnitCompare_consistent.
Qed.

Lemma sort_StronglySorted l : StronglySorted String.le (Js.sort l).
Proof. apply Sorted_StronglySorted; [apply _|apply sort_Sorted]. Qed.

(** Sorting depends on the elements only. *)
Lemma sort_proper l1 l2 : l1 ≡ₚ l2 -> Js.sort l1 = Js.sort l2.
Proof.
  intros Hp. apply (Sorted_unique String.le); try apply sort_Sorted.
  by rewrite !sort_Permutation.
Qed.

(** ** [PropertyParser.sort] *)

Section PropertyParserFacts.
Import PropertyParser.

Lemma group_step_comment ps pend e :
  commentLike e -> group_step (ps, pend) e = (ps, pend ++ [e]).
Proof.
  intros [H|H]; unfold group_step; rewrite H; by repeat case_bool_decide.
Qed.

Lemma group_step_property ps pend e :
  Entry.type e = "property" ->
  group_step (ps, pend) e = (ps ++ [Prop_ (Entry.key e) (Entry.value e) pend e], []).
Proof. intros H. unfold group_step. rewrite H. by repeat case_bool_decide. Qed.

Lemma group_step_unknown ps pend e : ~ known e -> group_step (ps, pend) e = (ps, pend).
Proof.
  intros H. unfold group_step, known in *. repeat case_bool_decide; tauto.
Qed.

Lemma known_cases e : known e \/ ~ known e.
Proof.
  unfold known.
  destruct (decide (Entry.type e = "blank")), (decide (Entry.type e = "comment")),
    (decide (Entry.type e = "property")); tauto.
Qed.

Lemma group_fold_comments cs ps pend :
  Forall commentLike cs -> fold_left group_step cs (ps, pend) = (ps, pend ++ cs).
Proof.
  intros H. revert pend. induction H as [|c cs Hc _ IH]; intros pend; cbn [fold_left].
  - by rewrite app_nil_r.
  - rewrite group_step_comment by done. rewrite IH. by rewrite <- app_assoc.
Qed.

Lemma group_fold_emit qs rest ps :
  Forall grouped qs ->
  fold_left group_step (concat (emit <$> qs) ++ rest) (ps, [])
  = fold_left group_step rest (ps ++ qs, []).
Proof.
  intros H. revert ps. induction H as [|q qs Hq _ IH]; intros ps; cbn [fmap list_fmap concat].
  - by rewrite app_nil_r.
  - destruct Hq as (Hc & Ht & Hk & Hv). unfold emit at 1.
    rewrite <- !app_assoc, fold_left_app, group_fold_comments by done.
    cbn [app fold_left]. rewrite group_step_property by done.
    rewrite IH, <- app_assoc. cbn [app].
    destruct q as [k v c e]; simpl in *. by subst.
Qed.

Lemma group_emit qs pend :
  Forall grouped qs -> Forall commentLike pend ->
  group (concat (emit <$> qs) ++ pend) = (qs, pend).
Proof.
  intros Hq Hp. unfold group. rewrite group_fold_emit by done.
  by rewrite group_fold_comments.
Qed.

Lemma group_fold_shape es ps pend :
  Forall grouped ps -> Forall commentLike pend ->
  Forall grouped (fold_left group_step es (ps, pend)).1
  /\ Forall commentLike (fold_left group_step es (ps, pend)).2.
Proof.
  revert ps pend. induction es as [|e es IH]; intros ps pend Hps Hpend; [done|].
  cbn [fold_left]. destruct (known_cases e) as [[Hb|[Hc|Hp]]|Hu].
  - rewrite group_step_comment by (by right). apply IH; [done|].
    apply Forall_app; split; [done|]. constructor; [by right|done].
  - rewrite group_step_comment by (by left). apply IH; [done|].
    apply Forall_app; split; [done|]. constructor; [by left|done].
  - rewrite group_step_property by done. apply IH; [|done].
    apply Forall_app; split; [done|]. by repeat constructor.
  - rewrite group_step_unknown by done. by apply IH.
Qed.

Lemma group_shape es :
  Forall grouped (group es).1 /\ Forall commentLike (group es).2.
Proof. by apply group_fold_shape. Qed.

(** Emitting the groups again gives back the entries, the skipped ones
    apart. *)
Lemma group_fold_flat es ps pend :
  Forall known es ->
  concat (emit <$> (fold_left group_step es (ps, pend)).1)
    ++ (fold_left group_step es (ps, pend)).2
  = (concat (emit <$> ps) ++ pend) ++ es.
Proof.
  intros H. revert ps pend. induction H as [|e es He _ IH]; intros ps pend; cbn [fold_left].
  - by rewrite app_nil_r.
  - destruct He as [Hb|[Hc|Hp]].
    + rewrite group_step_comment by (by right). rewrite IH.
      by rewrite <- !app_assoc.
    + rewrite group_step_comment by (by left). rewrite IH.
      by rewrite <- !app_assoc.
    + rewrite group_step_property by done. rewrite IH.
      rewrite fmap_app, concat_app. simpl. unfold emit at 2. simpl.
      by rewrite !app_nil_r, <- !app_assoc.
Qed.

Section Locale.
Variable localeCompare : string -> string -> Z.

Lemma sort_unfold es :
  sort localeCompare es
  = concat (emit <$> Js.sortBy (byKey localeCompare) (group es).1) ++ (group es).2.
Proof. unfold sort. by destruct (group es). Qed.

Lemma group_sort es :
  group (sort localeCompare es)
  = (Js.sortBy (byKey localeCompare) (group es).1, (group es).2).
Proof.
  rewrite sort_unfold. destruct (group_shape es) as [Hps Hpend].
  apply group_emit; [|done]. by rewrite sortBy_Permutation.
Qed.

Lemma sort_Permutation_known es :
  Forall known es -> sort localeCompare es ≡ₚ es.
Proof.
  intros H. rewrite sort_unfold.
  rewrite (sortBy_Permutation (byKey localeCompare) (group es).1).
  unfold group. by rewrite group_fold_flat.
Qed.

Lemma byKey_total :
  Js.consistent localeCompare ->
  forall x y, Js.precedes (byKey localeCompare) x y
              \/ Js.precedes (byKey localeCompare) y x.
Proof. intros H x y. apply (consistent_total localeCompare H). Qed.

Lemma sort_sort es :
  Js.consistent localeCompare ->
  sort localeCompare (sort localeCompare es) = sort localeCompare es.
Proof.
  intros H. rewrite (sort_unfold (sort _ _)), group_sort. simpl.
  rewrite sortBy_idempotent by by apply byKey_total.
  by rewrite sort_unfold.
Qed.
End Locale.
End PropertyParserFacts.

(** ** Plain objects *)

Lemma StronglySorted_sublist {A} (R : relation A) l1 l2 :
  l1 `sublist_of` l2 -> StronglySorted R l2 -> StronglySorted R l1.
Proof.
  induction 1 as [|x l1 l2 Hsub IH|x l1 l2 Hsub IH]; intros Hs; [done|..].
  - apply StronglySorted_cons in Hs as [Hx Hs]. apply StronglySorted_cons.
    split; [|by apply IH]. rewrite Forall_forall in *.
    intros y Hy. apply Hx. by eapply elem_of_sublist.
  - apply StronglySorted_cons in Hs as [_ Hs]. by apply IH.
Qed.

Section Obj.
Context {V : Type}.
Implicit Types (o : Js.obj V) (k : string) (v : V).

Lemma get_None o k : Js.get o k = None <-> k ∉ Js.keys o.
Proof.
  induction o as [|[k' v'] o IH]; simpl.
  - split; [intros _; apply not_elem_of_nil|done].
  - rewrite not_elem_of_cons. case_bool_decide as Hk; subst.
    + split; [done|]. intros [? _]. done.
    + rewrite IH. split; [by split|by intros [_ ?]].
Qed.

Lemma get_is_Some o k : is_Some (Js.get o k) <-> k ∈ Js.keys o.
Proof.
  rewrite <- not_eq_None_Some, get_None.
  destruct (decide (k ∈ Js.keys o)); tauto.
Qed.

Lemma get_fmap {W} (f : V -> W) o k :
  Js.get (prod_map id f <$> o) k = f <$> Js.get o k.
Proof.
  induction o as [|[k' v'] o IH]; simpl; [done|]. by case_bool_decide.
Qed.

Lemma get_elem_of o k v : Js.get o k = Some v -> (k, v) ∈ o.
Proof.
  induction o as [|[k' v'] o IH]; simpl; [done|].
  case_bool_decide as Hk; intros Hg; simplify_eq; [left|right; auto].
Qed.

Lemma replace_same k v o : Js.get o k = Some v -> Js.replace k v o = o.
Proof.
  induction o as [|[k' v'] o IH]; simpl; [done|].
  case_bool_decide as Hk; intros Hg; simplify_eq; [done|]. by rewrite IH.
Qed.

Lemma keys_create k v o : Js.keys (Js.create k v o) ≡ₚ k :: Js.keys o.
Proof.
  unfold Js.keys. induction o as [|[k' v'] o IH]; simpl; [done|].
  destruct (Js.arrayIndex k) as [n|], (Js.arrayIndex k') as [n'|];
    try destruct (n <? n')%N; simpl; try done;
    rewrite IH; apply Permutation_swap.
Qed.

Lemma get_create_ne k v o k' : k <> k' -> Js.get (Js.create k v o) k' = Js.get o k'.
Proof.
  intros Hne. induction o as [|[k1 v1] o IH]; simpl.
  - by rewrite bool_decide_eq_false_2.
  - destruct (Js.arrayIndex k) as [n|], (Js.arrayIndex k1) as [n'|];
      try destruct (n <? n')%N; simpl;
      rewrite ?(bool_decide_eq_false_2 (k = k')) by done; try done;
      by rewrite IH.
Qed.

Lemma get_create_eq k v o : k ∉ Js.keys o -> Js.get (Js.create k v o) k = Some v.
Proof.
  induction o as [|[k1 v1] o IH]; simpl.
  - by rewrite bool_decide_eq_true_2.
  - rewrite not_elem_of_cons. intros [Hne Hk].
    destruct (Js.arrayIndex k) as [n|], (Js.arrayIndex k1) as [n'|];
      try destruct (n <? n')%N; simpl;
      rewrite ?(bool_decide_eq_true_2 (k = k)) by done; try done;
      rewrite bool_decide_eq_false_2 by done; by apply IH.
Qed.
End Obj.

(** ** [YAMLParser.sortRecursively] *)

Section SortRecursivelyFacts.
Import YAMLParser.

Lemma build_snoc items ks k :
  build items (ks ++ [k]) = store items (build items ks) k.
Proof. unfold build. by rewrite fold_left_app. Qed.

Lemma build_ext items items' ks :
  (forall k, k ∈ ks -> Js.get items k = Js.get items' k) ->
  build items ks = build items' ks.
Proof.
  unfold build. generalize (@nil (string * node)).
  induction ks as [|k ks IH]; intros acc H; [done|]. cbn [fold_left].
  unfold store at 2 4. rewrite <- (H k) by left.
  apply IH. intros k' Hk'. apply H. by right.
Qed.

(** Only the first store of a key that has an item and is not
    [__proto__] changes [sorted]. *)
Lemma build_effective items ks :
  exists ks',
    ks' `sublist_of` ks /\ NoDup ks'
    /\ build items ks = build items ks'
    /\ Js.keys (build items ks') ≡ₚ ks'
    /\ forall k, k ∈ ks' -> Js.get (build items ks') k = Js.get items k.
Proof.
  induction ks as [|k ks (ks' & Hsub & Hnd & Heq & Hkeys & Hget)] using rev_ind.
  { exists []. repeat split; try done; try constructor.
    intros k Hk. by apply not_elem_of_nil in Hk. }
  rewrite build_snoc, Heq. unfold store.
  destruct (Js.get items k) as [item|] eqn:Hitem;
    [|exists ks'; repeat split; try done; by apply sublist_inserts_r].
  unfold Js.set. case_bool_decide as Hproto;
    [exists ks'; repeat split; try done; by apply sublist_inserts_r|].
  case_bool_decide as Hin.
  - exists ks'. repeat split; try done; [by apply sublist_inserts_r|].
    rewrite replace_same; [done|].
    rewrite Hget; [done|]. by rewrite <- Hkeys.
  - exists (ks' ++ [k]). rewrite build_snoc. unfold store. rewrite Hitem.
    unfold Js.set. rewrite !bool_decide_eq_false_2 by done.
    repeat split.
    + by apply sublist_app.
    + apply NoDup_app. repeat split; [done| |apply NoDup_singleton].
      intros x Hx ->%list_elem_of_singleton. apply Hin. by rewrite Hkeys.
    + rewrite keys_create, Hkeys. by rewrite (Permutation_app_comm ks' [k]).
    + intros k' [Hk'| ->%list_elem_of_singleton]%elem_of_app.
      * destruct (decide (k = k')) as [->|Hne].
        { exfalso. apply Hin. by rewrite Hkeys. }
        rewrite get_create_ne by done. by apply Hget.
      * rewrite get_create_eq by done. done.
Qed.

Lemma arrange_build o items : arrange o items = build items (Js.sort (Js.keys o)).
Proof. done. Qed.

(** What the loop stores under a key is the item of that key. *)
Lemma arrange_get o items k v :
  Js.get (arrange o items) k = Some v -> Js.get items k = Some v.
Proof.
  rewrite arrange_build.
  destruct (build_effective items (Js.sort (Js.keys o)))
    as (ks' & Hsub & Hnd & Heq & Hkeys & Hget).
  rewrite Heq. intros Hv. rewrite <- Hget; [done|].
  rewrite <- Hkeys. apply get_is_Some. by exists v.
Qed.

(** The result of the loop is a fixed point of the loop. *)
Lemma arrange_fixed o items items1 :
  (forall k v, Js.get (arrange o items) k = Some v -> Js.get items1 k = Some v) ->
  arrange (arrange o items) items1 = arrange o items.
Proof.
  rewrite (arrange_build (arrange o items)), (arrange_build o items).
  destruct (build_effective items (Js.sort (Js.keys o)))
    as (ks' & Hsub & Hnd & Heq & Hkeys & Hget).
  rewrite Heq. intros Hitems.
  assert (Js.sort (Js.keys (build items ks')) = ks') as ->.
  { apply (Sorted_unique String.le); [apply sort_Sorted| |by rewrite sort_Permutation].
    apply StronglySorted_Sorted.
    eapply StronglySorted_sublist; [done|apply sort_StronglySorted]. }
  apply build_ext. intros k Hk.
  assert (is_Some (Js.get (build items ks') k)) as [v Hv].
  { apply get_is_Some. by rewrite Hkeys. }
  rewrite (Hitems k v Hv). by rewrite <- Hget, Hv.
Qed.

Lemma node_size_Obj o c : node_size (Node (Obj o) c) = S (tree_size o).
Proof.
  simpl. f_equal. unfold tree_size.
  induction o as [|[k i] o IH]; simpl; [done|]. by rewrite IH.
Qed.

Lemma node_size_elem_of k i o : (k, i) ∈ o -> node_size i <= tree_size o.
Proof.
  unfold tree_size. induction o as [|[k' i'] o IH]; simpl.
  - intros H. by apply not_elem_of_nil in H.
  - intros [H|H]%elem_of_cons; [simplify_eq; simpl; lia|].
    etrans; [exact (IH H)|]. apply Nat.le_add_l.
Qed.

Lemma sortItem_Obj o c : sortItem (Node (Obj o) c) = Node (Obj (sortRecursively o)) c.
Proof.
  simpl. unfold sortRecursively. do 3 f_equal.
  induction o as [|[k i] o IH]; simpl; [done|]. by rewrite IH.
Qed.

Lemma sortItem_idempotent item : sortItem (sortItem item) = sortItem item.
Proof.
  remember (node_size item) as n eqn:Hn. revert item Hn.
  induction n as [n IH] using lt_wf_ind. intros [[s|o] c] Hn; [done|].
  rewrite !sortItem_Obj. do 2 f_equal.
  unfold sortRecursively at 1 3. apply arrange_fixed.
  intros k v Hv. rewrite get_fmap.
  change (sortRecursively o) with (arrange o (prod_map id sortItem <$> o)).
  rewrite Hv. simpl. f_equal.
  apply arrange_get in Hv. rewrite get_fmap in Hv.
  destruct (Js.get o k) as [i|] eqn:Hi; [|done]. simpl in Hv. injection Hv as <-.
  apply (IH (node_size i)); [|done].
  rewrite Hn, node_size_Obj. apply get_elem_of, node_size_elem_of in Hi. lia.
Qed.

Lemma sortRecursively_idempotent o :
  sortRecursively (sortRecursively o) = sortRecursively o.
Proof.
  pose proof (sortItem_idempotent (Node (Obj o) [])) as H.
  rewrite !sortItem_Obj in H. by simplify_eq.
Qed.
End SortRecursivelyFacts.

(** ** The LCS table *)

Lemma length_chars s : length (Js.chars s) = String.length s.
Proof. induction s as [|c s IH]; simpl; [done|]. by rewrite <- IH. Qed.

Lemma str_chars s : Js.str (Js.chars s) = s.
Proof. apply string_of_list_ascii_of_string. Qed.

Lemma charAt_is_Some s i : i < String.length s -> is_Some (Js.charAt s i).
Proof. intros H. apply lookup_lt_is_Some. by rewrite length_chars. Qed.

Section Lcs.
Variables str1 str2 : string.
Local Abbreviation m := (String.length str1).
Local Abbreviation n := (String.length str2).

Lemma lcs_0_l j : lcs str1 str2 0 j = 0.
Proof. done. Qed.

Lemma lcs_0_r i : lcs str1 str2 i 0 = 0.
Proof. by destruct i. Qed.

Lemma lcs_S_S i j :
  lcs str1 str2 (S i) (S j)
  = if decide (Js.charAt str1 i = Js.charAt str2 j) then lcs str1 str2 i j + 1
    else Nat.max (lcs str1 str2 i (S j)) (lcs str1 str2 (S i) j).
Proof. done. Qed.

Lemma shaped_row dp i :
  shaped str1 str2 dp -> i <= m -> exists row, dp !! i = Some row /\ length row = n + 1.
Proof.
  intros [Hlen Hrows] Hi. destruct (lookup_lt_is_Some_2 dp i) as [row Hrow]; [lia|].
  exists row. split; [done|]. by eapply Forall_lookup_1 in Hrows.
Qed.

Lemma shaped_set dp i j v : shaped str1 str2 dp -> shaped str1 str2 (dp_set dp i j v).
Proof.
  intros [Hlen Hrows]. unfold dp_set. split; [by rewrite length_alter|].
  apply Forall_alter; [done|]. intros row _ Hrow. by rewrite length_insert.
Qed.

Lemma dp_get_set dp i j v i' j' :
  shaped str1 str2 dp -> i <= m -> j <= n ->
  dp_get (dp_set dp i j v) i' j'
  = if decide (i = i' /\ j = j') then v else dp_get dp i' j'.
Proof.
  intros Hs Hi Hj. destruct (shaped_row dp i Hs Hi) as (row & Hrow & Hlen).
  unfold dp_get, dp_set. destruct (decide (i = i')) as [<-|Hne].
  - rewrite list_lookup_alter_eq, Hrow. simpl.
    destruct (decide (j = j')) as [<-|Hne].
    + rewrite list_lookup_insert_eq by lia. by rewrite decide_True.
    + rewrite list_lookup_insert_ne by done. rewrite decide_False by tauto. done.
  - rewrite list_lookup_alter_ne by done. by rewrite decide_False by tauto.
Qed.

Lemma filled_init : filled str1 str2 (replicate (m + 1) (replicate (n + 1) 0)) 1 1.
Proof.
  split.
  - split; [by rewrite length_replicate|]. apply Forall_replicate.
    by rewrite length_replicate.
  - intros r c Hr Hc Hrc. unfold dp_get.
    rewrite lookup_replicate_2 by lia. simpl. rewrite lookup_replicate_2 by lia.
    simpl. destruct Hrc as [?|[[-> ?]| ->]].
    + by replace r with 0 by lia.
    + replace c with 0 by lia. done.
    + by rewrite lcs_0_r.
Qed.

Lemma filled_cell dp i j :
  1 <= i <= m -> 1 <= j <= n -> filled str1 str2 dp i j ->
  filled str1 str2 (lcs_cell str1 str2 i dp j) i (S j).
Proof.
  intros Hi Hj [Hs Hf].
  destruct i as [|i]; [lia|]. destruct j as [|j]; [lia|].
  assert (lcs_cell str1 str2 (S i) dp (S j) = dp_set dp (S i) (S j) (lcs str1 str2 (S i) (S j)))
    as ->.
  { unfold lcs_cell. rewrite lcs_S_S. replace (S i - 1) with i by lia.
    replace (S j - 1) with j by lia.
    rewrite !Hf by lia. by destruct (decide _). }
  split; [by apply shaped_set|]. intros r c Hr Hc Hrc.
  rewrite dp_get_set by (done || lia).
  destruct (decide _) as [[<- <-]|Hne]; [done|]. apply Hf; lia.
Qed.

Lemma filled_cells dp i k j :
  1 <= i <= m -> 1 <= j -> j + k = n + 1 -> filled str1 str2 dp i j ->
  filled str1 str2 (fold_left (lcs_cell str1 str2 i) (seq j k) dp) i (n + 1).
Proof.
  intros Hi. revert dp j. induction k as [|k IH]; intros dp j Hj Hjk Hf; simpl.
  - by replace (n + 1) with j by lia.
  - apply IH; [lia|lia|]. apply filled_cell; [done|lia|done].
Qed.

Lemma filled_row dp i :
  1 <= i <= m -> filled str1 str2 dp i 1 -> filled str1 str2 (lcs_row str1 str2 dp i) (S i) 1.
Proof.
  intros Hi Hf. unfold lcs_row.
  destruct (filled_cells dp i n 1 Hi) as [Hs Hf']; [lia|lia|done|].
  split; [done|]. intros r c Hr Hc Hrc. apply Hf'; lia.
Qed.

Lemma filled_rows dp k i :
  1 <= i -> i + k = m + 1 -> filled str1 str2 dp i 1 ->
  filled str1 str2 (fold_left (lcs_row str1 str2) (seq i k) dp) (m + 1) 1.
Proof.
  revert dp i. induction k as [|k IH]; intros dp i Hi Hik Hf; simpl.
  - by replace (m + 1) with i by lia.
  - apply IH; [lia|lia|]. apply filled_row; [lia|done].
Qed.

Lemma computeLCS_lcs i j :
  i <= m -> j <= n -> dp_get (computeLCS str1 str2) i j = lcs str1 str2 i j.
Proof.
  intros Hi Hj. unfold computeLCS.
  destruct (filled_rows (replicate (m + 1) (replicate (n + 1) 0)) m 1)
    as [_ Hf]; [lia|lia|apply filled_init|].
  apply Hf; lia.
Qed.
End Lcs.

(** ** Backtracking *)

Lemma leftText_cons s l :
  leftText (s :: l) = match type s with added => leftText l | _ => text s :: leftText l end.
Proof.
  by destruct s as [c []].
Qed.

Lemma rightText_cons s l :
  rightText (s :: l) = match type s with removed => rightText l | _ => text s :: rightText l end.
Proof.
  by destruct s as [c []].
Qed.

Lemma unchangedCount_cons s l :
  unchangedCount (s :: l)
  = match type s with unchanged => S (unchangedCount l) | _ => unchangedCount l end.
Proof.
  by destruct s as [c []].
Qed.

Section Backtrack.
Variables str1 str2 : string.
Local Abbreviation m := (String.length str1).
Local Abbreviation n := (String.length str2).
Local Abbreviation dp := (computeLCS str1 str2).

Lemma take_S_charAt s i c :
  Js.charAt s i = Some c -> take (S i) (Js.chars s) = take i (Js.chars s) ++ [c].
Proof. apply take_S_r. Qed.

Lemma highlight_loop_backtracked turns i j left right :
  i <= m -> j <= n -> i + j <= turns ->
  (forall s, s ∈ left -> type s <> added) ->
  (forall s, s ∈ right -> type s <> removed) ->
  backtracked str1 str2 (highlight_loop turns dp str1 str2 i j left right) i j left right
  /\ (forall s, s ∈ (highlight_loop turns dp str1 str2 i j left right).1 ->
                type s <> added)
  /\ (forall s, s ∈ (highlight_loop turns dp str1 str2 i j left right).2 ->
                type s <> removed).
Proof.
  revert i j left right.
  induction turns as [|turns IH]; intros i j left right Hi Hj Ht Hl Hr.
  { assert (i = 0) as -> by lia. assert (j = 0) as -> by lia.
    simpl. by repeat split. }
  cbn [highlight_loop].
  destruct i as [|i], j as [|j].
  - simpl. by repeat split.
  - (* only the right string is left: an added segment *)
    replace (S j - 1) with j by lia.
    destruct (charAt_is_Some str2 j) as [c2 Hc2]; [lia|].
    rewrite Hc2. simpl.
    destruct (IH 0 j left (Segment c2 added :: right)) as ((H1&H3&H5&H6&H7&H8)&HL&HR);
      [lia|lia|lia|done| |].
    { intros s [->|Hs]%elem_of_cons; [done|by apply Hr]. }
    split; [|done]. unfold backtracked in *.
    rewrite H1, H3, H5, H6, H7, H8, (take_S_charAt _ _ _ Hc2).
    rewrite ?leftText_cons, ?rightText_cons, ?unchangedCount_cons.
    simpl. rewrite <- !app_assoc, ?lcs_0_l. by repeat split.
  - (* only the left string is left: a removed segment *)
    replace (S i - 1) with i by lia.
    destruct (charAt_is_Some str1 i) as [c1 Hc1]; [lia|].
    rewrite Hc1. simpl.
    destruct (IH i 0 (Segment c1 removed :: left) right) as ((H1&H3&H5&H6&H7&H8)&HL&HR);
      [lia|lia|lia| |done|].
    { intros s [->|Hs]%elem_of_cons; [done|by apply Hl]. }
    split; [|done]. unfold backtracked in *.
    rewrite H1, H3, H5, H6, H7, H8, (take_S_charAt _ _ _ Hc1).
    rewrite ?leftText_cons, ?rightText_cons, ?unchangedCount_cons.
    simpl. rewrite <- !app_assoc, ?lcs_0_r. by repeat split.
  - replace (S i - 1) with i by lia. replace (S j - 1) with j by lia.
    destruct (charAt_is_Some str1 i) as [c1 Hc1]; [lia|].
    destruct (charAt_is_Some str2 j) as [c2 Hc2]; [lia|].
    rewrite !computeLCS_lcs by lia.
    rewrite Hc1, Hc2. simpl.
    pose proof (lcs_S_S str1 str2 i j) as HSS. rewrite Hc1, Hc2 in HSS.
    destruct (decide (Some c1 = Some c2)) as [Heq|Hne]; simpl in HSS.
    + (* both strings end in the same character: unchanged segments *)
      rewrite bool_decide_eq_true_2 by done.
      destruct (IH i j (Segment c1 unchanged :: left) (Segment c2 unchanged :: right))
        as ((H1&H3&H5&H6&H7&H8)&HL&HR); [lia|lia|lia| | |].
      { intros s [->|Hs]%elem_of_cons; [done|by apply Hl]. }
      { intros s [->|Hs]%elem_of_cons; [done|by apply Hr]. }
      split; [|done]. unfold backtracked in *.
      rewrite H1, H3, H5, H6, H7, H8,
        (take_S_charAt _ _ _ Hc1), (take_S_charAt _ _ _ Hc2).
      rewrite ?leftText_cons, ?rightText_cons, ?unchangedCount_cons.
      simpl. rewrite <- !app_assoc. injection Heq as ->.
      repeat split; try done; lia.
    + rewrite bool_decide_eq_false_2 by done.
      case_bool_decide as Hle; simpl.
      * (* the cell to the left is no smaller: an added segment *)
        destruct (IH (S i) j left (Segment c2 added :: right))
          as ((H1&H3&H5&H6&H7&H8)&HL&HR); [lia|lia|lia|done| |].
        { intros s [->|Hs]%elem_of_cons; [done|by apply Hr]. }
        split; [|done]. unfold backtracked in *.
        rewrite H1, H3, H5, H6, H7, H8, (take_S_charAt _ _ _ Hc2).
        rewrite ?leftText_cons, ?rightText_cons, ?unchangedCount_cons.
        simpl. rewrite <- !app_assoc. repeat split; try done; lia.
      * (* the cell above is larger: a removed segment *)
        destruct (IH i (S j) (Segment c1 removed :: left) right)
          as ((H1&H3&H5&H6&H7&H8)&HL&HR); [lia|lia|lia| |done|].
        { intros s [->|Hs]%elem_of_cons; [done|by apply Hl]. }
        split; [|done]. unfold backtracked in *.
        rewrite H1, H3, H5, H6, H7, H8, (take_S_charAt _ _ _ Hc1).
        rewrite ?leftText_cons, ?rightText_cons, ?unchangedCount_cons.
        simpl. rewrite <- !app_assoc. repeat split; try done; lia.
Qed.
End Backtrack.

Lemma highlightDifferences_backtracked str1 str2 :
  backtracked str1 str2 (highlightDifferences str1 str2)
    (String.length str1) (String.length str2) [] []
  /\ (forall s, s ∈ (highlightDifferences str1 str2).1 -> type s <> added)
  /\ (forall s, s ∈ (highlightDifferences str1 str2).2 -> type s <> removed).
Proof.
  apply highlight_loop_backtracked; try done; intros s Hs; by apply not_elem_of_nil in Hs.
Qed.

Lemma take_chars s : take (String.length s) (Js.chars s) = Js.chars s.
Proof. apply take_ge. by rewrite length_chars. Qed.

Lemma highlightDifferences_text str1 str2 :
  text <$> (highlightDifferences str1 str2).1 = Js.chars str1
  /\ text <$> (highlightDifferences str1 str2).2 = Js.chars str2.
Proof.
  destruct (highlightDifferences_backtracked str1 str2) as ((_&_&H1&H2&_)&_).
  rewrite H1, H2, !take_chars. simpl. by rewrite !app_nil_r.
Qed.

Lemma highlightDifferences_unchanged str1 str2 :
  unchangedCount (highlightDifferences str1 str2).1
  = lcs str1 str2 (String.length str1) (String.length str2)
  /\ unchangedCount (highlightDifferences str1 str2).2
     = lcs str1 str2 (String.length str1) (String.length str2).
Proof.
  destruct (highlightDifferences_backtracked str1 str2) as ((_&_&_&_&H1&H2)&_).
  rewrite H1, H2. unfold unchangedCount. simpl. lia.
Qed.

(** The recurrence does not depend on which string is which. *)
Lemma lcs_sym str1 str2 i j : lcs str1 str2 i j = lcs str2 str1 j i.
Proof.
  remember (i + j) as k eqn:Hk. revert i j Hk.
  induction k as [k IH] using lt_wf_ind. intros [|i] [|j] Hk; try done.
  rewrite !lcs_S_S.
  rewrite (IH (i + j)), (IH (i + S j)), (IH (S i + j)) by (done || lia).
  destruct (decide (Js.charAt str1 i = Js.charAt str2 j)) as [Heq|Hne].
  - by rewrite decide_True.
  - rewrite decide_False by done. apply Nat.max_comm.
Qed.

(** C4.  For all strings [a] and [b], the characters of the unchanged and
    removed segments of the left sequence of [highlightDifferences(a, b)]
    spell [a], those of the unchanged and added segments of the right
    sequence spell [b], and both sequences have as many unchanged segments
    as the last cell of [computeLCS(a, b)] says; for ["kitten"] and
    ["sitting"] that is 4. *)
Theorem highlightDifferences_reconstructs :
  (forall a b : string,
      Js.str (leftText (highlightDifferences a b).1) = a
      /\ Js.str (rightText (highlightDifferences a b).2) = b
      /\ unchangedCount (highlightDifferences a b).1
         = dp_get (computeLCS a b) (String.length a) (String.length b)
      /\ unchangedCount (highlightDifferences a b).2
         = dp_get (computeLCS a b) (String.length a) (String.length b))
  /\ unchangedCount (highlightDifferences "kitten" "sitting").1 = 4
  /\ dp_get (computeLCS "kitten" "sitting") 6 7 = 4.
Proof.
  split; [|by vm_compute]. intros a b.
  destruct (highlightDifferences_backtracked a b) as ((H1&H2&_)&_).
  destruct (highlightDifferences_unchanged a b) as [H3 H4].
  rewrite H1, H2, H3, H4, !take_chars, !computeLCS_lcs by done.
  simpl. by rewrite !app_nil_r, !str_chars.
Qed.

(** ** [DiffEngine.compare] *)

Section DiffEngineFacts.
Import DiffEngine.

Implicit Types L R : gmap string string.

Lemma elem_of_sort (k : string) l : k ∈ Js.sort l <-> k ∈ l.
Proof. by rewrite sort_Permutation. Qed.

Lemma elem_of_sortedKeys L R k :
  k ∈ sortedKeys L R <-> is_Some (L !! k) \/ is_Some (R !! k).
Proof.
  unfold sortedKeys.
  by rewrite elem_of_sort, elem_of_elements, elem_of_union, !elem_of_dom.
Qed.

Lemma NoDup_sortedKeys L R : NoDup (sortedKeys L R).
Proof. unfold sortedKeys. rewrite sort_Permutation. apply NoDup_elements. Qed.

Lemma Sorted_sortedKeys L R : Sorted String.le (sortedKeys L R).
Proof. apply sort_Sorted. Qed.

Lemma sortedKeys_comm L R : sortedKeys L R = sortedKeys R L.
Proof. unfold sortedKeys. by rewrite (union_comm_L (dom L)). Qed.

(** [compare] on inputs that are not both [null]. *)
Lemma compare_unfold ft (l r : option (data ft)) :
  is_Some l \/ is_Some r ->
  compare ft l r
  = diffRow ft (toMap ft l) (toMap ft r) <$> sortedKeys (toMap ft l) (toMap ft r).
Proof. intros H. destruct l, r; try done. by destruct H as [[? ?]|[? ?]]. Qed.

(** The four cases of the loop body, by what the maps hold. *)
Lemma diffRow_added ft L R k rv :
  L !! k = None -> R !! k = Some rv ->
  diffRow ft L R k
  = Row Status.added "" (formatLine k (Some rv) ft) None None None None.
Proof. intros HL HR. unfold diffRow. by rewrite HL, HR. Qed.

Lemma diffRow_removed ft L R k lv :
  L !! k = Some lv -> R !! k = None ->
  diffRow ft L R k
  = Row Status.removed (formatLine k (Some lv) ft) "" None None None None.
Proof. intros HL HR. unfold diffRow. by rewrite HL, HR. Qed.

Lemma diffRow_modified ft L R k lv rv :
  L !! k = Some lv -> R !! k = Some rv -> lv <> rv ->
  diffRow ft L R k
  = Row Status.modified (formatLine k (Some lv) ft) (formatLine k (Some rv) ft)
      (Some (highlightDifferences lv rv).1) (Some (highlightDifferences lv rv).2)
      (Some k) (Some ft).
Proof.
  intros HL HR Hne. unfold diffRow. rewrite HL, HR. simpl.
  rewrite bool_decide_eq_true_2; [done|congruence].
Qed.

Lemma diffRow_unchanged ft L R k v :
  L !! k = Some v -> R !! k = Some v ->
  diffRow ft L R k
  = Row Status.unchanged (formatLine k (Some v) ft) (formatLine k (Some v) ft)
      None None None None.
Proof.
  intros HL HR. unfold diffRow. rewrite HL, HR. simpl.
  rewrite bool_decide_eq_false_2; [done|]. by intros [].
Qed.

Lemma diffRow_absent ft L R k :
  L !! k = None -> R !! k = None ->
  diffRow ft L R k = Row Status.unchanged (formatLine k None ft) (formatLine k None ft)
                       None None None None.
Proof. intros HL HR. unfold diffRow. by rewrite HL, HR. Qed.

(** The status of a row is decided by which maps hold its key. *)
Lemma diffRow_presence ft L R k :
  (is_Some (L !! k) -> is_Some (R !! k) ->
   status (diffRow ft L R k) = Status.modified
   \/ status (diffRow ft L R k) = Status.unchanged)
  /\ (status (diffRow ft L R k) = Status.added
      <-> L !! k = None /\ is_Some (R !! k))
  /\ (status (diffRow ft L R k) = Status.removed
      <-> is_Some (L !! k) /\ R !! k = None).
Proof.
  destruct (L !! k) as [lv|] eqn:HL, (R !! k) as [rv|] eqn:HR.
  - destruct (decide (lv = rv)) as [->|Hne].
    + rewrite (diffRow_unchanged _ _ _ _ _ HL HR). simpl.
      repeat split; try done; try (by right); by intros [? ?].
    + rewrite (diffRow_modified _ _ _ _ _ _ HL HR Hne). simpl.
      repeat split; try done; try (by left); by intros [? ?].
  - rewrite (diffRow_removed _ _ _ _ _ HL HR). simpl.
    repeat split; try done; try (by intros _ []); by intros [? ?].
  - rewrite (diffRow_added _ _ _ _ _ HL HR). simpl.
    repeat split; try done; try (by intros []); by intros [[] ?].
  - rewrite (diffRow_absent _ _ _ _ HL HR). simpl.
    repeat split; try done; try (by intros []); try (by intros [[] ?]);
      try (by intros [_ []]).
Qed.
End DiffEngineFacts.

Section DiffEngineClaims.
Import DiffEngine.

(** The script's two copies disagree on the claim C1 makes; this is the
    copy that asks the maps for the key.  For inputs that are not both
    [null], the row [compare] emits for a key held by both maps is
    modified or unchanged, it is added exactly when only the right map
    holds the key, and removed exactly when only the left map does. *)
Theorem compare_classifies_by_presence ft (l r : option (data ft)) i k row :
  is_Some l \/ is_Some r ->
  sortedKeys (toMap ft l) (toMap ft r) !! i = Some k ->
  compare ft l r !! i = Some row ->
  (is_Some (toMap ft l !! k) -> is_Some (toMap ft r !! k) ->
   status row = Status.modified \/ status row = Status.unchanged)
  /\ (status row = Status.added
      <-> toMap ft l !! k = None /\ is_Some (toMap ft r !! k))
  /\ (status row = Status.removed
      <-> is_Some (toMap ft l !! k) /\ toMap ft r !! k = None).
Proof.
  intros Hlr Hk Hrow. rewrite compare_unfold in Hrow by done.
  rewrite list_lookup_fmap, Hk in Hrow. injection Hrow as <-.
  apply diffRow_presence.
Qed.

Lemma compare_classifies_by_presence_witness :
  let l := Some [Entry.property "a" "" "a="] in
  let r := Some [Entry.property "a" "1" "a=1"] in
  let row := Row Status.modified "a=" "a=1" (Some [])
               (Some [Segment "1" added]) (Some "a") (Some properties) in
  (is_Some (toMap properties l !! "a") -> is_Some (toMap properties r !! "a") ->
   status row = Status.modified \/ status row = Status.unchanged)
  /\ (status row = Status.added
      <-> toMap properties l !! "a" = None /\ is_Some (toMap properties r !! "a"))
  /\ (status row = Status.removed
      <-> is_Some (toMap properties l !! "a") /\ toMap properties r !! "a" = None).
Proof.
  intros l r row.
  apply (compare_classifies_by_presence properties l r 0 "a" row);
    [left; by eexists|by vm_compute|by vm_compute].
Defined.

(** C1.  In the copy of the script kept as [app.js], a key held by both
    maps whose left value is the empty string gets an added row: the loop
    tests the values, not the presence of the key.  The other copy emits
    a modified row for the same input, which comes from parsing [a=] and
    [a=1]. *)
Theorem legacy_compare_classifies_by_truthiness :
  let l := [Entry.property "a" "" "a="] in
  let r := [Entry.property "a" "1" "a=1"] in
  PropertyParser.parse "a=" = Some l
  /\ PropertyParser.parse "a=1" = Some r
  /\ (forall localeCompare,
        PropertyParser.sort localeCompare l = l
        /\ PropertyParser.sort localeCompare r = r)
  /\ toMap properties (Some l) !! "a" = Some ""
  /\ toMap properties (Some r) !! "a" = Some "1"
  /\ Legacy.compare properties l r
     = Some [Row Status.added "" "a=1" None None None None]
  /\ compare properties (Some l) (Some r)
     = [Row Status.modified "a=" "a=1" (Some [])
          (Some [Segment "1" added]) (Some "a") (Some properties)].
Proof. by vm_compute. Qed.

(** C2.  For inputs that are not both [null], [compare] returns the rows
    of a list of keys, one row a key in the order of the list; the list
    has no key twice, is in code unit order, and holds exactly the keys
    of the left and right maps. *)
Theorem compare_one_row_per_key ft (l r : option (data ft)) :
  is_Some l \/ is_Some r ->
  exists keys : list string,
    compare ft l r = diffRow ft (toMap ft l) (toMap ft r) <$> keys
    /\ length (compare ft l r) = length keys
    /\ NoDup keys
    /\ Sorted String.le keys
    /\ forall k, k ∈ keys <-> k ∈ dom (toMap ft l) ∪ dom (toMap ft r).
Proof.
  intros Hlr. exists (sortedKeys (toMap ft l) (toMap ft r)).
  rewrite compare_unfold by done. repeat split.
  - by rewrite length_fmap.
  - apply NoDup_sortedKeys.
  - apply Sorted_sortedKeys.
  - rewrite elem_of_sortedKeys, elem_of_union, !elem_of_dom. done.
  - rewrite elem_of_sortedKeys, elem_of_union, !elem_of_dom. done.
Qed.

Lemma compare_one_row_per_key_witness :
  let l := Some [Entry.property "b" "1" "b=1"; Entry.property "c" "" "c="] in
  let r := Some [Entry.property "a" "2" "a=2"; Entry.property "b" "3" "b=3"] in
  exists keys : list string,
    compare properties l r
    = diffRow properties (toMap properties l) (toMap properties r) <$> keys
    /\ length (compare properties l r) = length keys
    /\ NoDup keys
    /\ Sorted String.le keys
    /\ forall k, k ∈ keys
                 <-> k ∈ dom (toMap properties l) ∪ dom (toMap properties r).
Proof.
  intros l r. apply (compare_one_row_per_key properties l r). left. by eexists.
Defined.

(** With both inputs [null] there are no rows. *)
Lemma compare_null ft : compare ft None None = [].
Proof. done. Qed.

(** *** Swapping the inputs *)

Lemma diffRow_swapped ft L R k :
  is_Some (L !! k) \/ is_Some (R !! k) ->
  swapped (diffRow ft L R k) (diffRow ft R L k).
Proof.
  intros Hk.
  destruct (L !! k) as [lv|] eqn:HL, (R !! k) as [rv|] eqn:HR.
  - destruct (decide (lv = rv)) as [->|Hne].
    + rewrite (diffRow_unchanged ft L R _ _ HL HR).
      by rewrite (diffRow_unchanged ft R L _ _ HR HL).
    + rewrite (diffRow_modified _ _ _ _ _ _ HL HR Hne).
      rewrite (diffRow_modified _ _ _ _ _ _ HR HL) by done.
      unfold swapped. simpl. repeat split; try done.
      destruct (highlightDifferences_text lv rv) as [T1 T2].
      destruct (highlightDifferences_text rv lv) as [T3 T4].
      destruct (highlightDifferences_unchanged lv rv) as [U1 U2].
      destruct (highlightDifferences_unchanged rv lv) as [U3 U4].
      destruct (highlightDifferences_backtracked rv lv) as (_ & A1 & A2).
      eexists _, _, _, _. repeat split; try done.
      * by rewrite T3, T2.
      * by rewrite T4, T1.
      * by rewrite U3, U2, lcs_sym.
      * by rewrite U4, U1, lcs_sym.
      * by apply Forall_forall.
      * by apply Forall_forall.
  - rewrite (diffRow_removed _ _ _ _ _ HL HR).
    by rewrite (diffRow_added _ _ _ _ _ HR HL).
  - rewrite (diffRow_added _ _ _ _ _ HL HR).
    by rewrite (diffRow_removed _ _ _ _ _ HR HL).
  - by destruct Hk as [[]|[]].
Qed.

(** C3, amended.  Swapping the inputs of [compare] maps the rows one to
    one: an added row becomes the removed row of the same line and
    conversely, an unchanged row stays as it is, and a modified row stays
    modified with its lines exchanged and with segment sequences that
    spell the exchanged values, have as many unchanged segments as
    before, and use removed on the left and added on the right. *)
Theorem compare_swap ft (l r : option (data ft)) :
  Forall2 swapped (compare ft l r) (compare ft r l).
Proof.
  destruct (decide (is_Some l \/ is_Some r)) as [Hlr|Hlr].
  - rewrite (compare_unfold ft l r), (compare_unfold ft r l) by tauto.
    rewrite (sortedKeys_comm (toMap ft r)).
    apply Forall2_fmap, Forall_Forall2_diag, Forall_forall.
    intros k Hk. apply diffRow_swapped. by apply elem_of_sortedKeys.
  - destruct l, r; try (exfalso; apply Hlr; eauto; fail). constructor.
Qed.

(** C3 as stated fails: for [k=ab] against [k=ba] the modified row of the
    swapped comparison is not the mirror image of the original one. *)
Lemma compare_swap_not_mirror :
  let l := Some [Entry.property "k" "ab" "k=ab"] in
  let r := Some [Entry.property "k" "ba" "k=ba"] in
  compare properties r l <> mirror <$> compare properties l r.
Proof. by vm_compute. Qed.
End DiffEngineClaims.

(** ** [PropertyParser.parse] *)

Section ParseFacts.
Import PropertyParser.

Lemma continuation_index turns lines fullLine i :
  i < length lines ->
  i <= (continuation turns lines fullLine i).2 < length lines.
Proof.
  revert fullLine i. induction turns as [|turns IH]; intros fullLine i Hi; simpl.
  - lia.
  - destruct (Js.endsWith _ _); simpl; [|lia].
    case_bool_decide as Hlt; simpl; [|lia].
    specialize (IH (Js.dropLast (Js.trimEnd fullLine)
                      +:+ default "" (lines !! (i + 1))) (i + 1) Hlt). lia.
Qed.

(** The turns [parsePropertyLine] gives the continuation loop are enough:
    the loop stops by its own condition, and more turns change nothing. *)
Lemma continuation_enough turns1 turns2 lines fullLine i :
  length lines - i <= turns1 -> length lines - i <= turns2 ->
  continuation turns1 lines fullLine i = continuation turns2 lines fullLine i.
Proof.
  revert turns2 fullLine i.
  induction turns1 as [|turns1 IH]; intros [|turns2] fullLine i H1 H2; simpl; try done.
  - rewrite (bool_decide_eq_false_2 (i + 1 < length lines)) by lia.
    by rewrite andb_false_r.
  - rewrite (bool_decide_eq_false_2 (i + 1 < length lines)) by lia.
    by rewrite andb_false_r.
  - destruct (Js.endsWith _ _); simpl; [|done].
    case_bool_decide; simpl; [|done]. apply IH; lia.
Qed.

Lemma parsePropertyLine_Some line lines i r :
  i < length lines -> parsePropertyLine line lines i = Some r ->
  i < nextIndex r <= length lines.
Proof.
  intros Hi. unfold parsePropertyLine.
  pose proof (continuation_index (length lines - i) lines line i Hi) as Hc.
  destruct (continuation _ _ _ _) as [full idx]. simpl in Hc.
  destruct (separatorMatch full) as [[k v]|].
  - intros [= <-]. simpl. lia.
  - destruct (spaceMatch full) as [[k v]|]; [|done].
    intros [= <-]. simpl. lia.
Qed.

Lemma parsePropertyLine_None line lines i :
  parsePropertyLine line lines i = None ->
  separatorMatch (resolved lines i line) = None
  /\ spaceMatch (resolved lines i line) = None.
Proof.
  unfold parsePropertyLine, resolved.
  destruct (continuation _ _ _ _) as [full idx]. simpl.
  destruct (separatorMatch full) as [[k v]|]; [done|].
  by destruct (spaceMatch full) as [[k v]|].
Qed.

(** Each turn of the loop of [parse] pushes an entry that accounts for
    the lines the turn consumes. *)
Lemma parse_step_accounted lines i line e i' :
  lines !! i = Some line -> parse_step lines i line = (e, i') ->
  exists n, i' = i + n /\ 1 <= n /\ i + n <= length lines
            /\ accounted lines i line e n.
Proof.
  intros Hline. pose proof (lookup_lt_Some _ _ _ Hline) as Hi.
  unfold parse_step, accounted.
  case_bool_decide as Hblank.
  { intros [= <- <-]. exists 1. repeat split; try lia. by left. }
  destruct (Js.startsWith (Js.trim line) "#" || Js.startsWith (Js.trim line) "!")
    eqn:Hcomment.
  { intros [= <- <-]. exists 1. repeat split; try lia. right; left.
    repeat split; try done. apply orb_true_iff in Hcomment.
    destruct Hcomment as [->| ->]; [by left|by right]. }
  assert (~ (Js.startsWith (Js.trim line) "#" \/ Js.startsWith (Js.trim line) "!"))
    as Hnc.
  { apply orb_false_iff in Hcomment as [-> ->]. by intros [?|?]. }
  destruct (parsePropertyLine line lines i) as [r|] eqn:Hr.
  - intros [= <- <-]. pose proof (parsePropertyLine_Some _ _ _ _ Hi Hr) as Hn.
    exists (nextIndex r - i). repeat split; try lia.
    right; right; left. repeat split; try done.
    exists r. repeat split; try done; lia.
  - intros [= <- <-]. exists 1. repeat split; try lia.
    right; right; right. apply parsePropertyLine_None in Hr as [? ?].
    by repeat split.
Qed.

Lemma parse_loop_accounted turns lines i entries :
  length lines - i <= turns -> i <= length lines ->
  exists es spans,
    parse_loop turns lines i entries = Some (entries ++ es)
    /\ length spans = length es
    /\ i + sum_list spans = length lines
    /\ forall k e n, es !! k = Some e -> spans !! k = Some n ->
         exists line, lines !! (i + sum_list (take k spans)) = Some line
                      /\ accounted lines (i + sum_list (take k spans)) line e n.
Proof.
  revert i entries. induction turns as [|turns IH]; intros i entries Ht Hi.
  - exists [], []. assert (lines !! i = None) as Hnone by (apply lookup_ge_None; lia).
    simpl. rewrite Hnone, app_nil_r. repeat split; [simpl; lia|].
    intros k e n Hk. by rewrite lookup_nil in Hk.
  - cbn [parse_loop]. destruct (lines !! i) as [line|] eqn:Hline.
    + destruct (parse_step lines i line) as [e i'] eqn:Hstep.
      destruct (parse_step_accounted _ _ _ _ _ Hline Hstep)
        as (n & -> & Hn & Hle & Hacc).
      destruct (IH (i + n) (entries ++ [e])) as (es & spans & Hloop & Hlen & Hsum & Hall);
        [lia|lia|].
      exists (e :: es), (n :: spans). rewrite Hloop, <- app_assoc. simpl.
      repeat split; [by rewrite Hlen|lia|].
      intros [|k] e' n' He' Hn'; simpl in *.
      * injection He' as <-. injection Hn' as <-.
        exists line. by rewrite Nat.add_0_r.
      * destruct (Hall k e' n' He' Hn') as (line' & Hline' & Hacc').
        exists line'. by rewrite Nat.add_assoc.
    + exists [], []. rewrite app_nil_r. apply lookup_ge_None in Hline.
      repeat split; [simpl; lia|].
      intros k e n Hk. by rewrite lookup_nil in Hk.
Qed.

(** C7.  [parse] returns for every text, and the entries it returns
    account for every physical line: each entry stands for a run of
    lines, the runs follow one another and add up to all the lines, a blank
    line gives a blank entry, a [#] or [!] line a comment entry, a line
    [parsePropertyLine] accepts a property entry for the lines it joined,
    and a line whose resolved text matches neither pattern a comment entry
    carrying the raw line. *)
Theorem parse_total (text : string) :
  exists entries spans,
    parse text = Some entries
    /\ length spans = length entries
    /\ sum_list spans = length (Js.splitLines text)
    /\ forall k e n, entries !! k = Some e -> spans !! k = Some n ->
         exists line,
           Js.splitLines text !! sum_list (take k spans) = Some line
           /\ accounted (Js.splitLines text) (sum_list (take k spans)) line e n.
Proof.
  unfold parse.
  destruct (parse_loop_accounted (length (Js.splitLines text)) (Js.splitLines text) 0 [])
    as (es & spans & Hloop & Hlen & Hsum & Hall); [lia|lia|].
  exists es, spans. by repeat split.
Qed.
End ParseFacts.

(** ** [YAMLParser.parseLevel] *)

Lemma searchNonSpace_ge s : (-1 <= Js.searchNonSpace s)%Z.
Proof.
  induction s as [|c s IH]; simpl; [lia|].
  destruct (Js.isWhiteSpace c); [|lia].
  destruct (Js.searchNonSpace s <? 0)%Z eqn:H; lia.
Qed.

Section ParseLevelFacts.
Import YAMLParser.

Section Lines.
Variable lines : list string.

(** The three ways a turn goes: it leaves the loop at a content line
    indented less than the base, or more than a base that is not 0; it
    consumes its line and calls nothing; or it consumes a key line and
    hands the lines below it to the recursive call. *)
Lemma level_step_cases base cur o pending line :
  ((forall recur', level_step lines recur' base cur o pending line = Some Break)
   /\ content line
   /\ ((Js.searchNonSpace line < base)%Z
       \/ ((Js.searchNonSpace line > base)%Z /\ base <> 0%Z)))
  \/ (exists o' pending',
         forall recur',
           level_step lines recur' base cur o pending line
           = Some (Continue (cur + 1) o' pending'))
  \/ (exists b k,
         callSite lines cur line b (cur + 1)
         /\ content line
         /\ ((base <= Js.searchNonSpace line)%Z)
         /\ forall recur',
             level_step lines recur' base cur o pending line
             = match recur' b (cur + 1) with
               | Some (children, cur') =>
                   Some (Continue cur' (Js.set k (Node (Obj children) pending) o) [])
               | None => None
               end).
Proof.
  unfold level_step, content.
  case_bool_decide as Hblank; [right; left; by eexists _, _|].
  destruct (Js.startsWith (Js.trim line) "#") eqn:Hcomment;
    [right; left; by eexists _, _|].
  case_bool_decide as Hnone; [right; left; by eexists _, _|].
  case_bool_decide as Hless; [left; by repeat split; try left|].
  destruct (bool_decide (Js.searchNonSpace line > base)%Z
            && negb (bool_decide (base = 0%Z))) eqn:Hmore.
  { left. apply andb_true_iff in Hmore as [Hgt Hnz].
    apply bool_decide_eq_true in Hgt. apply negb_true_iff, bool_decide_eq_false in Hnz.
    repeat split; try done. by right. }
  destruct (keyValueMatch (Js.trim line)) as [[k v]|];
    [|destruct (Js.startsWith (Js.trim line) "-"); right; left; by eexists _, _].
  destruct (lines !! (cur + 1)) as [nextLine|] eqn:Hnext;
    [|right; left; by eexists _, _].
  destruct (bool_decide (Js.searchNonSpace nextLine > Js.searchNonSpace line)%Z
            && negb (bool_decide (Js.trim nextLine = ""))) eqn:Hdeep.
  - right; right. apply andb_true_iff in Hdeep as [Hgt Hnb].
    apply bool_decide_eq_true in Hgt. apply negb_true_iff, bool_decide_eq_false in Hnb.
    exists (Js.searchNonSpace nextLine), (Js.trim k). repeat split; try done; try lia.
    exists nextLine. repeat split; try done. lia.
  - destruct (bool_decide (Js.trim v = "")); right; left; by eexists _, _.
Qed.

(** The body calls [recur] at a call site only. *)
Lemma level_step_callSite recur recur' base cur o pending line :
  (forall b c, callSite lines cur line b c -> recur b c = recur' b c) ->
  level_step lines recur base cur o pending line
  = level_step lines recur' base cur o pending line.
Proof.
  intros Hsame.
  destruct (level_step_cases base cur o pending line)
    as [(Hbreak & Hc & Hind)|[(o' & p' & Hstep)|(b & k & Hsite & _ & _ & Hstep)]].
  - by rewrite !Hbreak.
  - by rewrite !Hstep.
  - by rewrite !Hstep, (Hsame _ _ Hsite).
Qed.

(** A turn that does not leave the loop moves the cursor forward. *)
Lemma level_step_advances recur base cur o pending line cur' o' pending' :
  (forall b c o1 c1, callSite lines cur line b c -> recur b c = Some (o1, c1) -> c <= c1) ->
  level_step lines recur base cur o pending line = Some (Continue cur' o' pending') ->
  cur < cur'.
Proof.
  intros Hmono.
  destruct (level_step_cases base cur o pending line)
    as [(Hbreak & _)|[(o1 & p1 & Hstep)|(b & k & Hsite & _ & _ & Hstep)]].
  - by rewrite Hbreak.
  - rewrite Hstep. intros [= <- <- <-]. lia.
  - rewrite Hstep. destruct (recur b (cur + 1)) as [[o1 c1]|] eqn:Hrec; [|done].
    intros [= <- <- <-]. apply (Hmono _ _ _ _ Hsite) in Hrec. lia.
Qed.

(** With a recursive call that returns, a turn ends, and within the
    lines. *)
Lemma level_step_returns recur base cur o pending line :
  cur < length lines -> returning lines recur cur ->
  level_step lines recur base cur o pending line = Some Break
  \/ exists cur' o' pending',
       level_step lines recur base cur o pending line
       = Some (Continue cur' o' pending')
       /\ cur < cur' <= length lines.
Proof.
  intros Hcur Hrec.
  destruct (level_step_cases base cur o pending line)
    as [(Hbreak & _)|[(o1 & p1 & Hstep)|(b & k & Hsite & _ & _ & Hstep)]].
  - by left.
  - right. exists (cur + 1), o1, p1. split; [done|lia].
  - right. destruct (Hrec b (cur + 1)) as (o1 & c1 & Hr & Hc1); [lia|].
    rewrite Hstep, Hr. eexists _, _, _. split; [done|lia].
Qed.

(** The loop returns once it has a turn for every line left. *)
Lemma level_loop_returns recur turns base cur o pending :
  length lines - cur <= turns -> cur <= length lines ->
  returning lines recur cur ->
  exists o' cur',
    level_loop lines recur turns base cur o pending = Some (o', cur')
    /\ cur <= cur' <= length lines.
Proof.
  revert cur o pending.
  induction turns as [|turns IH]; intros cur o pending Ht Hcur Hrec.
  - assert (lines !! cur = None) as Hnone by (apply lookup_ge_None; lia).
    simpl. rewrite Hnone. exists o, cur. split; [done|lia].
  - cbn [level_loop]. destruct (lines !! cur) as [line|] eqn:Hline;
      [|exists o, cur; split; [done|lia]].
    apply lookup_lt_Some in Hline.
    destruct (level_step_returns recur base cur o pending line Hline Hrec)
      as [->|(cur' & o' & p' & -> & Hc')]; [exists o, cur; split; [done|lia]|].
    destruct (IH cur' o' p') as (o2 & c2 & Hloop & Hc2); [lia|lia| |].
    { intros b c Hc. apply Hrec. lia. }
    exists o2, c2. split; [done|lia].
Qed.

(** [parseLevel] returns once [depth] exceeds the number of lines left. *)
Lemma parseLevel_returns depth base cur :
  length lines - cur < depth -> cur <= length lines ->
  exists o cur',
    parseLevel lines depth base cur = Some (o, cur')
    /\ cur <= cur' <= length lines.
Proof.
  revert base cur. induction depth as [|depth IH]; intros base cur Hd Hcur; [lia|].
  cbn [parseLevel]. apply level_loop_returns; [lia|done|].
  intros b c Hc. apply IH; lia.
Qed.

(** At base 0 a turn never leaves the loop. *)
Lemma level_step_root recur cur o pending line :
  level_step lines recur 0 cur o pending line <> Some Break.
Proof.
  destruct (level_step_cases 0 cur o pending line)
    as [(Hbreak & [Hnb Hnc] & Hind)|[(o1 & p1 & Hstep)|(b & k & _ & _ & _ & Hstep)]].
  - exfalso. pose proof (searchNonSpace_ge line) as Hge.
    destruct Hind as [Hlt|[_ ?]]; [|done].
    assert (Js.searchNonSpace line = (-1)%Z) as Hm by lia.
    specialize (Hbreak recur). unfold level_step in Hbreak.
    rewrite bool_decide_eq_false_2, Hnc, Hm in Hbreak by done. done.
  - by rewrite Hstep.
  - rewrite Hstep. by destruct (recur b (cur + 1)) as [[? ?]|].
Qed.

Lemma level_loop_root recur turns cur o pending o' cur' :
  level_loop lines recur turns 0 cur o pending = Some (o', cur') ->
  length lines <= cur'.
Proof.
  revert cur o pending. induction turns as [|turns IH]; intros cur o pending.
  - simpl. destruct (lines !! cur) eqn:Hline; [done|].
    intros [= <- <-]. by apply lookup_ge_None.
  - cbn [level_loop]. destruct (lines !! cur) as [line|] eqn:Hline.
    + pose proof (level_step_root recur cur o pending line) as Hroot.
      destruct (level_step lines recur 0 cur o pending line) as [[|c1 o1 p1]|];
        [done| |done].
      apply IH.
    + intros [= <- <-]. by apply lookup_ge_None.
Qed.

(** The first turn of a nested level consumes the line it was called
    for. *)
Lemma level_loop_consumes recur turns cur o pending line o' cur' :
  lines !! cur = Some line -> Js.trim line <> "" ->
  (forall b c o1 c1, recur b c = Some (o1, c1) -> c <= c1) ->
  level_loop lines recur turns (Js.searchNonSpace line) cur o pending = Some (o', cur') ->
  cur < cur'.
Proof.
  intros Hline Hnb Hmono. destruct turns as [|turns]; simpl; rewrite Hline; [done|].
  destruct (level_step_cases (Js.searchNonSpace line) cur o pending line)
    as [(_ & _ & Hind)|[(o1 & p1 & Hstep)|(b & k & Hsite & _ & _ & Hstep)]].
  - destruct Hind as [?|[? _]]; lia.
  - rewrite Hstep. intros Hloop.
    enough (cur + 1 <= cur') by lia. revert Hloop. clear Hstep.
    generalize (cur + 1) o1 p1. clear -Hmono.
    induction turns as [|turns IH]; intros c o p; simpl.
    + destruct (lines !! c); [done|]. intros [= <- <-]. done.
    + destruct (lines !! c) as [l|] eqn:Hl; [|by intros [= <- <-]].
      destruct (level_step lines recur _ c o p l) as [[|c1 o1 p1]|] eqn:Hs;
        [by intros [= <- <-]| |done].
      intros Hloop. apply IH in Hloop.
      apply level_step_advances in Hs; [lia|]. intros ? ? ? ? _. apply Hmono.
  - rewrite Hstep. destruct (recur b (cur + 1)) as [[o1 c1]|] eqn:Hr; [|done].
    apply Hmono in Hr. intros Hloop.
    enough (c1 <= cur') by lia. revert Hloop.
    generalize c1 (Js.set k (Node (Obj o1) pending) o) (@nil string). clear -Hmono.
    induction turns as [|turns IH]; intros c o p; simpl.
    + destruct (lines !! c); [done|]. intros [= <- <-]. done.
    + destruct (lines !! c) as [l|] eqn:Hl; [|by intros [= <- <-]].
      destruct (level_step lines recur _ c o p l) as [[|c2 o2 p2]|] eqn:Hs;
        [by intros [= <- <-]| |done].
      intros Hloop. apply IH in Hloop.
      apply level_step_advances in Hs; [lia|]. intros ? ? ? ? _. apply Hmono.
Qed.
End Lines.
End ParseLevelFacts.

(** ** The claims on the two canonical sorts *)

Section SortClaims.
Import PropertyParser.

(** C5.  Both canonical sorts are idempotent, for every locale whose
    [localeCompare] is a consistent comparator: sorting the sorted entries
    again returns them, and so does sorting a sorted YAML tree again. *)
Theorem canonical_sorts_idempotent (localeCompare : string -> string -> Z) :
  Js.consistent localeCompare ->
  (forall e, sort localeCompare (sort localeCompare e) = sort localeCompare e)
  /\ (forall n, YAMLParser.sortRecursively (YAMLParser.sortRecursively n)
                = YAMLParser.sortRecursively n).
Proof.
  intros Hc. split.
  - intros e. by apply sort_sort.
  - apply sortRecursively_idempotent.
Qed.

Lemma canonical_sorts_idempotent_witness :
  let e := [Entry.comment "# c"; Entry.property "b" "1" "b=1"; Entry.blank;
            Entry.property "a" "2" "a = 2"; Entry.comment "! end"] in
  let n := [("b", YAMLParser.Node (YAMLParser.Str "1") ["# c"]);
            ("a", YAMLParser.Node
                    (YAMLParser.Obj [("z", YAMLParser.Node (YAMLParser.Str "") []);
                                     ("10", YAMLParser.Node (YAMLParser.Str "x") [])])
                    [])] in
  sort Js.codeUnitCompare (sort Js.codeUnitCompare e) = sort Js.codeUnitCompare e
  /\ YAMLParser.sortRecursively (YAMLParser.sortRecursively n)
     = YAMLParser.sortRecursively n.
Proof.
  intros e n.
  destruct (canonical_sorts_idempotent Js.codeUnitCompare codeUnitCompare_consistent)
    as [He Hn].
  split; [apply He|apply Hn].
Defined.



(** What [parse] returns consists of blank, comment and property
    entries. *)
Lemma parse_known text es : parse text = Some es -> Forall known es.
Proof.
  unfold parse. intros Hes.
  destruct (parse_loop_accounted (length (Js.splitLines text)) (Js.splitLines text) 0 [])
    as (es' & spans & Hes' & Hlen & _ & Hall); [lia|lia|].
  rewrite Hes in Hes'. injection Hes' as <-.
  apply Forall_lookup. intros k e He.
  destruct (lookup_lt_is_Some_2 spans k) as [n Hn].
  { rewrite Hlen. by eapply lookup_lt_Some. }
  destruct (Hall k e n He Hn) as (line & _ & Hacc). unfold known.
  destruct Hacc as [(_ & -> & _)|[(_ & _ & -> & _)|
                   [(_ & _ & r & _ & -> & _)|(_ & _ & _ & _ & -> & _)]]]; simpl; tauto.
Qed.

(** C9.  On a list of blank, comment and property entries, which is what
    [parse] returns, [sort] returns a permutation of the list. *)
Theorem sort_permutes (localeCompare : string -> string -> Z) :
  Js.consistent localeCompare ->
  (forall es, Forall known es -> sort localeCompare es ≡ₚ es)
  /\ (forall text es, parse text = Some es -> sort localeCompare es ≡ₚ es).
Proof.
  intros _. split.
  - intros es. apply sort_Permutation_known.
  - intros text es Hes. by eapply sort_Permutation_known, parse_known.
Qed.

Lemma sort_permutes_witness :
  let es := [Entry.comment "# c"; Entry.property "b" "1" "b=1"; Entry.blank;
             Entry.property "a" "2" "a = 2"; Entry.comment "! end"] in
  sort Js.codeUnitCompare es ≡ₚ es
  /\ (forall es', parse ("b=1" +:+ Js.LF +:+ "a=2") = Some es' ->
                  sort Js.codeUnitCompare es' ≡ₚ es').
Proof.
  intros es.
  destruct (sort_permutes Js.codeUnitCompare codeUnitCompare_consistent) as [H1 H2].
  split.
  - apply H1. unfold es, known. repeat constructor; simpl; tauto.
  - intros es'. apply H2.
Defined.

Lemma parse_total_witness :
  exists entries spans,
    parse ("a = 1 \" +:+ Js.LF +:+ "  2" +:+ Js.LF +:+ "oops") = Some entries
    /\ entries = [Entry.property "a" "1   2" "a = 1   2"; Entry.comment "oops"]
    /\ spans = [2; 1].
Proof.
  destruct (parse_total ("a = 1 \" +:+ Js.LF +:+ "  2" +:+ Js.LF +:+ "oops"))
    as (entries & spans & Hes & Hlen & Hsum & Hall).
  exists entries, spans. split; [done|].
  assert (entries = [Entry.property "a" "1   2" "a = 1   2"; Entry.comment "oops"])
    as -> by (revert Hes; vm_compute; congruence).
  split; [done|].
  destruct spans as [|n1 [|n2 [|n3 spans]]]; try done.
  destruct (Hall 0 _ n1 eq_refl eq_refl) as (l1 & Hl1 & Ha1).
  destruct (Hall 1 _ n2 eq_refl eq_refl) as (l2 & Hl2 & Ha2).
  assert (n1 = 2) as ->.
  { destruct Ha1 as [(_ & ? & _)|[(_ & _ & ? & _)|
                     [(_ & _ & r & Hr & _ & Hn & _)|(_ & _ & _ & _ & ? & _)]]];
      try done.
    revert Hl1 Hr Hn. vm_compute. intros [= <-] [= <-]. simpl. by intros <-. }
  assert (n2 = 1) as ->; [|done].
  revert Hsum. simpl. change (length _) with 3. lia.
Defined.
End SortClaims.

Lemma searchNonSpace_blank s : Js.searchNonSpace s = (-1)%Z -> Js.trimStart s = "".
Proof.
  induction s as [|c s IH]; simpl; [done|].
  destruct (Js.isWhiteSpace c); [|done].
  pose proof (searchNonSpace_ge s) as Hge.
  destruct (Js.searchNonSpace s <? 0)%Z eqn:Hneg; [|lia].
  intros _. apply IH. apply Z.ltb_lt in Hneg. lia.
Qed.

Lemma searchNonSpace_content line : Js.trim line <> "" -> (0 <= Js.searchNonSpace line)%Z.
Proof.
  intros Hnb. pose proof (searchNonSpace_ge line) as Hge.
  destruct (decide (Js.searchNonSpace line = (-1)%Z)) as [Hm|Hm]; [|lia].
  exfalso. apply Hnb. unfold Js.trim. by rewrite (searchNonSpace_blank _ Hm).
Qed.

Section ParseLevelClaims.
Import YAMLParser.

Lemma level_loop_forward lines recur turns base cur o pending o' cur' :
  forward recur ->
  level_loop lines recur turns base cur o pending = Some (o', cur') -> cur <= cur'.
Proof.
  intros Hrec. revert cur o pending.
  induction turns as [|turns IH]; intros cur o pending; simpl.
  - destruct (lines !! cur); [done|]. by intros [= <- <-].
  - destruct (lines !! cur) as [line|] eqn:Hline; [|by intros [= <- <-]].
    destruct (level_step lines recur base cur o pending line) as [[|c1 o1 p1]|] eqn:Hstep;
      [by intros [= <- <-]| |done].
    intros Hloop. apply IH in Hloop.
    apply level_step_advances in Hstep; [lia|]. intros ? ? ? ? _. apply Hrec.
Qed.

Lemma parseLevel_forward lines depth : forward (parseLevel lines depth).
Proof.
  induction depth as [|depth IH]; intros b c o c'; simpl; [done|].
  by apply level_loop_forward.
Qed.

(** The root level returns with every line consumed. *)
Lemma parseLevel_root text :
  exists o,
    parseLevel (Js.splitLines text) (S (length (Js.splitLines text))) 0 0
    = Some (o, length (Js.splitLines text)).
Proof.
  destruct (parseLevel_returns (Js.splitLines text) (S (length (Js.splitLines text))) 0 0)
    as (o & c & Hp & Hc); [lia|lia|].
  exists o. rewrite Hp. do 2 f_equal.
  cbn [parseLevel] in Hp. apply level_loop_root in Hp. lia.
Qed.

(** A level takes a content line for its own when the line is indented
    as the level, and the root level also when it is indented deeper:
    the turn is then the turn [ownLine] describes. *)
Lemma level_step_own lines recur baseIndent cur o pending line :
  content line ->
  (Js.searchNonSpace line = baseIndent
   \/ (baseIndent = 0%Z /\ (Js.searchNonSpace line > 0)%Z)) ->
  level_step lines recur baseIndent cur o pending line
  = ownLine lines recur cur o pending line.
Proof.
  intros [Hnb Hnc] Hind. pose proof (searchNonSpace_content line Hnb) as Hge.
  unfold level_step, ownLine.
  rewrite bool_decide_eq_false_2, Hnc by done.
  rewrite (bool_decide_eq_false_2 (Js.searchNonSpace line = (-1)%Z)) by lia.
  rewrite (bool_decide_eq_false_2 (Js.searchNonSpace line < baseIndent)%Z) by lia.
  destruct Hind as [Heq|[-> Hgt]].
  - by rewrite (bool_decide_eq_false_2 (Js.searchNonSpace line > baseIndent)%Z) by lia.
  - by rewrite (bool_decide_eq_true_2 (0 = 0)%Z), andb_false_r by done.
Qed.

(** C8.  At a content line indented deeper than [baseIndent], a level
    whose [baseIndent] is not 0 leaves its loop with the cursor and the
    object as they are.  A level whose [baseIndent] is 0 does not leave
    its loop there: it processes the line itself.  Its turn is the turn
    of a level whose base is the indentation of the line, which is the
    turn [ownLine] describes: the key, the array item or nothing is
    stored, with the pending comments; when the recursive call returns,
    the turn ends with the cursor moved forward, the loop goes on from
    there, and with a turn for every line left it returns with the
    cursor behind the last line.  Whenever the loop of such a level
    returns, the cursor stands behind the last line, as it does when
    [parse] runs the root level. *)
Theorem parseLevel_deeper_indent lines recur baseIndent cur o pending line turns :
  lines !! cur = Some line ->
  content line ->
  (Js.searchNonSpace line > baseIndent)%Z ->
  (baseIndent <> 0%Z ->
   level_step lines recur baseIndent cur o pending line = Some Break
   /\ level_loop lines recur (S turns) baseIndent cur o pending = Some (o, cur))
  /\ (baseIndent = 0%Z ->
      level_step lines recur baseIndent cur o pending line <> Some Break
      /\ level_step lines recur baseIndent cur o pending line
         = level_step lines recur (Js.searchNonSpace line) cur o pending line
      /\ level_step lines recur baseIndent cur o pending line
         = ownLine lines recur cur o pending line
      /\ (returning lines recur cur ->
          exists cur' o' pending',
            level_step lines recur baseIndent cur o pending line
            = Some (Continue cur' o' pending')
            /\ cur < cur' <= length lines
            /\ level_loop lines recur (S turns) baseIndent cur o pending
               = level_loop lines recur turns baseIndent cur' o' pending'
            /\ (length lines - cur <= S turns ->
                exists o'',
                  level_loop lines recur (S turns) baseIndent cur o pending
                  = Some (o'', length lines)))
      /\ forall o' cur',
          level_loop lines recur (S turns) baseIndent cur o pending = Some (o', cur') ->
          length lines <= cur')
  /\ (forall text, exists o',
        parseLevel (Js.splitLines text) (S (length (Js.splitLines text))) 0 0
        = Some (o', length (Js.splitLines text))).
Proof.
  intros Hline Hcontent Hdeep. pose proof Hcontent as [Hnb Hnc].
  split; [|split].
  - intros Hnz.
    assert (level_step lines recur baseIndent cur o pending line = Some Break) as Hstep.
    { unfold level_step. pose proof (searchNonSpace_content line Hnb) as Hge.
      rewrite bool_decide_eq_false_2, Hnc by done.
      rewrite (bool_decide_eq_false_2 (Js.searchNonSpace line = (-1)%Z)) by lia.
      rewrite (bool_decide_eq_false_2 (Js.searchNonSpace line < baseIndent)%Z) by lia.
      rewrite (bool_decide_eq_true_2 (Js.searchNonSpace line > baseIndent)%Z) by done.
      by rewrite (bool_decide_eq_false_2 (baseIndent = 0%Z)) by done. }
    split; [done|]. cbn [level_loop]. by rewrite Hline, Hstep.
  - intros ->.
    assert (level_step lines recur 0 cur o pending line
            = ownLine lines recur cur o pending line) as Hown.
    { apply level_step_own; [done|]. right. split; [done|lia]. }
    split; [apply level_step_root|]. split; [|split; [done|split]].
    + rewrite Hown. symmetry. apply level_step_own; [done|by left].
    + intros Hrec. pose proof (lookup_lt_Some _ _ _ Hline) as Hcur.
      destruct (level_step_returns lines recur 0 cur o pending line Hcur Hrec)
        as [Hbreak|(cur' & o' & pending' & Hstep & Hc')].
      { by apply level_step_root in Hbreak. }
      exists cur', o', pending'. split; [done|]. split; [done|].
      split; [cbn [level_loop]; by rewrite Hline, Hstep|].
      intros Hturns.
      destruct (level_loop_returns lines recur (S turns) 0 cur o pending)
        as (o'' & c'' & Hloop & Hc''); [done|lia|done|].
      exists o''. rewrite Hloop. do 2 f_equal.
      apply level_loop_root in Hloop. lia.
    + intros o' cur'. apply level_loop_root.
  - apply parseLevel_root.
Qed.

Lemma parseLevel_deeper_indent_witness :
  let lines := ["a:"; "  b: 1"; "      c: 2"] in
  let line := "      c: 2" in
  (level_step lines (parseLevel lines 4) 2 2 [] [] line = Some Break
   /\ level_loop lines (parseLevel lines 4) 1 2 2 [] [] = Some ([], 2))
  /\ (level_step lines (parseLevel lines 4) 0 2 [] [] line <> Some Break
      /\ level_step lines (parseLevel lines 4) 0 2 [] [] line
         = Some (Continue 3 [("c", Node (Str "2") [])] [])
      /\ level_loop lines (parseLevel lines 4) 1 0 2 [] []
         = Some ([("c", Node (Str "2") [])], 3)
      /\ forall o' cur',
          level_loop lines (parseLevel lines 4) 1 0 2 [] [] = Some (o', cur') ->
          length lines <= cur').
Proof.
  intros lines line. split.
  - apply (parseLevel_deeper_indent lines (parseLevel lines 4) 2 2 [] [] line 0);
      [done|by vm_compute|by vm_compute|done].
  - destruct (parseLevel_deeper_indent lines (parseLevel lines 4) 0 2 [] [] line 0)
      as (_ & Hroot & _); [done|by vm_compute|by vm_compute|].
    destruct (Hroot eq_refl) as (Hnb & _ & Hown & _ & Hend).
    split; [done|]. split; [by rewrite Hown|]. split; [by vm_compute|done].
Defined.

(** C10.  [parse] returns for every text.  A turn of the loop of
    [parseLevel] that does not leave the loop moves the cursor forward,
    given that the recursive call never moves it back, which no
    [parseLevel] does; the body calls [parseLevel] only after a key line
    whose next line is not blank and indented deeper; and a level entered
    at a line that is not blank, with that line's indentation, returns
    with the cursor behind that line. *)
Theorem parse_terminates :
  (forall text, exists o, parse text = Some o)
  /\ (forall lines recur baseIndent cur o pending line cur' o' pending',
        forward recur ->
        level_step lines recur baseIndent cur o pending line
        = Some (Continue cur' o' pending') ->
        cur < cur')
  /\ (forall lines recur recur' baseIndent cur o pending line,
        (forall b c, callSite lines cur line b c -> recur b c = recur' b c) ->
        level_step lines recur baseIndent cur o pending line
        = level_step lines recur' baseIndent cur o pending line)
  /\ (forall lines depth cur line o' cur',
        lines !! cur = Some line -> Js.trim line <> "" ->
        parseLevel lines depth (Js.searchNonSpace line) cur = Some (o', cur') ->
        cur < cur')
  /\ (forall lines depth, forward (parseLevel lines depth)).
Proof.
  split; [|split; [|split; [|split]]]; [..|apply parseLevel_forward].
  - intros text. unfold parse. destruct (parseLevel_root text) as [o ->]. by exists o.
  - intros lines recur baseIndent cur o pending line cur' o' pending' Hrec.
    apply level_step_advances. intros ? ? ? ? _. apply Hrec.
  - intros lines recur recur' baseIndent cur o pending line.
    apply level_step_callSite.
  - intros lines [|depth] cur line o' cur' Hline Hnb; [done|]. cbn [parseLevel].
    apply (level_loop_consumes lines _ _ cur [] [] line); [done|done|].
    apply parseLevel_forward.
Qed.

Lemma parse_terminates_witness :
  let lines := ["server:"; "  port: 8080"; "  # note"; "name: x"] in
  (exists o, parse ("server:" +:+ Js.LF +:+ "  port: 8080") = Some o)
  /\ 0 < 3
  /\ 1 < 3.
Proof.
  intros lines.
  destruct parse_terminates as (Htotal & Hturn & _ & Hnested & _).
  split; [apply Htotal|]. split.
  - apply (Hturn lines (parseLevel lines 4) 0%Z 0 [] [] "server:" 3
             [("server", Node (Obj [("port", Node (Str "8080") [])]) [])] []).
    + apply parseLevel_forward.
    + by vm_compute.
  - apply (Hnested lines 4 1 "  port: 8080" [("port", Node (Str "8080") [])] 3);
      by vm_compute.
Defined.
End ParseLevelClaims.

(** ** Worked examples *)

Section Examples.
Import DiffEngine.

(** A continuation line is joined on after the backslash is dropped; a
    line that matches neither pattern becomes a comment. *)
Example parse_continuation :
  PropertyParser.parse ("a = b \" +:+ Js.LF +:+ "  c" +:+ Js.LF +:+ "  x=1"
                        +:+ Js.LF +:+ "key  " +:+ Js.LF +:+ "key")
  = Some [Entry.property "a" "b   c" "a = b   c";
          Entry.comment "  x=1";
          Entry.property "key" "" "key  ";
          Entry.comment "key"].
Proof. by vm_compute. Qed.

(** Nested levels, a comment in front of a key, a comment the nested
    level reads and leaves behind, an array item, and array index keys,
    which an object lists first. *)
Example parse_yaml :
  YAMLParser.parse ("# top" +:+ Js.LF +:+ "server:" +:+ Js.LF +:+ "  port: 8080" +:+ Js.LF
                    +:+ "# names" +:+ Js.LF +:+ "name: x" +:+ Js.LF
                    +:+ "- item" +:+ Js.LF +:+ "10: a" +:+ Js.LF +:+ "9: b")
  = Some [("9", YAMLParser.Node (YAMLParser.Str "b") []);
          ("10", YAMLParser.Node (YAMLParser.Str "a") []);
          ("server", YAMLParser.Node
                       (YAMLParser.Obj [("port", YAMLParser.Node (YAMLParser.Str "8080") [])])
                       ["# top"]);
          ("name", YAMLParser.Node (YAMLParser.Str "x") []);
          ("_array_5", YAMLParser.Node (YAMLParser.Str "item") [])].
Proof. by vm_compute. Qed.

(** At the root a deeper line is parsed as a root key. *)
Example parse_yaml_root_deeper :
  YAMLParser.parse ("a: 1" +:+ Js.LF +:+ "    b: 2")
  = Some [("a", YAMLParser.Node
                  (YAMLParser.Obj [("b", YAMLParser.Node (YAMLParser.Str "2") [])]) [])]
  /\ YAMLParser.parse ("- x" +:+ Js.LF +:+ "    b: 2")
     = Some [("_array_0", YAMLParser.Node (YAMLParser.Str "x") []);
             ("b", YAMLParser.Node (YAMLParser.Str "2") [])].
Proof. by vm_compute. Qed.

(** The statuses of the properties scenario: two modified rows and an
    added one. *)
Example compare_properties_scenario :
  let canonical text :=
    PropertyParser.sort Js.codeUnitCompare <$> PropertyParser.parse text in
  status <$> compare properties
    (canonical ("server.port=8080" +:+ Js.LF
                +:+ "spring.datasource.url=jdbc:mysql://localhost:3306/db"))
    (canonical ("server.port=9090" +:+ Js.LF
                +:+ "spring.datasource.url=jdbc:postgresql://localhost:5432/db"
                +:+ Js.LF +:+ "spring.datasource.username=admin"))
  = [Status.modified; Status.modified; Status.added].
Proof. by vm_compute. Qed.

(** The YAML scenario, rows in key order. *)
Example compare_yaml_scenario :
  let canonical text := YAMLParser.sortRecursively <$> YAMLParser.parse text in
  compare yaml
    (canonical ("server:" +:+ Js.LF +:+ "  port: 8080"))
    (canonical ("server:" +:+ Js.LF +:+ "  port: 8080" +:+ Js.LF
                +:+ "  context-path: /api"))
  = [Row Status.added "" "server.context-path: /api" None None None None;
     Row Status.unchanged "server.port: 8080" "server.port: 8080" None None None None].
Proof. by vm_compute. Qed.

(** Two empty texts give no rows. *)
Example compare_empty :
  let canonical text :=
    PropertyParser.sort Js.codeUnitCompare <$> PropertyParser.parse text in
  canonical "" = Some [Entry.blank]
  /\ compare properties (canonical "") (canonical "") = [].
Proof. by vm_compute. Qed.
End Examples.

(** ** More on the diff engine *)

Section DiffEngineMore.
Import DiffEngine.

Implicit Types L R : gmap string string.

(** The loops of [propertiesToMap] and [yamlToMap], from any map. *)
Lemma propertiesToMap_fold (entries : list Entry.t) (m : gmap string string) k :
  fold_left
    (fun map e =>
       if bool_decide (Entry.type e = "property")
       then <[Entry.key e := Entry.value e]> map else map)
    entries m !! k
  = match last (Entry.value
                  <$> filter (fun e => Entry.type e = "property" /\ Entry.key e = k)
                        entries) with
    | Some v => Some v
    | None => m !! k
    end.
Proof.
  induction entries as [|e entries IH] using rev_ind; [done|].
  rewrite fold_left_app, filter_app, fmap_app. cbn [fold_left].
  case_bool_decide as Hp.
  - destruct (decide (Entry.key e = k)) as [<-|Hne].
    + rewrite lookup_insert_eq. rewrite filter_cons_True by done.
      rewrite filter_nil. cbn [fmap list_fmap]. by rewrite last_snoc.
    + rewrite lookup_insert_ne by done. rewrite filter_cons_False by tauto.
      rewrite filter_nil. cbn [fmap list_fmap]. by rewrite app_nil_r.
  - rewrite filter_cons_False by tauto.
    rewrite filter_nil. cbn [fmap list_fmap]. by rewrite app_nil_r.
Qed.

Lemma yamlToMap_fold (entries : list YAMLParser.flat) (m : gmap string string) k :
  fold_left
    (fun map e => <[YAMLParser.Flat.key e := YAMLParser.Flat.value e]> map)
    entries m !! k
  = match last (YAMLParser.Flat.value
                  <$> filter (fun e => YAMLParser.Flat.key e = k) entries) with
    | Some v => Some v
    | None => m !! k
    end.
Proof.
  induction entries as [|e entries IH] using rev_ind; [done|].
  rewrite fold_left_app, filter_app, fmap_app. cbn [fold_left].
  destruct (decide (YAMLParser.Flat.key e = k)) as [<-|Hne].
  - rewrite lookup_insert_eq. rewrite filter_cons_True by done.
    rewrite filter_nil. cbn [fmap list_fmap]. by rewrite last_snoc.
  - rewrite lookup_insert_ne by done. rewrite filter_cons_False by tauto.
    rewrite filter_nil. cbn [fmap list_fmap]. by rewrite app_nil_r.
Qed.

(** X2.  [propertiesToMap] keeps, for every key, the value of the last
    property entry with that key; comment and blank entries, and entries
    of any other type, leave no trace. *)
Theorem propertiesToMap_last_wins (entries : list Entry.t) (k : string) :
  propertiesToMap (Some entries) !! k
  = last (Entry.value
            <$> filter (fun e => Entry.type e = "property" /\ Entry.key e = k) entries).
Proof.
  unfold propertiesToMap. rewrite propertiesToMap_fold, lookup_empty.
  by destruct (last _).
Qed.

(** X3.  [yamlToMap] keeps the value of the last flat entry of every key. *)
Theorem yamlToMap_last_wins (entries : list YAMLParser.flat) (k : string) :
  yamlToMap entries !! k
  = last (YAMLParser.Flat.value
            <$> filter (fun e => YAMLParser.Flat.key e = k) entries).
Proof.
  unfold yamlToMap. rewrite yamlToMap_fold, lookup_empty.
  by destruct (last _).
Qed.

(** X4.  Comparing a document with itself gives unchanged rows only, each
    with the same line on both sides and no highlights. *)
Theorem compare_self ft (d : option (data ft)) :
  Forall (fun row => status row = Status.unchanged
                     /\ leftLine row = rightLine row
                     /\ leftHighlight row = None /\ rightHighlight row = None)
    (compare ft d d).
Proof.
  destruct d as [d|]; [|constructor].
  rewrite compare_unfold by (left; by eexists).
  apply Forall_fmap, Forall_forall. intros k Hk.
  apply elem_of_sortedKeys in Hk.
  assert (is_Some (toMap ft (Some d) !! k)) as [v Hv] by tauto.
  unfold compose. by rewrite (diffRow_unchanged _ _ _ _ _ Hv Hv).
Qed.

(** The number of rows is the number of keys either side holds. *)
Lemma compare_length ft (l r : option (data ft)) :
  is_Some l \/ is_Some r ->
  length (compare ft l r) = size (dom (toMap ft l) ∪ dom (toMap ft r)).
Proof.
  intros Hlr. rewrite compare_unfold by done. rewrite length_fmap.
  unfold sortedKeys. by rewrite (Permutation_length (sort_Permutation _)).
Qed.
End DiffEngineMore.

(** ** The loop of [compare] in [app.js] *)

Section LegacyFacts.
Import DiffEngine.

Implicit Types L R : gmap string string.

Lemma legacy_formatLine k v ft : Legacy.formatLine k (Some v) ft = formatLine k (Some v) ft.
Proof. by destruct ft. Qed.

(** Where neither map holds an empty value under the key, the loop body
    pushes the row the other copy pushes. *)
Lemma legacy_diffRow_agrees ft L R k :
  is_Some (L !! k) \/ is_Some (R !! k) ->
  L !! k <> Some "" -> R !! k <> Some "" ->
  Legacy.diffRow ft L R k = Some (diffRow ft L R k).
Proof.
  intros Hk HL HR. unfold Legacy.diffRow.
  destruct (L !! k) as [lv|] eqn:El, (R !! k) as [rv|] eqn:Er.
  - assert (lv <> "") by congruence. assert (rv <> "") by congruence.
    cbn [Legacy.truthy]. rewrite !bool_decide_eq_false_2 by done. cbn [negb andb].
    destruct (decide (lv = rv)) as [->|Hne].
    + rewrite (bool_decide_eq_false_2 (Some rv <> Some rv)) by (by intros []).
      by rewrite (diffRow_unchanged _ _ _ _ _ El Er), !legacy_formatLine.
    + rewrite (bool_decide_eq_true_2 (Some lv <> Some rv)) by congruence.
      by rewrite (diffRow_modified _ _ _ _ _ _ El Er Hne), !legacy_formatLine.
  - assert (lv <> "") by congruence.
    cbn [Legacy.truthy]. rewrite !bool_decide_eq_false_2 by done. cbn [negb andb].
    by rewrite (diffRow_removed _ _ _ _ _ El Er), !legacy_formatLine.
  - assert (rv <> "") by congruence.
    cbn [Legacy.truthy]. rewrite !bool_decide_eq_false_2 by done. cbn [negb andb].
    by rewrite (diffRow_added _ _ _ _ _ El Er), !legacy_formatLine.
  - by destruct Hk as [[? ?]|[? ?]].
Qed.

(** The loop body throws exactly at a key one map holds with the empty
    string while the other map does not hold it. *)
Lemma legacy_diffRow_throws ft L R k :
  Legacy.diffRow ft L R k = None
  <-> (L !! k = None /\ R !! k = Some "") \/ (L !! k = Some "" /\ R !! k = None).
Proof.
  unfold Legacy.diffRow.
  destruct (L !! k) as [lv|], (R !! k) as [rv|]; cbn [Legacy.truthy].
  - split; [|by intros [[? ?]|[? ?]]].
    repeat (case_bool_decide; cbn [negb andb]); done.
  - destruct (decide (lv = "")) as [->|Hne].
    + rewrite bool_decide_eq_true_2 by done. cbn [negb andb].
      rewrite bool_decide_eq_true_2 by done. split; [by right|done].
    + rewrite bool_decide_eq_false_2 by done. cbn [negb andb].
      split; [done|]. intros [[? ?]|[[= ?] _]]; done.
  - destruct (decide (rv = "")) as [->|Hne].
    + rewrite bool_decide_eq_true_2 by done. cbn [negb andb].
      rewrite bool_decide_eq_true_2 by done. split; [by left|done].
    + rewrite bool_decide_eq_false_2 by done. cbn [negb andb].
      split; [done|]. intros [[_ [= ?]]|[? ?]]; done.
  - cbn [negb andb]. rewrite bool_decide_eq_false_2 by (by intros []).
    split; [done|]. by intros [[? ?]|[? ?]].
Qed.

(** X5.  On documents whose values are all non-empty the loop of
    [app.js] returns the rows of the other copy. *)
Theorem legacy_compare_agrees ft (l r : data ft) :
  (forall k, toMap ft (Some l) !! k <> Some "") ->
  (forall k, toMap ft (Some r) !! k <> Some "") ->
  Legacy.compare ft l r = Some (compare ft (Some l) (Some r)).
Proof.
  intros Hl Hr. unfold Legacy.compare.
  rewrite compare_unfold by (left; by eexists).
  apply mapM_Some, Forall2_fmap_r, Forall_Forall2_diag, Forall_forall.
  intros k Hk. apply legacy_diffRow_agrees; [by apply elem_of_sortedKeys|done..].
Qed.

Lemma propertiesToMap_nonempty (entries : list Entry.t) k :
  Forall (fun e => Entry.type e = "property" -> Entry.value e <> "") entries ->
  propertiesToMap (Some entries) !! k <> Some "".
Proof.
  intros Hall Hk. unfold propertiesToMap in Hk.
  rewrite propertiesToMap_fold, lookup_empty in Hk.
  destruct (last _) as [v|] eqn:Hl; [|done]. injection Hk as ->.
  apply last_Some_elem_of, list_elem_of_fmap in Hl as (e & He & Hin).
  apply list_elem_of_filter in Hin as [[Hp _] Hin].
  rewrite Forall_forall in Hall. by apply (Hall e Hin).
Qed.

Lemma legacy_compare_agrees_witness :
  let l := [Entry.property "a" "1" "a=1"; Entry.comment "# c";
            Entry.property "b" "2" "b=2"] in
  let r := [Entry.property "b" "3" "b=3"; Entry.property "c" "4" "c=4"] in
  Legacy.compare properties l r = Some (compare properties (Some l) (Some r)).
Proof.
  intros l r. apply (legacy_compare_agrees properties l r); intros k;
    apply propertiesToMap_nonempty; repeat constructor; done.
Defined.

(** X6.  [compare] of [app.js] throws exactly when some key is held by one
    map only, with the empty string as its value. *)
Theorem legacy_compare_throws ft (l r : data ft) :
  Legacy.compare ft l r = None
  <-> exists k,
      (toMap ft (Some l) !! k = None /\ toMap ft (Some r) !! k = Some "")
      \/ (toMap ft (Some l) !! k = Some "" /\ toMap ft (Some r) !! k = None).
Proof.
  unfold Legacy.compare. rewrite mapM_None, Exists_exists. split.
  - intros (k & _ & Hk). exists k. by apply legacy_diffRow_throws in Hk.
  - intros (k & Hk). exists k. split; [|by apply legacy_diffRow_throws].
    apply elem_of_sortedKeys. destruct Hk as [[_ ->]|[-> _]]; [right|left]; by eexists.
Qed.
End LegacyFacts.

(** ** Sorting and the diff *)

Section Stable.
Context {A : Type} (cmp : A -> A -> Z) (P : A -> Prop) `{!forall x, Decision (P x)}.

(** The sort is stable: elements the comparator holds equal keep their
    order. *)
Hypothesis P_tied : forall x y, P x -> P y -> Js.precedes cmp x y.

Lemma sortInsert_filter x l :
  filter P (Js.sortInsert cmp x l) = filter P (x :: l).
Proof.
  induction l as [|y l IH]; [done|]. cbn [Js.sortInsert].
  destruct (Z.leb_spec (cmp x y) 0) as [Hle|Hgt]; [done|].
  rewrite (filter_cons P y), IH, !(filter_cons P x), (filter_cons P y).
  destruct (decide (P x)) as [Hx|Hx], (decide (P y)) as [Hy|Hy]; try done.
  specialize (P_tied x y Hx Hy). unfold Js.precedes in P_tied. lia.
Qed.

Lemma sortBy_filter l : filter P (Js.sortBy cmp l) = filter P l.
Proof.
  induction l as [|x l IH]; [done|].
  unfold Js.sortBy in *. cbn [foldr]. rewrite sortInsert_filter.
  by rewrite !(filter_cons P x), IH.
Qed.
End Stable.

Section SortAndDiff.
Import PropertyParser DiffEngine.

(** The property entries of a key, in the order of the entries, are the
    entries of the groups of that key. *)
Lemma group_fold_filter k es ps pend :
  entry <$> filter (fun p => pkey p = k) (fold_left group_step es (ps, pend)).1
  = (entry <$> filter (fun p => pkey p = k) ps)
      ++ filter (fun e => Entry.type e = "property" /\ Entry.key e = k) es.
Proof.
  revert ps pend. induction es as [|e es IH]; intros ps pend; cbn [fold_left].
  - by rewrite app_nil_r.
  - destruct (known_cases e) as [[Hb|[Hc|Hp]]|Hu].
    + rewrite group_step_comment by (by right). rewrite IH.
      rewrite filter_cons_False; [done|]. rewrite Hb. by intros [? _].
    + rewrite group_step_comment by (by left). rewrite IH.
      rewrite filter_cons_False; [done|]. rewrite Hc. by intros [? _].
    + rewrite group_step_property by done. rewrite IH.
      rewrite filter_app, fmap_app, <- app_assoc. f_equal.
      destruct (decide (Entry.key e = k)) as [Hk|Hk].
      * rewrite !filter_cons_True by done. by rewrite filter_nil.
      * rewrite !filter_cons_False by tauto. by rewrite filter_nil.
    + rewrite group_step_unknown by done. rewrite IH.
      rewrite filter_cons_False; [done|]. intros [Hp _]. apply Hu. by right; right.
Qed.

Lemma emit_filter k qs pend :
  Forall grouped qs -> Forall commentLike pend ->
  filter (fun e => Entry.type e = "property" /\ Entry.key e = k)
    (concat (emit <$> qs) ++ pend)
  = entry <$> filter (fun p => pkey p = k) qs.
Proof.
  intros Hqs Hpend.
  assert (forall cs, Forall commentLike cs ->
            filter (fun e => Entry.type e = "property" /\ Entry.key e = k) cs = [])
    as Hnone.
  { induction 1 as [|c cs [Hc|Hc] _ IHc]; [done|..];
      (rewrite filter_cons_False; [done|]); rewrite Hc; by intros [? _]. }
  rewrite filter_app, (Hnone pend Hpend), app_nil_r.
  induction Hqs as [|q qs (Hc & Ht & Hk & Hv) _ IH]; [done|].
  cbn [fmap list_fmap concat]. unfold emit at 1.
  rewrite !filter_app, IH, (Hnone _ Hc). cbn [app].
  destruct (decide (pkey q = k)) as [Hq|Hq].
  - rewrite !filter_cons_True by (done || (split; congruence)).
    by rewrite filter_nil.
  - rewrite !filter_cons_False by (done || (intros [_ ?]; congruence)).
    by rewrite filter_nil.
Qed.

Section Locale.
Variable localeCompare : string -> string -> Z.
Hypothesis consistent_localeCompare : Js.consistent localeCompare.

(** Sorting does not change what [propertiesToMap] reads off the
    entries. *)
Lemma propertiesToMap_sort es :
  propertiesToMap (Some (sort localeCompare es)) = propertiesToMap (Some es).
Proof.
  apply map_eq. intros k. unfold propertiesToMap. rewrite !propertiesToMap_fold.
  enough (filter (fun e => Entry.type e = "property" /\ Entry.key e = k)
            (sort localeCompare es)
          = filter (fun e => Entry.type e = "property" /\ Entry.key e = k) es)
    as -> by done.
  rewrite sort_unfold. destruct (group_shape es) as [Hps Hpend].
  rewrite emit_filter; [|by rewrite sortBy_Permutation|done].
  rewrite (sortBy_filter (byKey localeCompare) (fun p => pkey p = k)).
  - unfold group. by rewrite group_fold_filter.
  - intros x y Hx Hy. unfold Js.precedes, byKey. rewrite Hx, Hy.
    by rewrite (Js.cmp_refl _ consistent_localeCompare).
Qed.

(** X7.  The rows of two properties documents are the rows of the sorted
    documents: the sort the controller runs before [compare] changes
    nothing in the diff. *)
Theorem compare_sort_invariant (l r : list Entry.t) :
  compare properties (Some (sort localeCompare l)) (Some (sort localeCompare r))
  = compare properties (Some l) (Some r).
Proof.
  rewrite !compare_unfold by (left; by eexists).
  cbn [toMap]. by rewrite !propertiesToMap_sort.
Qed.
End Locale.

Lemma compare_sort_invariant_witness :
  let l := [Entry.comment "# c"; Entry.property "b" "1" "b=1";
            Entry.property "a" "2" "a=2"; Entry.property "b" "3" "b=3"] in
  let r := [Entry.property "c" "" "c="; Entry.blank; Entry.property "a" "2" "a=2"] in
  compare properties (Some (sort Js.codeUnitCompare l)) (Some (sort Js.codeUnitCompare r))
  = compare properties (Some l) (Some r).
Proof.
  intros l r.
  apply (compare_sort_invariant Js.codeUnitCompare codeUnitCompare_consistent).
Defined.
End SortAndDiff.

(** ** The unchanged segments are a longest common subsequence *)

Section BacktrackInv.
Variables str1 str2 : string.
Local Abbreviation m := (String.length str1).
Local Abbreviation n := (String.length str2).
Local Abbreviation dp := (computeLCS str1 str2).

(** A property of the result of the loop, read off the three kinds of
    turn. *)
Variable Q : list segment * list segment -> nat -> nat ->
             list segment -> list segment -> Prop.
Hypothesis Q_done : forall left right, Q (left, right) 0 0 left right.
Hypothesis Q_unchanged : forall res i j c left right,
  Js.charAt str1 i = Some c -> Js.charAt str2 j = Some c ->
  Q res i j (Segment c unchanged :: left) (Segment c unchanged :: right) ->
  Q res (S i) (S j) left right.
Hypothesis Q_added : forall res i j c left right,
  Js.charAt str2 j = Some c ->
  lcs str1 str2 i (S j) = lcs str1 str2 i j ->
  Q res i j left (Segment c added :: right) ->
  Q res i (S j) left right.
Hypothesis Q_removed : forall res i j c left right,
  Js.charAt str1 i = Some c ->
  lcs str1 str2 (S i) j = lcs str1 str2 i j ->
  Q res i j (Segment c removed :: left) right ->
  Q res (S i) j left right.

Lemma highlight_loop_inv turns i j left right :
  i <= m -> j <= n -> i + j <= turns ->
  Q (highlight_loop turns dp str1 str2 i j left right) i j left right.
Proof.
  revert i j left right.
  induction turns as [|turns IH]; intros i j left right Hi Hj Ht.
  { assert (i = 0) as -> by lia. assert (j = 0) as -> by lia. apply Q_done. }
  cbn [highlight_loop]. destruct i as [|i], j as [|j].
  - apply Q_done.
  - replace (S j - 1) with j by lia.
    destruct (charAt_is_Some str2 j) as [c2 Hc2]; [lia|].
    rewrite Hc2. simpl. apply (Q_added _ _ _ c2); [done|done|].
    apply IH; lia.
  - replace (S i - 1) with i by lia.
    destruct (charAt_is_Some str1 i) as [c1 Hc1]; [lia|].
    rewrite Hc1. simpl. apply (Q_removed _ _ _ c1); [done|by rewrite !lcs_0_r|].
    apply IH; lia.
  - replace (S i - 1) with i by lia. replace (S j - 1) with j by lia.
    destruct (charAt_is_Some str1 i) as [c1 Hc1]; [lia|].
    destruct (charAt_is_Some str2 j) as [c2 Hc2]; [lia|].
    rewrite !computeLCS_lcs by lia.
    rewrite Hc1, Hc2. simpl.
    pose proof (lcs_S_S str1 str2 i j) as HSS. rewrite Hc1, Hc2 in HSS.
    destruct (decide (Some c1 = Some c2)) as [Heq|Hne]; simpl in HSS.
    + rewrite bool_decide_eq_true_2 by done. injection Heq as ->.
      apply (Q_unchanged _ _ _ c2); [done|done|]. apply IH; lia.
    + rewrite bool_decide_eq_false_2 by done.
      case_bool_decide as Hle; simpl.
      * apply (Q_added _ _ _ c2); [done|lia|]. apply IH; lia.
      * apply (Q_removed _ _ _ c1); [done|lia|]. apply IH; lia.
Qed.
End BacktrackInv.

Lemma unchangedText_cons s l :
  unchangedText (s :: l)
  = match type s with unchanged => text s :: unchangedText l | _ => unchangedText l end.
Proof. by destruct s as [c []]. Qed.

(** Both sequences mark the same characters as unchanged. *)
Lemma highlightDifferences_common str1 str2 :
  unchangedText (highlightDifferences str1 str2).1
  = unchangedText (highlightDifferences str1 str2).2.
Proof.
  unfold highlightDifferences.
  apply (highlight_loop_inv str1 str2
           (fun res _ _ left right =>
              unchangedText left = unchangedText right ->
              unchangedText res.1 = unchangedText res.2)); try done; try lia.
  intros res i j c left right _ _ H Heq. apply H.
  rewrite !unchangedText_cons. simpl. by rewrite Heq.
Qed.

(** No common subsequence of two prefixes is longer than the table says. *)
Lemma lcs_upper str1 str2 i j (w : list ascii) :
  i <= String.length str1 -> j <= String.length str2 ->
  w `sublist_of` take i (Js.chars str1) -> w `sublist_of` take j (Js.chars str2) ->
  length w <= lcs str1 str2 i j.
Proof.
  remember (i + j) as k eqn:Hk. revert i j w Hk.
  induction k as [k IH] using lt_wf_ind. intros [|i] [|j] w Hk Hi Hj H1 H2.
  - apply sublist_nil_r in H1 as ->. simpl. lia.
  - apply sublist_nil_r in H1 as ->. simpl. lia.
  - apply sublist_nil_r in H2 as ->. simpl. lia.
  - destruct (charAt_is_Some str1 i) as [c1 Hc1]; [lia|].
    destruct (charAt_is_Some str2 j) as [c2 Hc2]; [lia|].
    pose proof H1 as H1'. pose proof H2 as H2'.
    rewrite (take_S_charAt _ _ _ Hc1) in H1. rewrite (take_S_charAt _ _ _ Hc2) in H2.
    apply sublist_app_r in H1 as (u1 & v1 & -> & Hu1 & Hv1).
    apply sublist_app_r in H2 as (u2 & v2 & Hw & Hu2 & Hv2).
    rewrite lcs_S_S, Hc1, Hc2.
    assert (forall v (c : ascii), v `sublist_of` [c] -> v = [] \/ v = [c]) as Hone.
    { intros v c Hv. apply sublist_cons_r in Hv as [Hv|(v' & -> & Hv)].
      - apply sublist_nil_r in Hv. by left.
      - apply sublist_nil_r in Hv as ->. by right. }
    destruct (Hone _ _ Hv1) as [->| ->], (Hone _ _ Hv2) as [->| ->];
      rewrite ?app_nil_r in *; subst.
    + (* neither last character is used *)
      assert (length u2 <= lcs str1 str2 i j) by (apply (IH (i + j)); (done || lia)).
      assert (length u2 <= lcs str1 str2 i (S j))
        by (apply (IH (i + S j)); (done || lia)).
      destruct (decide _); lia.
    + (* only the last character of [str2] is used *)
      assert (length (u2 ++ [c2]) <= lcs str1 str2 i (S j))
        by (apply (IH (i + S j)); (done || lia)).
      destruct (decide (Some c1 = Some c2)) as [Heq|Hne]; [|lia].
      assert (u2 `sublist_of` take i (Js.chars str1)).
      { etrans; [|exact Hu1]. by apply sublist_inserts_r. }
      assert (length u2 <= lcs str1 str2 i j) by (apply (IH (i + j)); (done || lia)).
      rewrite length_app. simpl. lia.
    + (* only the last character of [str1] is used *)
      assert (length (u1 ++ [c1]) <= lcs str1 str2 (S i) j)
        by (apply (IH (S i + j)); (done || lia)).
      destruct (decide (Some c1 = Some c2)) as [Heq|Hne]; [|lia].
      assert (u1 `sublist_of` take j (Js.chars str2)).
      { etrans; [|exact Hu2]. by apply sublist_inserts_r. }
      assert (length u1 <= lcs str1 str2 i j) by (apply (IH (i + j)); (done || lia)).
      rewrite length_app. simpl. lia.
    + (* both are used, so they are the same character *)
      apply app_inj_tail in Hw as [-> ->].
      assert (length u2 <= lcs str1 str2 i j) by (apply (IH (i + j)); (done || lia)).
      rewrite decide_True by done. rewrite length_app. simpl. lia.
Qed.

(** X8.  The characters both sequences of [highlightDifferences(a, b)] mark as
    unchanged are the same, they are a common subsequence of [a] and [b],
    and no common subsequence of [a] and [b] is longer: the highlighting
    keeps as much as can be kept. *)
Theorem highlightDifferences_longest_common (a b : string) :
  let w := unchangedText (highlightDifferences a b).1 in
  w = unchangedText (highlightDifferences a b).2
  /\ w `sublist_of` Js.chars a
  /\ w `sublist_of` Js.chars b
  /\ forall w' : list ascii,
       w' `sublist_of` Js.chars a -> w' `sublist_of` Js.chars b ->
       length w' <= length w.
Proof.
  intros w. destruct (highlightDifferences_text a b) as [Ta Tb].
  destruct (highlightDifferences_unchanged a b) as [Ua _].
  split; [apply highlightDifferences_common|]. split; [|split].
  - rewrite <- Ta. unfold w, unchangedText. apply fmap_sublist, sublist_filter.
  - unfold w. rewrite highlightDifferences_common, <- Tb.
    unfold unchangedText. apply fmap_sublist, sublist_filter.
  - intros w' Ha Hb. unfold w, unchangedText. rewrite length_fmap.
    fold (unchangedCount (highlightDifferences a b).1). rewrite Ua.
    apply lcs_upper; [done|done|by rewrite take_chars..].
Qed.

(** ** Edge cases of [highlightDifferences] *)

Lemma lcs_diag str i : i <= String.length str -> lcs str str i i = i.
Proof.
  induction i as [|i IH]; intros Hi; [done|].
  rewrite lcs_S_S, decide_True by done. rewrite IH by lia. lia.
Qed.

Lemma filter_length_all {A} (P : A -> Prop) `{!forall x, Decision (P x)} (l : list A) :
  length (filter P l) = length l -> Forall P l.
Proof.
  induction l as [|x l IH]; [by constructor|].
  rewrite filter_cons. destruct (decide (P x)) as [Hx|Hx]; simpl.
  - intros [= Hlen]. constructor; auto.
  - pose proof (length_filter P l). lia.
Qed.

Lemma filter_length_none {A} (P : A -> Prop) `{!forall x, Decision (P x)} (l : list A) :
  length (filter P l) = 0 -> Forall (fun x => ~ P x) l.
Proof.
  induction l as [|x l IH]; [by constructor|].
  rewrite filter_cons. destruct (decide (P x)) as [Hx|Hx]; simpl; [done|].
  intros Hlen. constructor; auto.
Qed.

(** A sequence whose segments all have the type [t] is its text, tagged. *)
Lemma segments_of_type (t : segType) (l : list segment) :
  Forall (fun s => type s = t) l -> l = (fun c => Segment c t) <$> (text <$> l).
Proof.
  induction 1 as [|[c t'] l Ht _ IH]; [done|]. simpl in Ht. subst t'.
  rewrite !fmap_cons. by f_equal.
Qed.

(** X9.  Two equal strings give unchanged segments only; an empty left string
    gives no left segments and added segments only; an empty right string
    gives removed segments only and no right segments. *)
Theorem highlightDifferences_edges (s : string) :
  highlightDifferences s s
  = ((fun c => Segment c unchanged) <$> Js.chars s,
     (fun c => Segment c unchanged) <$> Js.chars s)
  /\ highlightDifferences "" s = ([], (fun c => Segment c added) <$> Js.chars s)
  /\ highlightDifferences s "" = ((fun c => Segment c removed) <$> Js.chars s, []).
Proof.
  split; [|split].
  - destruct (highlightDifferences_text s s) as [T1 T2].
    destruct (highlightDifferences_unchanged s s) as [U1 U2].
    rewrite lcs_diag in U1, U2 by done.
    destruct (highlightDifferences s s) as [left right]. simpl in *.
    rewrite <- T1 at 1. rewrite <- T2.
    f_equal; apply segments_of_type;
      apply (filter_length_all (fun x => type x = unchanged)).
    + unfold unchangedCount in U1. rewrite U1, <- length_chars, <- T1.
      by rewrite length_fmap.
    + unfold unchangedCount in U2. rewrite U2, <- length_chars, <- T2.
      by rewrite length_fmap.
  - destruct (highlightDifferences_text "" s) as [T1 T2].
    destruct (highlightDifferences_unchanged "" s) as [_ U2].
    destruct (highlightDifferences_backtracked "" s) as (_ & _ & Hnr).
    destruct (highlightDifferences "" s) as [left right]. simpl in *.
    apply fmap_nil_inv in T1 as ->. rewrite <- T2. f_equal.
    apply segments_of_type.
    apply (filter_length_none (fun x => type x = unchanged)) in U2.
    rewrite Forall_forall in *. intros x Hx.
    specialize (U2 x Hx). specialize (Hnr x Hx). by destruct (type x).
  - destruct (highlightDifferences_text s "") as [T1 T2].
    destruct (highlightDifferences_unchanged s "") as [U1 _].
    destruct (highlightDifferences_backtracked s "") as (_ & Hna & _).
    rewrite lcs_0_r in U1.
    destruct (highlightDifferences s "") as [left right]. simpl in *.
    apply fmap_nil_inv in T2 as ->. rewrite <- T1. f_equal.
    apply segments_of_type.
    apply (filter_length_none (fun x => type x = unchanged)) in U1.
    rewrite Forall_forall in *. intros x Hx.
    specialize (U1 x Hx). specialize (Hna x Hx). by destruct (type x).
Qed.

(** ** Strings, trimming and the regular expressions *)

Section StringFacts.

Lemma chars_app a b : Js.chars (a +:+ b) = Js.chars a ++ Js.chars b.
Proof. induction a as [|c a IH]; simpl; [done|]. by rewrite IH. Qed.

Lemma chars_str l : Js.chars (Js.str l) = l.
Proof. apply list_ascii_of_string_of_list_ascii. Qed.

Lemma chars_inj a b : Js.chars a = Js.chars b -> a = b.
Proof. intros H. by rewrite <- (str_chars a), <- (str_chars b), H. Qed.

Lemma chars_nil s : Js.chars s = [] -> s = "".
Proof. by destruct s. Qed.

Lemma consumed_app pre rest : Js.consumed (pre +:+ rest) rest = pre.
Proof.
  unfold Js.consumed. rewrite <- !length_chars, chars_app, length_app.
  replace (length (Js.chars pre) + length (Js.chars rest) - length (Js.chars rest))
    with (length (Js.chars pre)) by lia.
  by rewrite take_app_length, str_chars.
Qed.

(** *** Trimming *)

Lemma trimStart_split s :
  exists ws, Js.chars s = ws ++ Js.chars (Js.trimStart s)
             /\ Forall (fun c => Js.isWhiteSpace c = true) ws.
Proof.
  induction s as [|c s (ws & IH & Hws)]; simpl; [by exists []|].
  destruct (Js.isWhiteSpace c) eqn:Hc.
  - exists (c :: ws). rewrite IH. split; [done|by constructor].
  - by exists [].
Qed.

Lemma trimStart_head s c :
  head (Js.chars (Js.trimStart s)) = Some c -> Js.isWhiteSpace c = false.
Proof.
  induction s as [|c' s IH]; simpl; [done|].
  destruct (Js.isWhiteSpace c') eqn:Hc; [done|]. simpl. by intros [= <-].
Qed.

Lemma trimStart_id s :
  (forall c, head (Js.chars s) = Some c -> Js.isWhiteSpace c = false) ->
  Js.trimStart s = s.
Proof. destruct s as [|c s]; simpl; [done|]. intros H. by rewrite (H c). Qed.

Lemma trimEnd_cons c s :
  Js.trimEnd (String c s)
  = if bool_decide (Js.trimEnd s = "") && Js.isWhiteSpace c then ""
    else String c (Js.trimEnd s).
Proof.
  simpl. destruct (Js.trimEnd s); simpl; [|done]. by destruct (Js.isWhiteSpace c).
Qed.

Lemma trimEnd_split s :
  exists ws, Js.chars s = Js.chars (Js.trimEnd s) ++ ws
             /\ Forall (fun c => Js.isWhiteSpace c = true) ws.
Proof.
  induction s as [|c s (ws & IH & Hws)]; [by exists []|].
  rewrite trimEnd_cons. case_bool_decide as He; simpl.
  - destruct (Js.isWhiteSpace c) eqn:Hc; simpl.
    + exists (c :: ws). split; [|by constructor].
      rewrite IH, He. done.
    + exists ws. by rewrite IH.
  - exists ws. by rewrite IH.
Qed.

Lemma trimEnd_last s c :
  last (Js.chars (Js.trimEnd s)) = Some c -> Js.isWhiteSpace c = false.
Proof.
  induction s as [|c' s IH]; [done|].
  rewrite trimEnd_cons. case_bool_decide as He; simpl.
  - destruct (Js.isWhiteSpace c') eqn:Hc; simpl; [done|].
    rewrite He. simpl. by intros [= <-].
  - destruct (Js.trimEnd s) as [|c2 t]; [done|]. exact IH.
Qed.

Lemma trimEnd_head s :
  Js.trimEnd s <> "" -> head (Js.chars (Js.trimEnd s)) = head (Js.chars s).
Proof.
  destruct s as [|c s]; [done|]. rewrite trimEnd_cons.
  by destruct (bool_decide (Js.trimEnd s = "") && Js.isWhiteSpace c).
Qed.

Lemma trimEnd_id s :
  (forall c, last (Js.chars s) = Some c -> Js.isWhiteSpace c = false) ->
  Js.trimEnd s = s.
Proof.
  induction s as [|c s IH]; [done|]. intros H. rewrite trimEnd_cons.
  destruct s as [|c2 s].
  - simpl. rewrite (H c) by done. done.
  - rewrite IH by (intros c' Hc'; apply H; exact Hc').
    by rewrite bool_decide_eq_false_2.
Qed.

(** [trimEnd] looks at the end only. *)
Lemma trimEnd_app a b :
  Js.trimEnd b <> "" -> Js.trimEnd (a +:+ b) = a +:+ Js.trimEnd b.
Proof.
  intros Hb. induction a as [|c a IH]; [done|].
  change (String c a +:+ b) with (String c (a +:+ b)). rewrite trimEnd_cons, IH.
  rewrite bool_decide_eq_false_2; [done|]. by destruct a.
Qed.

(** What [trim] returns neither starts nor ends with white space. *)
Lemma trim_edges s c :
  head (Js.chars (Js.trim s)) = Some c \/ last (Js.chars (Js.trim s)) = Some c ->
  Js.isWhiteSpace c = false.
Proof.
  unfold Js.trim. intros [H|H]; [|by eapply trimEnd_last].
  destruct (decide (Js.trimEnd (Js.trimStart s) = "")) as [He|He].
  - by rewrite He in H.
  - rewrite trimEnd_head in H by done. by eapply trimStart_head.
Qed.

(** [trim] keeps a contiguous part of the string. *)
Lemma trim_split s :
  exists ws1 ws2,
    Js.chars s = ws1 ++ Js.chars (Js.trim s) ++ ws2
    /\ Forall (fun c => Js.isWhiteSpace c = true) ws1
    /\ Forall (fun c => Js.isWhiteSpace c = true) ws2.
Proof.
  destruct (trimStart_split s) as (ws1 & H1 & Hws1).
  destruct (trimEnd_split (Js.trimStart s)) as (ws2 & H2 & Hws2).
  exists ws1, ws2. by rewrite H1, H2.
Qed.

Lemma trim_id s :
  Forall (fun c => Js.isWhiteSpace c = false) (Js.chars s) -> Js.trim s = s.
Proof.
  intros H. rewrite Forall_forall in H. unfold Js.trim.
  rewrite trimStart_id.
  - apply trimEnd_id. intros c Hc. apply H. by apply last_Some_elem_of.
  - intros c Hc. apply H. by apply head_Some_elem_of.
Qed.

(** A string that [trim] leaves alone is left alone by both halves. *)
Lemma trim_fixed s :
  Js.trim s = s -> Js.trimStart s = s /\ Js.trimEnd s = s.
Proof.
  intros H.
  assert (Js.trimStart s = s) as Hs.
  { apply trimStart_id. intros c Hc. apply (trim_edges s). left. by rewrite H. }
  split; [done|]. unfold Js.trim in H. by rewrite Hs in H.
Qed.

(** *** Matchers *)

Lemma star_inv {R} cls s (k : string -> option R) r :
  Js.star cls s k = Some r ->
  exists pre rest,
    s = pre +:+ rest /\ Forall (fun c => cls c = true) (Js.chars pre)
    /\ k rest = Some r.
Proof.
  induction s as [|c s IH]; simpl.
  - intros H. by exists "", "".
  - destruct (cls c) eqn:Hc; [|intros H; by exists "", (String c s)].
    destruct (Js.star cls s k) as [r0|] eqn:Hs.
    + intros [= ->]. destruct (IH eq_refl) as (pre & rest & -> & Hpre & Hk).
      exists (String c pre), rest. repeat split; [|done]. by constructor.
    + intros H. by exists "", (String c s).
Qed.

Lemma one_inv {R} cls s (k : string -> option R) r :
  Js.one cls s k = Some r ->
  exists c rest, s = String c rest /\ cls c = true /\ k rest = Some r.
Proof.
  destruct s as [|c s]; simpl; [done|].
  destruct (cls c) eqn:Hc; [|done]. intros H. by exists c, s.
Qed.

Lemma plus_inv {R} cls s (k : string -> option R) r :
  Js.plus cls s k = Some r ->
  exists c pre rest,
    s = String c pre +:+ rest /\ cls c = true
    /\ Forall (fun c => cls c = true) (Js.chars pre) /\ k rest = Some r.
Proof.
  unfold Js.plus. intros (c & s' & -> & Hc & H)%one_inv.
  apply star_inv in H as (pre & rest & -> & Hpre & H). by exists c, pre, rest.
Qed.

(** A greedy repetition takes the whole run when what follows it in the
    pattern accepts the remainder. *)
Lemma star_greedy {R} cls pre rest (k : string -> option R) r :
  Forall (fun c => cls c = true) (Js.chars pre) ->
  (forall c, head (Js.chars rest) = Some c -> cls c = false) ->
  k rest = Some r ->
  Js.star cls (pre +:+ rest) k = Some r.
Proof.
  intros Hpre Hrest Hk. induction pre as [|c pre IH]; simpl.
  - destruct rest as [|c rest]; simpl; [done|]. by rewrite (Hrest c).
  - apply Forall_cons in Hpre as [-> Hpre]. by rewrite IH.
Qed.

End StringFacts.

(** ** The two patterns of [parsePropertyLine] *)

Section PatternFacts.
Import PropertyParser.

Lemma separatorMatch_inv s k v :
  separatorMatch s = Some (k, v) ->
  exists ws1 sep ws2,
    Js.chars s = Js.chars k ++ ws1 ++ [sep] ++ ws2 ++ Js.chars v
    /\ k <> ""
    /\ Forall (fun c => keyChar c = true) (Js.chars k)
    /\ Forall (fun c => Js.isWhiteSpace c = true) ws1
    /\ sepChar sep = true
    /\ Forall (fun c => Js.isWhiteSpace c = true) ws2
    /\ Forall (fun c => Js.dot c = true) (Js.chars v).
Proof.
  unfold separatorMatch. intros H.
  apply plus_inv in H as (c & pre1 & r1 & -> & Hc & Hpre1 & H).
  apply star_inv in H as (ws1 & r2 & -> & Hws1 & H).
  apply one_inv in H as (sep & r3 & -> & Hsep & H).
  apply star_inv in H as (ws2 & r4 & -> & Hws2 & H).
  apply star_inv in H as (v0 & r5 & -> & Hv & H).
  destruct r5; simpl in H; [|done]. rewrite !consumed_app in H.
  injection H as <- <-.
  exists (Js.chars ws1), sep, (Js.chars ws2).
  repeat split; try done; [|by constructor].
  repeat (rewrite ?chars_app; simpl). by rewrite app_nil_r.
Qed.

Lemma spaceMatch_inv s k v :
  spaceMatch s = Some (k, v) ->
  exists ws,
    Js.chars s = Js.chars k ++ ws ++ Js.chars v
    /\ k <> ""
    /\ Forall (fun c => Js.notSpace c = true) (Js.chars k)
    /\ ws <> [] /\ Forall (fun c => Js.isWhiteSpace c = true) ws
    /\ v <> ""
    /\ Forall (fun c => Js.dot c = true) (Js.chars v).
Proof.
  unfold spaceMatch. intros H.
  apply plus_inv in H as (c & pre1 & r1 & -> & Hc & Hpre1 & H).
  apply plus_inv in H as (w & ws & r2 & -> & Hw & Hws & H).
  apply plus_inv in H as (d & v0 & r3 & -> & Hd & Hv & H).
  destruct r3; simpl in H; [|done]. rewrite !consumed_app in H.
  injection H as <- <-.
  exists (w :: Js.chars ws).
  repeat split; try done; try by constructor.
  repeat (rewrite ?chars_app; simpl). by rewrite app_nil_r.
Qed.

Lemma keyChar_notSpace c : keyChar c = true -> Js.isWhiteSpace c = false.
Proof.
  unfold keyChar. rewrite negb_true_iff, !orb_false_iff. by intros [_ ?].
Qed.

Lemma Forall_dot_trim v :
  Forall (fun c => Js.dot c = true) (Js.chars v) ->
  Forall (fun c => Js.dot c = true) (Js.chars (Js.trim v)).
Proof.
  destruct (trim_split v) as (ws1 & ws2 & -> & _ & _).
  rewrite !Forall_app. by intros (_ & ? & _).
Qed.

(** X10.  What [parsePropertyLine] returns: the key is not empty and holds no
    white space; the value neither starts nor ends with white space and
    holds no line terminator; the joined line starts with the key. *)
Theorem parsePropertyLine_shape (line : string) (allLines : list string)
    (startIndex : nat) (r : result) :
  parsePropertyLine line allLines startIndex = Some r ->
  key r <> ""
  /\ Forall (fun c => Js.isWhiteSpace c = false) (Js.chars (key r))
  /\ (forall c, head (Js.chars (value r)) = Some c -> Js.isWhiteSpace c = false)
  /\ (forall c, last (Js.chars (value r)) = Some c -> Js.isWhiteSpace c = false)
  /\ Forall (fun c => Js.isLineTerminator c = false) (Js.chars (value r))
  /\ Js.chars (key r) `prefix_of` Js.chars (fullLine r).
Proof.
  unfold parsePropertyLine.
  destruct (continuation _ _ _ _) as [full idx].
  assert (forall k v,
    k <> "" -> Forall (fun c => Js.isWhiteSpace c = false) (Js.chars k) ->
    Forall (fun c => Js.dot c = true) (Js.chars v) ->
    Js.chars k `prefix_of` Js.chars full ->
    let r := Result (Js.trim k) (Js.trim v) full (idx + 1) in
    key r <> ""
    /\ Forall (fun c => Js.isWhiteSpace c = false) (Js.chars (key r))
    /\ (forall c, head (Js.chars (value r)) = Some c -> Js.isWhiteSpace c = false)
    /\ (forall c, last (Js.chars (value r)) = Some c -> Js.isWhiteSpace c = false)
    /\ Forall (fun c => Js.isLineTerminator c = false) (Js.chars (value r))
    /\ Js.chars (key r) `prefix_of` Js.chars (fullLine r)) as Hshape.
  { intros k v Hk Hks Hv Hpre. simpl. rewrite (trim_id k) by done.
    repeat split; try done.
    - intros c Hc. apply (trim_edges v). by left.
    - intros c Hc. apply (trim_edges v). by right.
    - eapply Forall_impl; [exact (Forall_dot_trim v Hv)|].
      intros c. unfold Js.dot. by rewrite negb_true_iff. }
  destruct (separatorMatch full) as [[k v]|] eqn:Hsep.
  - intros [= <-].
    apply separatorMatch_inv in Hsep
      as (ws1 & sep & ws2 & Hfull & Hk & Hks & _ & _ & _ & Hv).
    apply Hshape; try done.
    + eapply Forall_impl; [exact Hks|]. intros c. apply keyChar_notSpace.
    + rewrite Hfull. by eexists.
  - destruct (spaceMatch full) as [[k v]|] eqn:Hspace; [|done].
    intros [= <-].
    apply spaceMatch_inv in Hspace as (ws & Hfull & Hk & Hks & _ & _ & _ & Hv).
    apply Hshape; try done.
    + eapply Forall_impl; [exact Hks|]. intros c. unfold Js.notSpace.
      by rewrite negb_true_iff.
    + rewrite Hfull. by eexists.
Qed.

End PatternFacts.

Lemma parsePropertyLine_shape_witness :
  let lines := ["a = 1 \"; "  2"; "oops"] in
  let r := PropertyParser.Result "a" "1   2" "a = 1   2" 2 in
  PropertyParser.key r <> ""
  /\ Forall (fun c => Js.isWhiteSpace c = false) (Js.chars (PropertyParser.key r))
  /\ (forall c, head (Js.chars (PropertyParser.value r)) = Some c ->
                Js.isWhiteSpace c = false)
  /\ (forall c, last (Js.chars (PropertyParser.value r)) = Some c ->
                Js.isWhiteSpace c = false)
  /\ Forall (fun c => Js.isLineTerminator c = false) (Js.chars (PropertyParser.value r))
  /\ Js.chars (PropertyParser.key r) `prefix_of` Js.chars (PropertyParser.fullLine r).
Proof.
  intros lines r.
  apply (parsePropertyLine_shape "a = 1 \" lines 0 r). reflexivity.
Defined.

(** ** Lines [PropertyParser.parse] does not read as properties *)

Section NotProperties.
Import PropertyParser.

Lemma headed s c : head (Js.chars s) = Some c -> exists s', s = String c s'.
Proof. destruct s as [|c' s']; simpl; [done|]. intros [= ->]. by eexists. Qed.

(** The continuation loop keeps a leading white space character. *)
Lemma continuation_head turns lines full i c :
  head (Js.chars full) = Some c -> Js.isWhiteSpace c = true ->
  head (Js.chars (continuation turns lines full i).1) = Some c.
Proof.
  revert full i. induction turns as [|turns IH]; intros full i Hhead Hc; simpl; [done|].
  destruct (Js.endsWith (Js.trimEnd full) "\") eqn:He; simpl; [|done].
  case_bool_decide; simpl; [|done]. apply IH; [|done].
  unfold Js.endsWith in He. apply bool_decide_eq_true in He.
  assert (Js.trimEnd full <> "") as Hne by (intros Hn; by rewrite Hn in He).
  pose proof (trimEnd_head full Hne) as Hh. rewrite Hhead in Hh.
  rewrite chars_app. unfold Js.dropLast. rewrite chars_str.
  destruct (Js.chars (Js.trimEnd full)) as [|c1 [|c2 l]]; simplify_eq/=; done.
Qed.

Lemma separatorMatch_space c s :
  Js.isWhiteSpace c = true -> separatorMatch (String c s) = None.
Proof.
  intros Hc. unfold separatorMatch, Js.plus, Js.one, keyChar.
  by rewrite Hc, !orb_true_r.
Qed.

Lemma spaceMatch_space c s :
  Js.isWhiteSpace c = true -> spaceMatch (String c s) = None.
Proof.
  intros Hc. unfold spaceMatch, Js.plus, Js.one, Js.notSpace. by rewrite Hc.
Qed.

(** X11.  A line that starts with a white space character is never read as a
    property: the turn of [parse] that meets it pushes a blank entry when
    the line is white space only and a comment entry with the raw line
    otherwise, and goes on with the next line. *)
Theorem parse_step_indented (lines : list string) (i : nat) (c : ascii)
    (rest : string) :
  Js.isWhiteSpace c = true ->
  parse_step lines i (String c rest)
  = (if bool_decide (Js.trim (String c rest) = "") then Entry.blank
     else Entry.comment (String c rest), i + 1).
Proof.
  intros Hc. unfold parse_step. case_bool_decide; [done|].
  destruct (Js.startsWith _ "#" || Js.startsWith _ "!"); [done|].
  unfold parsePropertyLine.
  pose proof (continuation_head (length lines - i) lines (String c rest) i c
                eq_refl Hc) as Hh.
  destruct (continuation _ _ _ _) as [full idx]. simpl in Hh.
  apply headed in Hh as [full' ->].
  by rewrite separatorMatch_space, spaceMatch_space.
Qed.

Lemma trim_nonempty s c :
  c ∈ Js.chars s -> Js.isWhiteSpace c = false -> Js.trim s <> "".
Proof.
  intros Hin Hc He. destruct (trim_split s) as (ws1 & ws2 & Hs & H1 & H2).
  rewrite He in Hs. rewrite Hs in Hin. simpl in Hin. rewrite elem_of_app in Hin.
  rewrite Forall_forall in H1, H2.
  destruct Hin as [Hin|Hin]; [apply H1 in Hin|apply H2 in Hin]; congruence.
Qed.

(** The carriage return, which [\s] matches and [.] does not. *)
Lemma carriage_return_end (front V B : list ascii) (c : ascii) :
  front ++ V = B ++ [c; "013"%char] ->
  Forall (fun c => Js.dot c = true) V -> V = [].
Proof.
  intros Heq HV. destruct V as [|x V _] using rev_ind; [done|].
  change (B ++ [c; "013"%char]) with (B ++ [c] ++ ["013"%char]) in Heq.
  rewrite !app_assoc in Heq. apply app_inj_tail in Heq as [_ ->].
  rewrite Forall_app, Forall_singleton in HV. destruct HV as [_ HV].
  by vm_compute in HV.
Qed.

(** X12.  A line whose last character is a carriage return, after a character
    that is neither white space, nor a separator, nor a backslash, is not
    read as a property: the turn pushes a comment entry with the raw
    line. *)
Theorem parse_step_carriage_return (lines : list string) (i : nat)
    (body : string) (c : ascii) :
  Js.isWhiteSpace c = false -> sepChar c = false -> c <> "\"%char ->
  let line := body +:+ String c (String "013"%char "") in
  parse_step lines i line = (Entry.comment line, i + 1).
Proof.
  intros Hws Hsep Hbs line.
  assert (Js.chars line = Js.chars body ++ [c; "013"%char]) as Hline.
  { unfold line. by rewrite chars_app. }
  unfold parse_step. rewrite bool_decide_eq_false_2.
  2:{ apply (trim_nonempty line c); [|done]. rewrite Hline.
      set_solver. }
  destruct (Js.startsWith _ "#" || Js.startsWith _ "!"); [done|].
  unfold parsePropertyLine.
  assert (forall turns, continuation turns lines line i = (line, i)) as ->.
  { intros [|turns]; simpl; [done|].
    replace (Js.endsWith (Js.trimEnd line) "\") with false; [done|].
    symmetry. apply bool_decide_eq_false. unfold line.
    rewrite trimEnd_app by (simpl; by rewrite Hws).
    simpl. rewrite Hws. rewrite chars_app. simpl.
    rewrite last_snoc. congruence. }
  destruct (separatorMatch line) as [[k v]|] eqn:Hm.
  { exfalso.
    apply separatorMatch_inv in Hm
      as (ws1 & sep & ws2 & Hfull & _ & _ & _ & Hs & Hws2 & Hv).
    rewrite Hline in Hfull.
    assert (Js.chars v = []) as Hnil.
    { apply (carriage_return_end (Js.chars k ++ ws1 ++ [sep] ++ ws2) _
               (Js.chars body) c); [|done].
      by rewrite Hfull, <- !app_assoc. }
    rewrite Hnil, app_nil_r in Hfull.
    change (Js.chars body ++ [c; "013"%char])
      with (Js.chars body ++ [c] ++ ["013"%char]) in Hfull.
    destruct ws2 as [|x ws2 _] using rev_ind.
    - rewrite app_nil_r, !app_assoc in Hfull.
      apply app_inj_tail in Hfull as [_ Heq]. by subst sep.
    - rewrite !app_assoc in Hfull. apply app_inj_tail in Hfull as [Hfull _].
      apply Forall_app in Hws2 as [Hws2 _].
      destruct ws2 as [|y ws2 _] using rev_ind.
      + rewrite app_nil_r in Hfull. apply app_inj_tail in Hfull as [_ Heq].
        congruence.
      + rewrite !app_assoc in Hfull. apply app_inj_tail in Hfull as [_ Heq].
        rewrite Forall_app, Forall_singleton in Hws2. destruct Hws2 as [_ Hy].
        congruence. }
  destruct (spaceMatch line) as [[k v]|] eqn:Hs; [|done].
  exfalso. apply spaceMatch_inv in Hs as (ws & Hfull & _ & _ & _ & _ & Hne & Hv).
  rewrite Hline in Hfull.
  assert (Js.chars v = []) as Hnil.
  { apply (carriage_return_end (Js.chars k ++ ws) _ (Js.chars body) c); [|done].
    by rewrite Hfull, <- !app_assoc. }
  by apply chars_nil in Hnil.
Qed.

End NotProperties.

Lemma parse_step_indented_witness :
  let lines := ["server.port=80"; "  server.host=x"] in
  PropertyParser.parse_step lines 1 "  server.host=x"
  = (Entry.comment "  server.host=x", 2).
Proof.
  intros lines.
  exact (parse_step_indented lines 1 " " " server.host=x" eq_refl).
Defined.

Lemma parse_step_carriage_return_witness :
  let line := "a=b" +:+ String "013" "" in
  PropertyParser.parse_step [line; "c=d"] 0 line = (Entry.comment line, 1).
Proof.
  intros line.
  apply (parse_step_carriage_return [line; "c=d"] 0 "a=" "b"); done.
Defined.

(** ** [PropertyParser.stringify] and [PropertyParser.parse] *)

Section PrintAndParse.
Import PropertyParser.

Lemma splitLines_single s :
  forallb notLF (Js.chars s) = true -> Js.splitLines s = [s].
Proof.
  induction s as [|c s IH]; simpl; [done|].
  rewrite andb_true_iff. unfold notLF at 1. rewrite negb_true_iff.
  intros [-> Hs]. by rewrite IH.
Qed.

Lemma splitLines_app s t :
  forallb notLF (Js.chars s) = true ->
  Js.splitLines (s +:+ Js.LF +:+ t) = s :: Js.splitLines t.
Proof.
  induction s as [|c s IH]; simpl; [done|].
  rewrite andb_true_iff. unfold notLF at 1. rewrite negb_true_iff.
  intros [-> Hs]. by rewrite IH.
Qed.

(** Joining lines with line feeds and splitting at line feeds gives the
    lines back, but for the empty array, which is joined to the empty
    string and split into one empty line. *)
Lemma splitLines_join ls :
  Forall (fun s => forallb notLF (Js.chars s) = true) ls ->
  Js.splitLines (Js.join Js.LF ls) = match ls with [] => [""] | _ => ls end.
Proof.
  induction 1 as [|x ls Hx Hls IH]; [done|].
  destruct ls as [|y ls]; [by apply splitLines_single|].
  change (Js.join Js.LF (x :: y :: ls))
    with (x +:+ Js.LF +:+ Js.join Js.LF (y :: ls)).
  by rewrite splitLines_app, IH.
Qed.

Lemma star_all {R} cls s (k : string -> option R) r :
  Forall (fun c => cls c = true) (Js.chars s) -> k "" = Some r ->
  Js.star cls s k = Some r.
Proof.
  intros Hs Hk. induction s as [|c s IH]; simpl; [done|].
  apply Forall_cons in Hs as [-> Hs]. by rewrite IH.
Qed.

Lemma star_none {R} cls s (k : string -> option R) :
  (forall c, head (Js.chars s) = Some c -> cls c = false) ->
  Js.star cls s k = k s.
Proof. destruct s as [|c s]; simpl; [done|]. intros H. by rewrite (H c). Qed.

Lemma forallb_Forall {A} (f : A -> bool) (l : list A) :
  forallb f l = true <-> Forall (fun x => f x = true) l.
Proof.
  induction l as [|x l IH]; simpl; [by split; [constructor|]|].
  rewrite andb_true_iff, Forall_cons. by rewrite IH.
Qed.

Lemma startsWith_app k t p :
  k <> "" -> Js.startsWith (k +:+ t) (String p "") = Js.startsWith k (String p "").
Proof.
  destruct k as [|a k]; [done|]. intros _. unfold Js.startsWith. simpl.
  destruct (ascii_dec p a); [|done].
  destruct (k +:+ t); by destruct k.
Qed.

(** The pattern with a separator reads [key=value] back as the key and the
    value. *)
Lemma separatorMatch_printed k v :
  k <> "" -> Forall (fun c => keyChar c = true) (Js.chars k) ->
  Js.trim v = v -> Forall (fun c => Js.dot c = true) (Js.chars v) ->
  separatorMatch (k +:+ "=" +:+ v) = Some (k, v).
Proof.
  intros Hk Hks Hv Hdot. destruct k as [|c k]; [done|].
  apply Forall_cons in Hks as [Hc Hks].
  unfold separatorMatch, Js.plus.
  change (String c k +:+ "=" +:+ v) with (String c (k +:+ "=" +:+ v)).
  cbn [Js.one]. rewrite Hc.
  apply star_greedy; [done|by intros c' [= <-]|].
  rewrite star_none by (by intros c' [= <-]).
  change ("=" +:+ v) with (String "=" v). cbn [Js.one].
  replace (sepChar "=") with true by done.
  rewrite star_none.
  2:{ intros c' Hc'. apply (trim_edges v). left. by rewrite Hv. }
  apply star_all; [done|]. cbn [Js.atEnd].
  change (String c (k +:+ String "=" v)) with (String c k +:+ String "=" v).
  rewrite consumed_app. f_equal. f_equal.
  unfold Js.consumed. rewrite Nat.sub_0_r. by rewrite take_chars, str_chars.
Qed.

Lemma last_printed k v :
  Js.trim v = v ->
  exists c, last (Js.chars (k +:+ "=" +:+ v)) = Some c
            /\ Js.isWhiteSpace c = false
            /\ (Js.endsWith v "\" = false -> c <> "\"%char).
Proof.
  intros Hv. rewrite chars_app.
  destruct (Js.chars v) as [|x l _] eqn:Hl using rev_ind.
  - apply chars_nil in Hl as ->. exists "="%char. simpl.
    by rewrite last_snoc.
  - exists x. change (Js.chars ("=" +:+ v)) with ("="%char :: Js.chars v).
    rewrite Hl, app_comm_cons, app_assoc, last_snoc. split; [done|]. split.
    + apply (trim_edges v). right. by rewrite Hv, Hl, last_snoc.
    + unfold Js.endsWith. rewrite Hl, last_snoc.
      intros He%bool_decide_eq_false. congruence.
Qed.

(** The turn of [parse] that meets the printed line of a printable entry
    pushes the entry back and goes on with the next line, whatever the
    other lines are. *)
Lemma parse_step_printed lines i e :
  printable e = true ->
  parse_step lines i (stringifyEntry e) = (reprinted e, i + 1).
Proof.
  destruct e as [ty k v ln]. unfold printable, reprinted, stringifyEntry.
  cbn [Entry.type Entry.key Entry.value Entry.line].
  destruct (bool_decide (ty = "property")).
  - rewrite !andb_true_iff, !negb_true_iff.
    intros ((((((Hk & Hks) & Hhash) & Hbang) & Hv) & Hdot) & Hbs).
    apply bool_decide_eq_false in Hk. apply bool_decide_eq_true in Hv.
    apply forallb_Forall in Hks, Hdot.
    destruct (last_printed k v Hv) as (cl & Hlast & Hcl & Hnb).
    assert (Js.trim (k +:+ "=" +:+ v) = k +:+ "=" +:+ v) as Htrim.
    { unfold Js.trim. rewrite trimStart_id.
      - apply trimEnd_id. intros c Hc. congruence.
      - destruct k as [|c0 k]; [done|]. intros c [= <-].
        apply Forall_cons in Hks as [Hc0 _]. by apply keyChar_notSpace. }
    unfold parse_step. rewrite Htrim.
    rewrite bool_decide_eq_false_2 by (by destruct k).
    rewrite !startsWith_app by done.
    rewrite Hhash, Hbang. cbn [orb].
    unfold parsePropertyLine.
    assert (forall turns,
      continuation turns lines (k +:+ "=" +:+ v) i = (k +:+ "=" +:+ v, i)) as ->.
    { intros [|turns]; simpl; [done|].
      replace (Js.endsWith (Js.trimEnd (k +:+ "=" +:+ v)) "\") with false; [done|].
      symmetry. apply bool_decide_eq_false.
      unfold Js.trim in Htrim. rewrite trimStart_id in Htrim.
      - rewrite Htrim, Hlast. intros [= ->]. by apply Hnb.
      - destruct k as [|c0 k]; [done|]. intros c [= <-].
        apply Forall_cons in Hks as [Hc0 _]. by apply keyChar_notSpace. }
    rewrite separatorMatch_printed by done. cbn [key value fullLine nextIndex].
    rewrite Hv, trim_id; [done|].
    eapply Forall_impl; [exact Hks|]. intros c. apply keyChar_notSpace.
  - destruct (bool_decide (ty = "comment")); cbn [orb].
    + rewrite !andb_true_iff, negb_true_iff.
      intros ((_ & Hne) & Hstart). unfold parse_step.
      by rewrite Hne, Hstart.
    + destruct (bool_decide (ty = "blank")); [|done].
      rewrite andb_true_iff. intros [_ Hb]. unfold parse_step. by rewrite Hb.
Qed.

Lemma stringifyEntry_notLF e :
  printable e = true -> forallb notLF (Js.chars (stringifyEntry e)) = true.
Proof.
  unfold printable, stringifyEntry.
  destruct (bool_decide (Entry.type e = "property")).
  - rewrite !andb_true_iff.
    intros ((((((_ & Hks) & _) & _) & _) & Hdot) & _).
    apply forallb_Forall in Hks, Hdot. apply forallb_Forall.
    rewrite !chars_app, !Forall_app. repeat split.
    + eapply Forall_impl; [exact Hks|]. intros c Hc%keyChar_notSpace.
      unfold notLF. by destruct (Ascii.eqb_spec c "010"%char) as [->|].
    + by repeat constructor.
    + eapply Forall_impl; [exact Hdot|]. intros c. unfold Js.dot, notLF.
      by destruct (Ascii.eqb_spec c "010"%char) as [->|].
  - destruct (bool_decide (Entry.type e = "comment")); cbn [orb].
    + rewrite !andb_true_iff. by intros ((? & _) & _).
    + destruct (bool_decide (Entry.type e = "blank")); [|done].
      rewrite andb_true_iff. by intros [? _].
Qed.

Lemma parse_loop_printed es turns i acc :
  Forall (fun e => printable e = true) es ->
  length es - i <= turns ->
  parse_loop turns (stringifyEntry <$> es) i acc
  = Some (acc ++ (reprinted <$> drop i es)).
Proof.
  intros Hes. revert i acc.
  induction turns as [|turns IH]; intros i acc Hturns.
  - rewrite drop_ge by lia. simpl.
    rewrite (proj2 (lookup_ge_None _ _)) by (rewrite length_fmap; lia).
    by rewrite app_nil_r.
  - cbn [parse_loop]. rewrite list_lookup_fmap.
    destruct (es !! i) as [e|] eqn:He; simpl.
    + rewrite parse_step_printed
        by (exact (Forall_lookup_1 _ _ _ _ Hes He)).
      rewrite Nat.add_1_r, IH by lia.
      rewrite (drop_S _ _ _ He), fmap_cons. by rewrite <- app_assoc.
    + rewrite drop_ge by (by apply lookup_ge_None). by rewrite app_nil_r.
Qed.

(** X13.  Printing printable entries and parsing the text gives the entries
    back, each property with its printed line; the empty array is printed
    as the empty text, which is parsed as one blank line. *)
Theorem parse_stringify (es : list Entry.t) :
  forallb printable es = true ->
  parse (stringify es)
  = Some (match es with [] => [Entry.blank] | _ => reprinted <$> es end).
Proof.
  intros Hes%forallb_Forall. unfold parse, stringify.
  rewrite splitLines_join.
  2:{ apply Forall_fmap. eapply Forall_impl; [exact Hes|].
      intros e. apply stringifyEntry_notLF. }
  destruct es as [|e es]; [done|].
  change (match stringifyEntry <$> e :: es with [] => [""] | _ => stringifyEntry <$> e :: es end)
    with (stringifyEntry <$> e :: es).
  rewrite length_fmap, parse_loop_printed by (done || lia). by rewrite drop_0.
Qed.

End PrintAndParse.

Lemma parse_stringify_witness :
  let es := [Entry.comment "# db"; Entry.property "url" "jdbc:x" "url : jdbc:x";
             Entry.blank; Entry.property "user" "" "user"] in
  PropertyParser.parse (PropertyParser.stringify es)
  = Some [Entry.comment "# db"; Entry.property "url" "jdbc:x" "url=jdbc:x";
          Entry.blank; Entry.property "user" "" "user="].
Proof.
  intros es. exact (parse_stringify es eq_refl).
Defined.

(** ** Sorting a YAML tree keeps its flat entries *)

Section SortKeepsEntries.
Import YAMLParser.

Lemma wellKeyedNode_Obj o c :
  wellKeyedNode (Node (Obj o) c) = true
  <-> NoDup (Js.keys o) /\ ("__proto__" ∉ Js.keys o)
      /\ Forall (fun p => wellKeyedNode p.2 = true) o.
Proof.
  cbn [wellKeyedNode]. unfold keysOk.
  rewrite !andb_true_iff, !bool_decide_eq_true.
  enough ((fix each (l : tree) : bool :=
             match l with
             | [] => true
             | (_, i) :: l' => wellKeyedNode i && each l'
             end) o = true
          <-> Forall (fun p => wellKeyedNode p.2 = true) o) as ->; [tauto|].
  induction o as [|[k i] o IH]; [by split; [constructor|]|].
  rewrite andb_true_iff, Forall_cons, IH. done.
Qed.

Lemma wellKeyed_spec o :
  wellKeyed o = true
  <-> NoDup (Js.keys o) /\ ("__proto__" ∉ Js.keys o)
      /\ Forall (fun p => wellKeyedNode p.2 = true) o.
Proof. apply wellKeyedNode_Obj. Qed.

Lemma elem_of_get {V} (o : Js.obj V) k v :
  NoDup (Js.keys o) -> (k, v) ∈ o -> Js.get o k = Some v.
Proof.
  unfold Js.keys. induction o as [|[k' v'] o IH]; simpl.
  - intros _ H. by apply not_elem_of_nil in H.
  - intros [Hk Hnd]%NoDup_cons [H|H]%elem_of_cons.
    + simplify_eq. by rewrite bool_decide_eq_true_2.
    + rewrite bool_decide_eq_false_2; [by apply IH|].
      intros ->. apply Hk. apply list_elem_of_fmap. by exists (k, v).
Qed.

(** Objects with the same properties hold the same pairs. *)
Lemma obj_Permutation {V} (a b : Js.obj V) :
  NoDup (Js.keys a) -> NoDup (Js.keys b) ->
  (forall k, Js.get a k = Js.get b k) -> a ≡ₚ b.
Proof.
  intros Ha Hb Hget. apply NoDup_Permutation.
  - by apply (NoDup_fmap_1 fst).
  - by apply (NoDup_fmap_1 fst).
  - intros [k v]. split; intros H.
    + apply get_elem_of. rewrite <- Hget. by apply elem_of_get.
    + apply get_elem_of. rewrite Hget. by apply elem_of_get.
Qed.

(** The loop of [sortRecursively] over distinct keys that all have an
    item stores every one of them. *)
Lemma build_full items ks :
  NoDup ks -> "__proto__" ∉ ks -> (forall k, k ∈ ks -> is_Some (Js.get items k)) ->
  Js.keys (build items ks) ≡ₚ ks
  /\ forall k, k ∈ ks -> Js.get (build items ks) k = Js.get items k.
Proof.
  induction ks as [|k ks IH] using rev_ind; intros Hnd Hproto Hitems.
  { split; [done|]. intros k Hk. by apply not_elem_of_nil in Hk. }
  apply NoDup_app in Hnd as (Hnd & Hk & _).
  rewrite not_elem_of_app in Hproto. destruct Hproto as [Hproto Hkp].
  destruct IH as [Hkeys Hget]; [done|done|intros; apply Hitems; set_solver|].
  rewrite build_snoc. unfold store.
  destruct (Hitems k) as [item Hitem]; [set_solver|]. rewrite Hitem.
  assert (k ∉ Js.keys (build items ks)) as Hin.
  { rewrite Hkeys. intros Hin. apply (Hk k Hin). set_solver. }
  unfold Js.set. rewrite !bool_decide_eq_false_2 by set_solver. split.
  - rewrite keys_create, Hkeys. by rewrite (Permutation_app_comm ks [k]).
  - intros k' [Hk'| ->%list_elem_of_singleton]%elem_of_app.
    + rewrite get_create_ne by (intros ->; apply (Hk k' Hk'); set_solver).
      by apply Hget.
    + by rewrite get_create_eq.
Qed.

Lemma keys_fmap {V W} (f : V -> W) (o : Js.obj V) :
  Js.keys (prod_map id f <$> o) = Js.keys o.
Proof.
  unfold Js.keys. rewrite <- list_fmap_compose. apply list_fmap_ext.
  by intros _ [k v] _.
Qed.

(** For an object, [sortRecursively] rearranges the sorted items. *)
Lemma sortRecursively_Permutation o :
  NoDup (Js.keys o) -> "__proto__" ∉ Js.keys o ->
  sortRecursively o ≡ₚ prod_map id sortItem <$> o.
Proof.
  intros Hnd Hproto. unfold sortRecursively. rewrite arrange_build.
  set (items := prod_map id sortItem <$> o).
  assert (Js.keys items = Js.keys o) as Hitems by apply keys_fmap.
  pose proof (sort_Permutation (Js.keys o)) as Hperm.
  destruct (build_full items (Js.sort (Js.keys o))) as [Hkeys Hget].
  - by rewrite Hperm.
  - by rewrite Hperm.
  - intros k Hk. rewrite Hperm, <- Hitems in Hk. by apply get_is_Some.
  - apply obj_Permutation.
    + by rewrite Hkeys, Hperm.
    + by rewrite Hitems.
    + intros k. destruct (decide (k ∈ Js.sort (Js.keys o))) as [Hk|Hk].
      * by apply Hget.
      * rewrite (proj2 (get_None _ k)) by (by rewrite Hkeys).
        symmetry. apply get_None. by rewrite Hitems, <- Hperm.
Qed.

Lemma flatten_cons k i o prefix :
  flatten ((k, i) :: o) prefix = flattenItem i (fullKey prefix k) ++ flatten o prefix.
Proof. done. Qed.

Lemma flattenItem_Obj o c key :
  o <> [] -> flattenItem (Node (Obj o) c) key = flatten o key.
Proof.
  assert (forall l : tree,
    (fix each (l : tree) : list flat :=
       match l with
       | [] => []
       | (k, i) :: l' => flattenItem i (fullKey key k) ++ each l'
       end) l = flatten l key) as Heach.
  { induction l as [|[k' i'] l IH]; [done|]. rewrite flatten_cons, <- IH. done. }
  destruct o as [|[k i] o]; [done|]. intros _.
  exact (Heach ((k, i) :: o)).
Qed.

Lemma flatten_Permutation o o' prefix :
  o ≡ₚ o' -> flatten o prefix ≡ₚ flatten o' prefix.
Proof.
  induction 1 as [|[k i] o o' _ IH|[k1 i1] [k2 i2] o|o1 o2 o3 _ IH1 _ IH2].
  - done.
  - rewrite !flatten_cons. by rewrite IH.
  - rewrite !flatten_cons, !app_assoc. f_equiv. apply Permutation_app_comm.
  - by rewrite IH1.
Qed.

Lemma flattenItem_sortItem item key :
  wellKeyedNode item = true ->
  flattenItem (sortItem item) key ≡ₚ flattenItem item key.
Proof.
  remember (node_size item) as n eqn:Hn. revert item key Hn.
  induction n as [n IH] using lt_wf_ind. intros [[s|o] c] key Hn Hwk; [done|].
  apply wellKeyedNode_Obj in Hwk as (Hnd & Hproto & Hall).
  rewrite sortItem_Obj.
  pose proof (sortRecursively_Permutation o Hnd Hproto) as Hperm.
  destruct o as [|p o]; [done|].
  rewrite !flattenItem_Obj; [|done|].
  2:{ intros He. rewrite He in Hperm. by apply Permutation_nil_cons in Hperm. }
  rewrite (flatten_Permutation _ _ key Hperm).
  assert (forall k i, (k, i) ∈ p :: o -> node_size i < n) as Hsize.
  { intros k i Hi. rewrite Hn, node_size_Obj.
    apply node_size_elem_of in Hi. lia. }
  revert Hall Hsize. generalize (p :: o). clear -IH. intros l Hall Hsize.
  induction Hall as [|[k i] l Hi _ IHl]; [done|].
  rewrite fmap_cons. cbn [prod_map id fst snd]. rewrite !flatten_cons.
  rewrite IHl by (intros; eapply Hsize; by right).
  f_equiv. eapply IH; [|done|done]. eapply Hsize. left.
Qed.

Lemma flatten_sorted_Permutation (o : tree) (prefix : string) :
  NoDup (Js.keys o) -> "__proto__" ∉ Js.keys o ->
  Forall (fun p => wellKeyedNode p.2 = true) o ->
  flatten (sortRecursively o) prefix ≡ₚ flatten o prefix.
Proof.
  intros Hnd Hproto Hall.
  rewrite (flatten_Permutation _ _ prefix (sortRecursively_Permutation o Hnd Hproto)).
  clear Hnd Hproto. induction Hall as [|[k i] o Hi _ IH]; [done|].
  rewrite fmap_cons. cbn [prod_map id fst snd]. rewrite !flatten_cons, IH.
  f_equiv. by apply flattenItem_sortItem.
Qed.

(** X14.  On a tree that is an object down to its leaves, [sortRecursively]
    changes the order of the entries [flatten] lists and nothing else:
    no entry is lost, added or changed. *)
Theorem flatten_sortRecursively (o : tree) (prefix : string) :
  wellKeyed o = true ->
  flatten (sortRecursively o) prefix ≡ₚ flatten o prefix.
Proof.
  intros (Hnd & Hproto & Hall)%wellKeyed_spec.
  by apply flatten_sorted_Permutation.
Qed.

End SortKeepsEntries.

Lemma flatten_sortRecursively_witness :
  let o := [("b", YAMLParser.Node (YAMLParser.Str "1") ["# c"]);
            ("a", YAMLParser.Node
                    (YAMLParser.Obj [("z", YAMLParser.Node (YAMLParser.Str "") []);
                                     ("y", YAMLParser.Node (YAMLParser.Str "x") [])])
                    [])] in
  YAMLParser.flatten (YAMLParser.sortRecursively o) "" ≡ₚ YAMLParser.flatten o "".
Proof.
  intros o. apply (flatten_sortRecursively o ""). by vm_compute.
Defined.

(** ** The trees [YAMLParser.parse] builds are objects *)

Section ParsedTrees.
Import YAMLParser.

Lemma keys_replace {V} k (v : V) o : Js.keys (Js.replace k v o) = Js.keys o.
Proof.
  unfold Js.keys. induction o as [|[k' v'] o IH]; [done|].
  cbn [Js.replace]. case_bool_decide; rewrite !fmap_cons; [done|].
  by rewrite IH.
Qed.

Lemma replace_Forall {V} (P : string * V -> Prop) k v o :
  P (k, v) -> Forall P o -> Forall P (Js.replace k v o).
Proof.
  intros Hv. induction 1 as [|[k' v'] o Hx Ho IH]; simpl; [done|].
  case_bool_decide as Hk; [subst; by constructor|by constructor].
Qed.

Lemma create_Permutation {V} k (v : V) o : Js.create k v o ≡ₚ (k, v) :: o.
Proof.
  induction o as [|[k' v'] o IH]; simpl; [done|].
  destruct (Js.arrayIndex k) as [n|], (Js.arrayIndex k') as [n'|];
    try destruct (n <? n')%N; try done; rewrite IH; apply Permutation_swap.
Qed.

(** An assignment to a key keeps an object an object. *)
Lemma set_wellKeyed k n o :
  wellKeyed o = true -> wellKeyedNode n = true -> wellKeyed (Js.set k n o) = true.
Proof.
  rewrite !wellKeyed_spec. intros (Hnd & Hproto & Hall) Hn. unfold Js.set.
  case_bool_decide as Hk; [done|]. case_bool_decide as Hin.
  - rewrite keys_replace. repeat split; try done. by apply replace_Forall.
  - rewrite keys_create, create_Permutation. repeat split.
    + by apply NoDup_cons.
    + rewrite not_elem_of_cons. split; [congruence|done].
    + by constructor.
Qed.

Section Lines.
Variable lines : list string.

Lemma level_step_wellKeyed recur base cur o pending line cur' o' pending' :
  (forall b c o1 c1, recur b c = Some (o1, c1) -> wellKeyed o1 = true) ->
  wellKeyed o = true ->
  level_step lines recur base cur o pending line = Some (Continue cur' o' pending') ->
  wellKeyed o' = true.
Proof.
  intros Hrec Ho. unfold level_step.
  case_bool_decide; [by intros [= <- <- <-]|].
  destruct (Js.startsWith (Js.trim line) "#"); [by intros [= <- <- <-]|].
  case_bool_decide; [by intros [= <- <- <-]|].
  case_bool_decide; [done|].
  destruct (_ && _); [done|].
  destruct (keyValueMatch (Js.trim line)) as [[k v]|].
  - destruct (lines !! (cur + 1)) as [nextLine|].
    + destruct (_ && _).
      * destruct (recur _ _) as [[children c1]|] eqn:Hr; [|done].
        intros [= <- <- <-]. apply set_wellKeyed; [done|].
        apply (Hrec _ _ _ _ Hr).
      * case_bool_decide; intros [= <- <- <-]; by apply set_wellKeyed.
    + intros [= <- <- <-]. by apply set_wellKeyed.
  - destruct (Js.startsWith (Js.trim line) "-"); intros [= <- <- <-]; [|done].
    by apply set_wellKeyed.
Qed.

Lemma level_loop_wellKeyed recur turns base cur o pending o' cur' :
  (forall b c o1 c1, recur b c = Some (o1, c1) -> wellKeyed o1 = true) ->
  wellKeyed o = true ->
  level_loop lines recur turns base cur o pending = Some (o', cur') ->
  wellKeyed o' = true.
Proof.
  intros Hrec. revert cur o pending.
  induction turns as [|turns IH]; intros cur o pending Ho; simpl.
  - destruct (lines !! cur); [done|]. by intros [= <- <-].
  - destruct (lines !! cur) as [line|]; [|by intros [= <- <-]].
    destruct (level_step lines recur base cur o pending line)
      as [[|c1 o1 p1]|] eqn:Hs; [by intros [= <- <-]| |done].
    apply IH. by eapply level_step_wellKeyed.
Qed.

Lemma parseLevel_wellKeyed depth base cur o cur' :
  parseLevel lines depth base cur = Some (o, cur') -> wellKeyed o = true.
Proof.
  revert base cur o cur'. induction depth as [|depth IH]; intros base cur o cur'; [done|].
  cbn [parseLevel]. apply level_loop_wellKeyed; [|done].
  intros b c o1 c1. apply IH.
Qed.
End Lines.

(** X15.  The tree [parse] returns is an object down to its leaves: at every
    level a key occurs once, and [__proto__] is no key. *)
Theorem parse_wellKeyed (text : string) (o : tree) :
  parse text = Some o -> wellKeyed o = true.
Proof.
  unfold parse.
  destruct (parseLevel _ _ _ _) as [[o1 c1]|] eqn:Hp; [|done].
  intros [= <-]. by eapply parseLevel_wellKeyed.
Qed.

End ParsedTrees.

Lemma parse_wellKeyed_witness :
  wellKeyed [("server", YAMLParser.Node
                          (YAMLParser.Obj [("port", YAMLParser.Node (YAMLParser.Str "8080") []);
                                           ("host", YAMLParser.Node (YAMLParser.Str "x") [])])
                          ["# web"])]
  = true.
Proof.
  apply (parse_wellKeyed
           ("# web" +:+ Js.LF +:+ "server:" +:+ Js.LF +:+ "  port: 8080" +:+ Js.LF
            +:+ "  host: x")).
  by vm_compute.
Defined.

(** ** [YAMLParser.stringify]: the printed lines *)

Section PrintedLines.
Import YAMLParser.

Lemma splitLines_nonempty s : Js.splitLines s <> [].
Proof.
  induction s as [|c s IH]; simpl; [done|].
  destruct (Ascii.eqb c "010"); [done|]. by destruct (Js.splitLines s).
Qed.

Lemma splitLines_LF a b :
  Js.splitLines (a +:+ Js.LF +:+ b) = Js.splitLines a ++ Js.splitLines b.
Proof.
  induction a as [|c a IH]; [done|].
  change (String c a +:+ Js.LF +:+ b) with (String c (a +:+ Js.LF +:+ b)).
  cbn [Js.splitLines]. rewrite IH.
  destruct (Ascii.eqb c "010"); [done|].
  pose proof (splitLines_nonempty a). by destruct (Js.splitLines a).
Qed.

(** Joining strings with line feeds and splitting at line feeds gives
    the lines of the strings. *)
Lemma splitLines_join_concat xs :
  xs <> [] -> Js.splitLines (Js.join Js.LF xs) = concat (Js.splitLines <$> xs).
Proof.
  induction xs as [|x xs IH]; [done|]. intros _.
  destruct xs as [|y xs]; [by rewrite fmap_cons, concat_cons, app_nil_r|].
  change (Js.join Js.LF (x :: y :: xs))
    with (x +:+ Js.LF +:+ Js.join Js.LF (y :: xs)).
  by rewrite splitLines_LF, IH.
Qed.

Lemma chars_repeat n : Js.chars (Js.repeat "  " n) = replicate (2 * n) " "%char.
Proof.
  induction n as [|n IH]; [done|].
  cbn [Js.repeat]. rewrite chars_app, IH.
  by replace (2 * S n) with (S (S (2 * n))) by lia.
Qed.

Lemma notLF_indent n s :
  forallb notLF (Js.chars s) = true ->
  forallb notLF (Js.chars (Js.repeat "  " n +:+ s)) = true.
Proof.
  rewrite !forallb_Forall, chars_app, Forall_app, chars_repeat. intros Hs.
  split; [|done]. by apply Forall_replicate.
Qed.

Lemma notLF_app a b :
  forallb notLF (Js.chars a) = true -> forallb notLF (Js.chars b) = true ->
  forallb notLF (Js.chars (a +:+ b)) = true.
Proof. rewrite !forallb_Forall, chars_app, Forall_app. by split. Qed.

Lemma dot_notLF s :
  forallb Js.dot (Js.chars s) = true -> forallb notLF (Js.chars s) = true.
Proof.
  rewrite !forallb_Forall. intros H. eapply Forall_impl; [exact H|].
  intros c. unfold Js.dot, notLF.
  by destruct (Ascii.eqb_spec c "010"%char) as [->|].
Qed.

(** *** The conditions, unfolded *)

Lemma printableKey_spec k :
  printableKey k = true
  <-> k <> "" /\ Js.trim k = k
      /\ Forall (fun c => yamlKeyChar c = true) (Js.chars k)
      /\ forallb notLF (Js.chars k) = true.
Proof.
  unfold printableKey.
  rewrite !andb_true_iff, negb_true_iff, bool_decide_eq_false, bool_decide_eq_true.
  rewrite !forallb_Forall.
  assert (Forall (fun c => yamlKeyChar c && notLF c = true) (Js.chars k)
          <-> Forall (fun c => yamlKeyChar c = true) (Js.chars k)
              /\ Forall (fun c => notLF c = true) (Js.chars k)) as ->.
  { rewrite <- Forall_and. apply Forall_proper; [|done]. intros c.
    by rewrite andb_true_iff. }
  tauto.
Qed.

Lemma printableComment_spec c :
  printableComment c = true
  <-> Js.trim c = c /\ Js.startsWith c "#" = true
      /\ forallb notLF (Js.chars c) = true.
Proof.
  unfold printableComment. rewrite !andb_true_iff, bool_decide_eq_true. tauto.
Qed.

Lemma printableScalar_spec s :
  printableScalar s = true
  <-> Js.trim s = s /\ forallb Js.dot (Js.chars s) = true.
Proof. unfold printableScalar. by rewrite !andb_true_iff, bool_decide_eq_true. Qed.

Lemma printable_each o :
  (fix each (l : tree) : bool :=
     match l with
     | [] => true
     | (k, i) :: l' => printableKey k && printableNode i && each l'
     end) o
  = forallb (fun p => printableKey p.1 && printableNode p.2) o.
Proof. induction o as [|[k i] o IH]; [done|]. simpl. by rewrite IH. Qed.

Lemma printableNode_Obj o c :
  printableNode (Node (Obj o) c)
  = forallb printableComment c && negb (bool_decide (o = [])) && printableTree o.
Proof.
  cbn [printableNode]. rewrite printable_each. unfold printableTree.
  by rewrite !andb_assoc.
Qed.

Lemma treeLines_cons n k i o :
  treeLines n ((k, i) :: o) = itemLines n k i ++ treeLines n o.
Proof. done. Qed.

Lemma itemLines_each n o :
  (fix each (l : tree) : list string :=
     match l with
     | [] => []
     | (k, i) :: l' => itemLines n k i ++ each l'
     end) o
  = treeLines n o.
Proof. induction o as [|[k i] o IH]; [done|]. by rewrite treeLines_cons, <- IH. Qed.

Lemma bind_cons_item n k i o :
  ('(k', i') ← (k, i) :: o; stringifyItem n k' i')
  = stringifyItem n k i ++ ('(k', i') ← o; stringifyItem n k' i').
Proof. done. Qed.

Lemma stringifyItem_each n o :
  (fix each (l : tree) : list string :=
     match l with
     | [] => []
     | (k, i) :: l' => stringifyItem n k i ++ each l'
     end) o
  = '(k, i) ← o; stringifyItem n k i.
Proof. induction o as [|[k i] o IH]; [done|]. by rewrite bind_cons_item, <- IH. Qed.

Lemma itemLines_Obj n k o c :
  o <> [] ->
  itemLines n k (Node (Obj o) c)
  = ((fun comment => Js.repeat "  " n +:+ comment) <$> c)
    ++ (Js.repeat "  " n +:+ k +:+ ":") :: treeLines (S n) o.
Proof.
  destruct o as [|p o]; [done|]. intros _. cbn [itemLines].
  by rewrite (itemLines_each (S n) (p :: o)).
Qed.

Lemma stringifyItem_Obj n k o c :
  o <> [] ->
  stringifyItem n k (Node (Obj o) c)
  = ((fun comment => Js.repeat "  " n +:+ comment) <$> c)
    ++ [Js.repeat "  " n +:+ k +:+ ":"; stringify o (S n)].
Proof.
  destruct o as [|p o]; [done|]. intros _. cbn [stringifyItem].
  unfold stringify. by rewrite (stringifyItem_each (S n) (p :: o)).
Qed.

Lemma stringifyItem_nonempty n k i : stringifyItem n k i <> [].
Proof.
  destruct i as [[s|[|p o]] c]; cbn [stringifyItem];
    intros H; by apply app_eq_nil in H as [_ ?].
Qed.

Lemma splitLines_comments n (c : list string) :
  Forall (fun x => printableComment x = true) c ->
  concat (Js.splitLines <$> ((fun comment => Js.repeat "  " n +:+ comment) <$> c))
  = (fun comment => Js.repeat "  " n +:+ comment) <$> c.
Proof.
  induction 1 as [|x c Hx _ IH]; [done|].
  rewrite !fmap_cons, concat_cons, IH.
  apply printableComment_spec in Hx as (_ & _ & Hx).
  by rewrite splitLines_single by (by apply notLF_indent).
Qed.

Lemma splitLines_items n o :
  Forall (fun p => concat (Js.splitLines <$> stringifyItem n p.1 p.2)
                   = itemLines n p.1 p.2) o ->
  concat (Js.splitLines <$> ('(k, i) ← o; stringifyItem n k i)) = treeLines n o.
Proof.
  induction 1 as [|[k i] o Hp _ IH]; [done|].
  rewrite bind_cons_item, treeLines_cons, fmap_app, concat_app, IH.
  simpl in Hp. by rewrite Hp.
Qed.

Lemma items_nonempty n o : o <> [] -> ('(k, i) ← o; stringifyItem n k i) <> [].
Proof.
  destruct o as [|[k i] o]; [done|]. intros _. rewrite bind_cons_item.
  intros H. apply app_eq_nil in H as [H _]. by apply stringifyItem_nonempty in H.
Qed.

(** The strings [stringify] pushes for a printable item, split at line
    feeds, are the lines of the item. *)
Lemma splitLines_stringifyItem n k i :
  printableKey k = true -> printableNode i = true ->
  concat (Js.splitLines <$> stringifyItem n k i) = itemLines n k i.
Proof.
  remember (node_size i) as sz eqn:Hsz. revert n k i Hsz.
  induction sz as [sz IH] using lt_wf_ind. intros n k [[s|o] c] Hsz Hk Hi.
  - cbn [stringifyItem itemLines]. cbn [printableNode] in Hi.
    apply andb_true_iff in Hi as [Hc Hs]. apply forallb_Forall in Hc.
    apply printableScalar_spec in Hs as [_ Hs].
    apply printableKey_spec in Hk as (_ & _ & _ & Hk).
    rewrite fmap_app, concat_app, splitLines_comments by done.
    rewrite fmap_cons, concat_cons, splitLines_single; [done|].
    apply notLF_indent, notLF_app; [done|]. apply notLF_app; [done|].
    by apply dot_notLF.
  - rewrite printableNode_Obj in Hi.
    apply andb_true_iff in Hi as [Hi Ht]. apply andb_true_iff in Hi as [Hc Ho].
    apply forallb_Forall in Hc. apply negb_true_iff, bool_decide_eq_false in Ho.
    apply printableKey_spec in Hk as (_ & _ & _ & Hk).
    rewrite stringifyItem_Obj, itemLines_Obj by done.
    rewrite fmap_app, concat_app, splitLines_comments by done. f_equal.
    rewrite !fmap_cons, !concat_cons. cbn [fmap list_fmap concat].
    rewrite app_nil_r, splitLines_single
      by (apply notLF_indent, notLF_app; [done|done]).
    cbn [app]. f_equal. unfold stringify.
    rewrite splitLines_join_concat by (by apply items_nonempty).
    apply splitLines_items.
    apply andb_true_iff in Ht as [_ Hall]. apply forallb_Forall in Hall.
    rewrite Forall_forall in Hall |- *. intros [k' i'] Hin.
    specialize (Hall _ Hin). apply andb_true_iff in Hall as [Hk' Hi'].
    apply (IH (node_size i')); [|done|done|done].
    rewrite Hsz, node_size_Obj. apply node_size_elem_of in Hin. lia.
Qed.

(** The text [stringify] prints for a printable tree has the lines of
    the tree; the text of the empty tree is empty and has one empty
    line. *)
Lemma splitLines_stringify n o :
  forallb (fun p => printableKey p.1 && printableNode p.2) o = true ->
  Js.splitLines (stringify o n) = match o with [] => [""] | _ => treeLines n o end.
Proof.
  intros Hall%forallb_Forall. destruct o as [|p o]; [done|].
  unfold stringify. rewrite splitLines_join_concat by (by apply items_nonempty).
  apply splitLines_items. eapply Forall_impl; [exact Hall|].
  intros [k i] [Hk Hi]%andb_true_iff. by apply splitLines_stringifyItem.
Qed.

End PrintedLines.

(** ** [YAMLParser.parse] on the lines [YAMLParser.stringify] prints *)

Section PrintedLineFacts.
Import YAMLParser.

Lemma searchNonSpace_indent n s c :
  head (Js.chars s) = Some c -> Js.isWhiteSpace c = false ->
  Js.searchNonSpace (Js.repeat "  " n +:+ s) = Z.of_nat (2 * n).
Proof.
  intros Hs Hc. induction n as [|n IH].
  - destruct s as [|c' s]; [done|]. simpl in *. simplify_eq. by rewrite Hc.
  - cbn [Js.repeat].
    change (("  " +:+ Js.repeat "  " n) +:+ s)
      with (String " " (String " " (Js.repeat "  " n +:+ s))).
    cbn [Js.searchNonSpace Js.isWhiteSpace]. rewrite IH.
    replace (Z.of_nat (2 * n) <? 0)%Z with false by (symmetry; apply Z.ltb_ge; lia).
    replace (Z.of_nat (2 * n) + 1 <? 0)%Z with false by (symmetry; apply Z.ltb_ge; lia).
    lia.
Qed.

Lemma trim_indent n s : Js.trim (Js.repeat "  " n +:+ s) = Js.trim s.
Proof.
  unfold Js.trim. f_equal. induction n as [|n IH]; [done|].
  cbn [Js.repeat].
  by change (("  " +:+ Js.repeat "  " n) +:+ s)
    with (String " " (String " " (Js.repeat "  " n +:+ s))).
Qed.

(** A printable key starts and ends with a character that is no white
    space and no [#]. *)
Lemma printableKey_head k :
  printableKey k = true ->
  exists c k', k = String c k' /\ Js.isWhiteSpace c = false /\ yamlKeyChar c = true.
Proof.
  intros (Hne & Htrim & Hchars & _)%printableKey_spec.
  destruct k as [|c k']; [done|]. exists c, k'. split; [done|]. split.
  - apply (trim_edges (String c k')). left. by rewrite Htrim.
  - by apply Forall_cons in Hchars as [? _].
Qed.

Lemma printableKey_last k :
  printableKey k = true ->
  exists c, last (Js.chars k) = Some c /\ Js.isWhiteSpace c = false.
Proof.
  intros (Hne & Htrim & _)%printableKey_spec.
  destruct (last (Js.chars k)) as [c|] eqn:Hl.
  - exists c. split; [done|]. apply (trim_edges k). right. by rewrite Htrim.
  - apply last_None in Hl. by apply chars_nil in Hl.
Qed.

Lemma trim_head_id s c t :
  s = String c t -> Js.isWhiteSpace c = false ->
  Js.trim s = Js.trimEnd s.
Proof. intros -> Hc. unfold Js.trim. cbn [Js.trimStart]. by rewrite Hc. Qed.

(** The trimmed key line of a nested object. *)
Lemma trim_key_line k : printableKey k = true -> Js.trim (k +:+ ":") = k +:+ ":".
Proof.
  intros Hk. destruct (printableKey_head k Hk) as (c & k' & -> & Hc & _).
  rewrite (trim_head_id _ c (k' +:+ ":")) by done.
  by rewrite trimEnd_app.
Qed.

(** The trimmed line of a scalar. *)
Lemma trim_scalar_line k v :
  printableKey k = true -> Js.trim v = v ->
  Js.trim (k +:+ ": " +:+ v) = k +:+ ":" +:+ (if bool_decide (v = "") then "" else " " +:+ v).
Proof.
  intros Hk Hv. destruct (printableKey_head k Hk) as (c & k' & -> & Hc & _).
  rewrite (trim_head_id _ c (k' +:+ ": " +:+ v)) by done.
  case_bool_decide as He.
  - subst v. by rewrite trimEnd_app.
  - apply trim_fixed in Hv as [_ Hv].
    assert (Js.trimEnd (": " +:+ v) = ": " +:+ v) as Hcv.
    { rewrite (trimEnd_app ": " v) by (by rewrite Hv). by rewrite Hv. }
    rewrite trimEnd_app by (by rewrite Hcv). by rewrite Hcv.
Qed.

Lemma startsWith_cons c s p :
  c <> p -> Js.startsWith (String c s) (String p "") = false.
Proof.
  intros Hne. unfold Js.startsWith. cbn [String.prefix].
  destruct (ascii_dec p c); [congruence|done].
Qed.

Lemma yamlKeyChar_hash c : yamlKeyChar c = true -> c <> "#"%char.
Proof. by intros Hc ->. Qed.

Lemma startsWith_key k rest :
  printableKey k = true -> Js.startsWith (k +:+ rest) "#" = false.
Proof.
  intros Hk. destruct (printableKey_head k Hk) as (c & k' & -> & _ & Hc).
  apply startsWith_cons. by apply yamlKeyChar_hash.
Qed.

(** The key pattern reads a printed key line back. *)
Lemma keyValueMatch_printed k ws v :
  printableKey k = true ->
  Forall (fun c => Js.isWhiteSpace c = true) (Js.chars ws) ->
  (forall c, head (Js.chars v) = Some c -> Js.isWhiteSpace c = false) ->
  forallb Js.dot (Js.chars v) = true ->
  keyValueMatch (k +:+ ":" +:+ ws +:+ v) = Some (k, v).
Proof.
  intros Hk Hws Hv Hdot%forallb_Forall.
  destruct (printableKey_head k Hk) as (c & k' & -> & _ & Hc).
  apply printableKey_spec in Hk as (_ & _ & Hks & _).
  apply Forall_cons in Hks as [_ Hks].
  unfold keyValueMatch, Js.plus.
  change (String c k' +:+ ":" +:+ ws +:+ v) with (String c (k' +:+ ":" +:+ ws +:+ v)).
  cbn [Js.one]. rewrite Hc.
  apply star_greedy; [done|by intros c' [= <-]|].
  change (":" +:+ ws +:+ v) with (String ":" (ws +:+ v)). cbn [Js.one].
  replace (Ascii.eqb ":" ":") with true by done.
  apply star_greedy; [done|done|].
  apply star_all; [done|]. cbn [Js.atEnd].
  change (String c (k' +:+ String ":" (ws +:+ v)))
    with (String c k' +:+ String ":" (ws +:+ v)).
  rewrite consumed_app. f_equal. f_equal.
  unfold Js.consumed. rewrite Nat.sub_0_r. by rewrite take_chars, str_chars.
Qed.

Lemma content_key_line n k rest :
  printableKey k = true ->
  Js.trim (Js.repeat "  " n +:+ k +:+ rest) <> ""
  /\ Js.searchNonSpace (Js.repeat "  " n +:+ k +:+ rest) = Z.of_nat (2 * n).
Proof.
  intros Hk. destruct (printableKey_head k Hk) as (c & k' & -> & Hc & _). split.
  - apply (trim_nonempty _ c); [|done]. rewrite chars_app. set_solver.
  - by apply (searchNonSpace_indent n _ c).
Qed.

Lemma printableComment_head c :
  printableComment c = true ->
  exists c', c = String "#" c'.
Proof.
  intros (_ & Hs & _)%printableComment_spec. unfold Js.startsWith in Hs.
  destruct c as [|a c']; [done|]. cbn [String.prefix] in Hs.
  destruct (ascii_dec "#" a) as [<-|]; [by eexists|done].
Qed.

Lemma content_comment_line n c :
  printableComment c = true ->
  Js.trim (Js.repeat "  " n +:+ c) = c
  /\ Js.searchNonSpace (Js.repeat "  " n +:+ c) = Z.of_nat (2 * n).
Proof.
  intros Hc. destruct (printableComment_head c Hc) as [c' ->].
  apply printableComment_spec in Hc as (Ht & _). split.
  - by rewrite trim_indent.
  - by apply (searchNonSpace_indent n _ "#").
Qed.

(** The first line of a printed item: indented as the item, and not
    blank. *)
Lemma itemLines_head n k i :
  printableKey k = true -> printableNode i = true ->
  exists l ls, itemLines n k i = l :: ls
               /\ Js.trim l <> ""
               /\ Js.searchNonSpace l = Z.of_nat (2 * n)
               /\ (_comments i = [] -> Js.startsWith (Js.trim l) "#" = false).
Proof.
  intros Hk Hi.
  assert (forall c body tail,
    forallb printableComment c = true ->
    exists l ls,
      ((fun comment => Js.repeat "  " n +:+ comment) <$> c)
        ++ (Js.repeat "  " n +:+ k +:+ body) :: tail = l :: ls
      /\ Js.trim l <> ""
      /\ Js.searchNonSpace l = Z.of_nat (2 * n)
      /\ (c = [] -> Js.startsWith (Js.trim l) "#" = false)) as Hgen.
  { intros [|x c] body tail Hc.
    - eexists _, _. split; [done|].
      destruct (content_key_line n k body Hk) as [Ht Hs].
      repeat split; try done. intros _. rewrite trim_indent.
      destruct (printableKey_head k Hk) as (a & k' & -> & Ha & Hy).
      rewrite (trim_head_id _ a (k' +:+ body)) by done.
      destruct (Js.trimEnd (String a k' +:+ body)) as [|a' t] eqn:Ht'.
      + rewrite trim_indent, (trim_head_id _ a (k' +:+ body)), Ht' in Ht by done.
        done.
      + pose proof (trimEnd_head (String a k' +:+ body)) as Hh.
        rewrite Ht' in Hh. specialize (Hh ltac:(done)). simpl in Hh.
        injection Hh as ->. apply startsWith_cons. by apply yamlKeyChar_hash.
    - apply andb_true_iff in Hc as [Hx _].
      destruct (content_comment_line n x Hx) as [Ht Hs].
      eexists _, _. split; [done|]. rewrite Ht. repeat split; try done.
      destruct (printableComment_head x Hx) as [? ->]. done. }
  destruct i as [[s|o] c].
  - cbn [printableNode] in Hi. apply andb_true_iff in Hi as [Hc _].
    cbn [itemLines _comments]. by apply Hgen.
  - rewrite printableNode_Obj in Hi.
    apply andb_true_iff in Hi as [Hi _]. apply andb_true_iff in Hi as [Hc Ho].
    apply negb_true_iff, bool_decide_eq_false in Ho.
    rewrite itemLines_Obj by done. cbn [_comments]. by apply Hgen.
Qed.

Lemma treeLines_head n o :
  o <> [] ->
  forallb (fun p => printableKey p.1 && printableNode p.2) o = true ->
  exists l ls, treeLines n o = l :: ls
               /\ Js.trim l <> ""
               /\ Js.searchNonSpace l = Z.of_nat (2 * n)
               /\ ((forall p, head o = Some p -> _comments p.2 = []) ->
                   Js.startsWith (Js.trim l) "#" = false).
Proof.
  destruct o as [|[k i] o]; [done|]. intros _ Hall.
  cbn [forallb] in Hall. apply andb_true_iff in Hall as [Hp _].
  apply andb_true_iff in Hp as [Hk Hi].
  destruct (itemLines_head n k i Hk Hi) as (l & ls & Hl & Ht & Hs & Hc).
  exists l, (ls ++ treeLines n o). rewrite treeLines_cons, Hl.
  repeat split; try done. intros Hh. apply Hc. by apply (Hh (k, i)).
Qed.

(** Every node prints a line. *)
Lemma length_itemLines n k i : node_size i <= length (itemLines n k i).
Proof.
  remember (node_size i) as sz eqn:Hsz. revert n k i Hsz.
  induction sz as [sz IH] using lt_wf_ind. intros n k [[s|o] c] Hsz.
  - subst sz. cbn [itemLines node_size]. rewrite length_app. cbn [length]. lia.
  - destruct o as [|p o].
    + subst sz. cbn [itemLines node_size]. rewrite length_app. cbn [length]. lia.
    + rewrite itemLines_Obj by done. rewrite node_size_Obj in Hsz.
      rewrite length_app. cbn [length].
      enough (tree_size (p :: o) <= length (treeLines (S n) (p :: o))) by lia.
      assert (forall k' i', (k', i') ∈ p :: o -> node_size i' < sz) as Hsize.
      { intros k' i' Hin. apply node_size_elem_of in Hin. lia. }
      revert Hsize. generalize (p :: o). clear -IH. intros l Hsize.
      induction l as [|[k' i'] l IHl]; [done|].
      rewrite treeLines_cons, length_app. unfold tree_size in *.
      rewrite fmap_cons. cbn [sum_list compose snd].
      specialize (IH (node_size i') ltac:(eapply Hsize; left) (S n) k' i' eq_refl).
      specialize (IHl ltac:(intros; eapply Hsize; by right)).
      by apply Nat.add_le_mono.
Qed.

Lemma length_treeLines n o : tree_size o <= length (treeLines n o).
Proof.
  induction o as [|[k i] o IH]; [done|].
  rewrite treeLines_cons, length_app. unfold tree_size in *.
  rewrite fmap_cons. cbn [sum_list compose snd].
  apply Nat.add_le_mono; [apply length_itemLines|done].
Qed.

End PrintedLineFacts.

(** ** The round trip of [YAMLParser.stringify] and [YAMLParser.parse] *)

Section CreatedInOrder.
Import YAMLParser.

(** A key created behind the keys there are goes to the end. *)
Lemma create_last {V} k (v : V) o :
  createdLast k (Js.keys o) = true -> Js.create k v o = o ++ [(k, v)].
Proof.
  unfold createdLast. induction o as [|[k' v'] o IH]; [done|].
  cbn [Js.create Js.keys fmap list_fmap fst].
  destruct (Js.arrayIndex k) as [n|] eqn:Hn.
  - cbn [forallb]. destruct (Js.arrayIndex k') as [n'|]; [|done].
    intros [Hlt Hrest]%andb_true_iff. apply negb_true_iff in Hlt. rewrite Hlt.
    by rewrite IH.
  - intros _. by rewrite IH.
Qed.

(** Assigning the items of an object whose keys are in order, from left
    to right, builds the object. *)
Lemma fold_set_in_order (o acc : tree) :
  NoDup (Js.keys (acc ++ o)) -> "__proto__" ∉ Js.keys o ->
  keysInOrder (Js.keys acc) (Js.keys o) = true ->
  fold_left (fun a p => Js.set p.1 p.2 a) o acc = acc ++ o.
Proof.
  revert acc. induction o as [|[k i] o IH]; intros acc Hnd Hproto Hord.
  { by rewrite app_nil_r. }
  cbn [fold_left fst snd]. unfold Js.keys in *.
  rewrite fmap_cons in Hproto, Hord. cbn [fst keysInOrder] in Hproto, Hord.
  apply not_elem_of_cons in Hproto as [Hk Hproto].
  apply andb_true_iff in Hord as [Hlast Hord].
  rewrite fmap_app, fmap_cons in Hnd. cbn [fst] in Hnd.
  assert (k ∉ acc.*1) as Hin.
  { apply NoDup_app in Hnd as (_ & Hdis & _). intros Hin.
    apply (Hdis k Hin). left. }
  unfold Js.set. rewrite bool_decide_eq_false_2 by done.
  unfold Js.keys. rewrite bool_decide_eq_false_2 by done.
  rewrite create_last by done.
  rewrite IH.
  - by rewrite <- app_assoc.
  - unfold Js.keys. rewrite !fmap_app, fmap_cons, <- app_assoc. done.
  - done.
  - unfold Js.keys. by rewrite fmap_app.
Qed.

Lemma levelOk_spec o :
  levelOk o = true
  <-> NoDup (Js.keys o) /\ ("__proto__" ∉ Js.keys o)
      /\ keysInOrder [] (Js.keys o) = true /\ noCommentAfterObj o = true.
Proof.
  unfold levelOk, keysOk.
  rewrite !andb_true_iff, !bool_decide_eq_true. tauto.
Qed.

Lemma fold_set_level o :
  levelOk o = true -> fold_left (fun a p => Js.set p.1 p.2 a) o [] = o.
Proof.
  intros (Hnd & Hproto & Hord & _)%levelOk_spec.
  by rewrite (fold_set_in_order o []).
Qed.

End CreatedInOrder.

Section ParsePrinted.
Import YAMLParser.

Variable lines : list string.

Lemma lookup_head_drop {A} (l : list A) i : l !! i = head (drop i l).
Proof. by rewrite head_lookup, lookup_drop, Nat.add_0_r. Qed.

Lemma drop_lookup {A} (l : list A) i x rest :
  drop i l = x :: rest -> l !! i = Some x /\ drop (i + 1) l = rest.
Proof.
  intros H. split.
  - by rewrite lookup_head_drop, H.
  - by rewrite <- drop_drop, H.
Qed.

Lemma level_step_comment recur base cur acc pend n c :
  printableComment c = true ->
  level_step lines recur base cur acc pend (Js.repeat "  " n +:+ c)
  = Some (Continue (cur + 1) acc (pend ++ [c])).
Proof.
  intros Hc. destruct (content_comment_line n c Hc) as [Ht _].
  destruct (printableComment_head c Hc) as [c' Hc'].
  apply printableComment_spec in Hc as (_ & Hs & _).
  unfold level_step. rewrite Ht.
  rewrite bool_decide_eq_false_2 by (by rewrite Hc'). by rewrite Hs.
Qed.

Lemma level_step_scalar recur cur acc pend n k v :
  printableKey k = true -> printableScalar v = true ->
  (forall nl, lines !! (cur + 1) = Some nl ->
              (Js.searchNonSpace nl <= Z.of_nat (2 * n))%Z) ->
  level_step lines recur (Z.of_nat (2 * n)) cur acc pend
    (Js.repeat "  " n +:+ k +:+ ": " +:+ v)
  = Some (Continue (cur + 1) (Js.set k (Node (Str v) pend) acc) []).
Proof.
  intros Hk [Hv Hdot]%printableScalar_spec Hnext.
  destruct (content_key_line n k (": " +:+ v) Hk) as [Hne Hind].
  unfold level_step. rewrite bool_decide_eq_false_2 by done.
  rewrite trim_indent, trim_scalar_line by done.
  rewrite startsWith_key by done. rewrite Hind.
  rewrite bool_decide_eq_false_2 by lia.
  rewrite bool_decide_eq_false_2 by lia.
  rewrite (bool_decide_eq_false_2 (_ > _)%Z) by lia. cbn [andb].
  assert (keyValueMatch
            (k +:+ ":" +:+ (if bool_decide (v = "") then "" else " " +:+ v))
          = Some (k, v)) as ->.
  { case_bool_decide as He.
    - subst v. by apply (keyValueMatch_printed k "" "").
    - apply (keyValueMatch_printed k " " v); try done.
      + by repeat constructor.
      + intros c Hc. apply (trim_edges v). left. by rewrite Hv. }
  apply printableKey_spec in Hk as (_ & -> & _). rewrite Hv.
  destruct (lines !! (cur + 1)) as [nl|] eqn:Hnl; [|done].
  specialize (Hnext nl eq_refl).
  rewrite (bool_decide_eq_false_2 (_ > _)%Z) by lia. cbn [andb].
  case_bool_decide as He; [by subst v|done].
Qed.

Lemma level_step_object recur cur acc pend n k nl :
  printableKey k = true ->
  lines !! (cur + 1) = Some nl ->
  Js.searchNonSpace nl = Z.of_nat (2 * S n) -> Js.trim nl <> "" ->
  level_step lines recur (Z.of_nat (2 * n)) cur acc pend
    (Js.repeat "  " n +:+ k +:+ ":")
  = match recur (Z.of_nat (2 * S n)) (cur + 1) with
    | Some (children, cur') =>
        Some (Continue cur' (Js.set k (Node (Obj children) pend) acc) [])
    | None => None
    end.
Proof.
  intros Hk Hnl Hind' Hnb.
  destruct (content_key_line n k ":" Hk) as [Hne Hind].
  unfold level_step. rewrite bool_decide_eq_false_2 by done.
  rewrite trim_indent, trim_key_line by done.
  rewrite startsWith_key by done. rewrite Hind.
  rewrite bool_decide_eq_false_2 by lia.
  rewrite bool_decide_eq_false_2 by lia.
  rewrite (bool_decide_eq_false_2 (_ > _)%Z) by lia. cbn [andb].
  pose proof (keyValueMatch_printed k "" "" Hk ltac:(constructor)
                ltac:(done) eq_refl) as Hm.
  change (k +:+ ":" +:+ "" +:+ "") with (k +:+ ":") in Hm. rewrite Hm.
  apply printableKey_spec in Hk as (_ & -> & _).
  rewrite Hnl, Hind'.
  rewrite (bool_decide_eq_true_2 (_ > _)%Z) by lia.
  by rewrite bool_decide_eq_false_2 by done.
Qed.

(** The loop ends where the level ends. *)
Lemma level_loop_stops recur turns b cur acc pend rest :
  drop cur lines = rest -> stopsAt b rest -> length lines - cur <= turns ->
  level_loop lines recur turns b cur acc pend = Some (acc, cur).
Proof.
  intros Hdrop Hstop Hturns. destruct rest as [|l rest].
  - assert (lines !! cur = None) as Hnone.
    { apply lookup_ge_None. apply drop_nil_inv in Hdrop as H. lia. }
    destruct turns; simpl; by rewrite Hnone.
  - apply drop_lookup in Hdrop as [Hl _].
    pose proof (lookup_lt_Some _ _ _ Hl).
    destruct turns as [|turns]; [lia|]. cbn [level_loop]. rewrite Hl.
    destruct Hstop as [[Hnb Hnc] Hlt].
    pose proof (searchNonSpace_content l Hnb).
    unfold level_step. rewrite bool_decide_eq_false_2 by done. rewrite Hnc.
    rewrite bool_decide_eq_false_2 by lia.
    by rewrite bool_decide_eq_true_2 by lia.
Qed.

(** The loop over the comment lines of an item. *)
Lemma level_loop_comments recur turns base cur acc pend n cs rest :
  Forall (fun c => printableComment c = true) cs ->
  drop cur lines = ((fun comment => Js.repeat "  " n +:+ comment) <$> cs) ++ rest ->
  length lines - cur <= turns ->
  level_loop lines recur turns base cur acc pend
  = level_loop lines recur (turns - length cs) base (cur + length cs) acc (pend ++ cs).
Proof.
  intros Hcs. revert turns cur pend.
  induction Hcs as [|c cs Hc _ IH]; intros turns cur pend Hdrop Hturns.
  { cbn [length]. by rewrite Nat.sub_0_r, Nat.add_0_r, app_nil_r. }
  rewrite fmap_cons in Hdrop. cbn [app] in Hdrop.
  apply drop_lookup in Hdrop as [Hl Hdrop].
  pose proof (lookup_lt_Some _ _ _ Hl).
  destruct turns as [|turns]; [lia|]. cbn [level_loop]. rewrite Hl.
  rewrite level_step_comment by done.
  rewrite IH by (done || lia). cbn [length].
  replace (S turns - S (length cs)) with (turns - length cs) by lia.
  replace (cur + 1 + length cs) with (cur + S (length cs)) by lia.
  by rewrite <- app_assoc.
Qed.

(** After a nested object the level of its items ends. *)
Lemma stopsAt_after n o rest :
  forallb (fun p => printableKey p.1 && printableNode p.2) o = true ->
  (forall p, head o = Some p -> _comments p.2 = []) ->
  stopsAt (Z.of_nat (2 * n)) rest ->
  stopsAt (Z.of_nat (2 * S n)) (treeLines n o ++ rest).
Proof.
  intros Hall Hhead Hstop. destruct (decide (o = [])) as [->|Hne].
  - destruct rest as [|l rest]; [done|]. destruct Hstop as [? ?].
    split; [done|]. cbn [treeLines mbind list_bind app]. lia.
  - destruct (treeLines_head n o Hne Hall) as (l & ls & -> & Hnb & Hind & Hnc).
    split; [by split; [|apply Hnc]|]. lia.
Qed.

(** The line after a scalar is not indented deeper. *)
Lemma next_not_deeper n o rest cur nl :
  forallb (fun p => printableKey p.1 && printableNode p.2) o = true ->
  stopsAt (Z.of_nat (2 * n)) rest ->
  drop (cur + 1) lines = treeLines n o ++ rest ->
  lines !! (cur + 1) = Some nl ->
  (Js.searchNonSpace nl <= Z.of_nat (2 * n))%Z.
Proof.
  intros Hall Hstop Hdrop Hnl.
  assert (head (drop (cur + 1) lines) = Some nl) as Hh.
  { by rewrite <- lookup_head_drop. }
  rewrite Hdrop in Hh. destruct (decide (o = [])) as [->|Hne].
  - destruct rest as [|l rest]; [done|]. simpl in Hh. simplify_eq.
    destruct Hstop as [_ ?]. lia.
  - destruct (treeLines_head n o Hne Hall) as (l & ls & Hl & _ & Hind & _).
    rewrite Hl in Hh. simpl in Hh. simplify_eq. lia.
Qed.

(** The loop of [parseLevel] over the printed lines of the items of a
    level assigns the items one after the other and stops behind their
    lines. *)
Lemma level_loop_printed depth :
  forall o n cur acc turns rest,
    tree_size o <= depth ->
    forallb (fun p => printableKey p.1 && printableNode p.2) o = true ->
    noCommentAfterObj o = true ->
    drop cur lines = treeLines n o ++ rest ->
    stopsAt (Z.of_nat (2 * n)) rest ->
    length lines - cur <= turns ->
    level_loop lines (parseLevel lines depth) turns (Z.of_nat (2 * n)) cur acc []
    = Some (fold_left (fun a p => Js.set p.1 p.2 a) o acc,
            cur + length (treeLines n o)).
Proof.
  induction depth as [depth IHd] using lt_wf_ind.
  induction o as [|[k [v cs]] o IHo]; intros n cur acc turns rest Hsize Hall Hnc Hdrop Hstop Hturns.
  { cbn [treeLines mbind list_bind app length fold_left] in *.
    rewrite Nat.add_0_r. by eapply level_loop_stops. }
  cbn [forallb fst snd] in Hall.
  apply andb_true_iff in Hall as [Hp Hall]. apply andb_true_iff in Hp as [Hk Hi].
  assert (tree_size o <= depth /\ node_size (Node v cs) <= depth) as [Hsize' Hsz].
  { unfold tree_size in *. rewrite fmap_cons in Hsize.
    cbn [sum_list compose snd] in Hsize. unfold id in *. split; lia. }
  assert (noCommentAfterObj o = true
          /\ (isObj (Node v cs) = true ->
              forall p, head o = Some p -> _comments p.2 = [])) as [Hnc' Hafter].
  { cbn [noCommentAfterObj] in Hnc. destruct o as [|[k' i'] o]; [done|].
    apply andb_true_iff in Hnc as [Hor Hnc]. split; [done|].
    intros Hobj p [= <-]. rewrite Hobj in Hor. cbn [negb orb] in Hor.
    by apply bool_decide_eq_true in Hor. }
  rewrite treeLines_cons, <- app_assoc in Hdrop. cbn [fold_left fst snd].
  destruct v as [s|ob].
  - (* a scalar *)
    cbn [printableNode] in Hi. apply andb_true_iff in Hi as [Hcs Hs].
    apply forallb_Forall in Hcs.
    cbn [itemLines] in Hdrop. rewrite <- app_assoc in Hdrop.
    rewrite (level_loop_comments _ _ _ _ _ _ n cs _ Hcs Hdrop Hturns).
    rewrite app_nil_l.
    assert (drop (cur + length cs) lines
            = (Js.repeat "  " n +:+ k +:+ ": " +:+ s) :: (treeLines n o ++ rest))
      as Hdrop'.
    { rewrite <- drop_drop, Hdrop, drop_app_length'; [done|].
      by rewrite length_fmap. }
    apply drop_lookup in Hdrop' as [Hl Hdrop'].
    pose proof (lookup_lt_Some _ _ _ Hl).
    destruct (turns - length cs) as [|turns'] eqn:Hturns'; [lia|].
    cbn [level_loop]. rewrite Hl.
    rewrite level_step_scalar; [|done|done|].
    2:{ intros nl Hnl. eapply next_not_deeper; done. }
    rewrite (IHo n (cur + length cs + 1) _ turns' rest) by (done || lia).
    f_equal. f_equal. rewrite treeLines_cons, !length_app.
    cbn [itemLines]. rewrite length_app, length_fmap. cbn [length]. lia.
  - (* a nested object *)
    rewrite printableNode_Obj in Hi.
    apply andb_true_iff in Hi as [Hi Hob]. apply andb_true_iff in Hi as [Hcs Hne].
    apply forallb_Forall in Hcs. apply negb_true_iff, bool_decide_eq_false in Hne.
    unfold printableTree in Hob. apply andb_true_iff in Hob as [Hlevel Hob].
    rewrite itemLines_Obj in Hdrop by done. rewrite <- app_assoc in Hdrop.
    rewrite (level_loop_comments _ _ _ _ _ _ n cs _ Hcs Hdrop Hturns).
    rewrite app_nil_l.
    assert (drop (cur + length cs) lines
            = (Js.repeat "  " n +:+ k +:+ ":")
                :: (treeLines (S n) ob ++ treeLines n o ++ rest)) as Hdrop'.
    { rewrite <- drop_drop, Hdrop, drop_app_length'; [done|].
      by rewrite length_fmap. }
    apply drop_lookup in Hdrop' as [Hl Hdrop'].
    pose proof (lookup_lt_Some _ _ _ Hl).
    destruct (turns - length cs) as [|turns'] eqn:Hturns'; [lia|].
    cbn [level_loop]. rewrite Hl.
    destruct (treeLines_head (S n) ob Hne Hob) as (nl & ls & Hnl & Hnb & Hind & _).
    assert (lines !! (cur + length cs + 1) = Some nl) as Hnext.
    { by rewrite lookup_head_drop, Hdrop', Hnl. }
    rewrite (level_step_object _ _ _ _ n k nl) by done.
    rewrite node_size_Obj in Hsz.
    destruct depth as [|depth']; [lia|]. cbn [parseLevel].
    apply levelOk_spec in Hlevel as Hl4. destruct Hl4 as (_ & _ & _ & Hncob).
    rewrite (IHd depth' ltac:(lia) ob (S n) (cur + length cs + 1) []
               _ (treeLines n o ++ rest)); [|lia|done|done|done| |lia].
    2:{ apply stopsAt_after; [done| |done]. by apply Hafter. }
    rewrite fold_set_level by done.
    assert (length lines - (cur + length cs + 1 + length (treeLines (S n) ob))
            <= turns') as Hturns2 by lia.
    assert (drop (cur + length cs + 1 + length (treeLines (S n) ob)) lines
            = treeLines n o ++ rest) as Hdrop2.
    { by rewrite <- drop_drop, Hdrop', drop_app_length. }
    rewrite (IHo n _ _ turns' rest) by done.
    f_equal. f_equal. rewrite treeLines_cons, !length_app.
    rewrite itemLines_Obj by done. rewrite length_app, length_fmap. cbn [length]. lia.
Qed.

End ParsePrinted.

(** X16.  Printing a printable tree with [stringify] and parsing the text
    gives the tree back: its keys in their order, its scalars, its nested
    objects and the comments of every item. *)
Theorem yaml_parse_stringify (o : YAMLParser.tree) :
  printableTree o = true ->
  YAMLParser.parse (YAMLParser.stringify o 0) = Some o.
Proof.
  intros [Hlevel Hall]%andb_true_iff. unfold YAMLParser.parse.
  rewrite splitLines_stringify by done.
  destruct o as [|p o]; [done|].
  set (lines := treeLines 0 (p :: o)).
  cbn [YAMLParser.parseLevel].
  apply levelOk_spec in Hlevel as Hl4. destruct Hl4 as (_ & _ & _ & Hnc).
  rewrite (level_loop_printed lines (length lines) (p :: o) 0 0 [] _ []).
  - cbn [fmap option_fmap option_map fst]. by rewrite fold_set_level.
  - apply length_treeLines.
  - done.
  - done.
  - by rewrite app_nil_r.
  - done.
  - lia.
Qed.

Lemma yaml_parse_stringify_witness :
  let o := [("server", YAMLParser.Node
                         (YAMLParser.Obj
                            [("port", YAMLParser.Node (YAMLParser.Str "8080") ["# the port"]);
                             ("host", YAMLParser.Node (YAMLParser.Str "") [])])
                         ["# web"; "# server"]);
            ("name", YAMLParser.Node (YAMLParser.Str "x: y") [])] in
  YAMLParser.parse (YAMLParser.stringify o 0) = Some o.
Proof.
  intros o. apply (yaml_parse_stringify o). by vm_compute.
Defined.

(** ** Sorting YAML trees and the diff *)

Section SortTreeAndDiff.
Import YAMLParser DiffEngine.

Lemma filter_key_unique (es : list flat) k :
  NoDup (Flat.key <$> es) ->
  length (filter (fun e => Flat.key e = k) es) <= 1.
Proof.
  induction es as [|e es IH]; [simpl; lia|].
  rewrite fmap_cons. intros [Hk Hnd]%NoDup_cons.
  destruct (decide (Flat.key e = k)) as [He|He].
  - rewrite filter_cons_True by done. cbn [length].
    enough (filter (fun e0 => Flat.key e0 = k) es = []) as -> by (simpl; lia).
    destruct (filter (fun e0 => Flat.key e0 = k) es) as [|x l] eqn:Hf; [done|].
    exfalso. assert (x ∈ filter (fun e0 => Flat.key e0 = k) es) as Hx
      by (rewrite Hf; left).
    apply list_elem_of_filter in Hx as [Hxk Hx]. apply Hk.
    rewrite He, <- Hxk. apply list_elem_of_fmap. by exists x.
  - rewrite filter_cons_False by done. by apply IH.
Qed.

(** With a key on one flat entry only, the order of the flat entries
    does not show in the map. *)
Lemma yamlToMap_Permutation (es es' : list flat) :
  NoDup (Flat.key <$> es) -> es ≡ₚ es' -> yamlToMap es = yamlToMap es'.
Proof.
  intros Hnd Hperm. apply map_eq. intros k. unfold yamlToMap.
  rewrite !yamlToMap_fold.
  enough (filter (fun e => Flat.key e = k) es = filter (fun e => Flat.key e = k) es')
    as -> by done.
  pose proof (filter_key_unique es k Hnd) as Hlen.
  assert (filter (fun e => Flat.key e = k) es ≡ₚ filter (fun e => Flat.key e = k) es')
    as Hf by (by rewrite Hperm).
  destruct (filter (fun e => Flat.key e = k) es) as [|x [|y l]]; simpl in Hlen.
  - by apply Permutation_nil_l in Hf.
  - by apply Permutation_singleton_l in Hf.
  - lia.
Qed.

(** X17.  The rows of two YAML trees are the rows of the sorted trees
    when the trees are objects down to their leaves and no two leaves of
    a tree have the same dotted key: the sort the controller runs before
    [compare] changes nothing in the diff. *)
Theorem compare_sortRecursively_invariant (l r : tree) :
  wellKeyed l = true -> wellKeyed r = true ->
  NoDup (Flat.key <$> flatten l "") -> NoDup (Flat.key <$> flatten r "") ->
  compare yaml (Some (sortRecursively l)) (Some (sortRecursively r))
  = compare yaml (Some l) (Some r).
Proof.
  intros (Hl1 & Hl2 & Hl3)%wellKeyed_spec (Hr1 & Hr2 & Hr3)%wellKeyed_spec Hl Hr.
  rewrite !compare_unfold by (left; by eexists). cbn [toMap flattenData].
  rewrite <- (yamlToMap_Permutation (flatten l "") (flatten (sortRecursively l) ""))
    by (done || by rewrite flatten_sorted_Permutation).
  by rewrite <- (yamlToMap_Permutation (flatten r "") (flatten (sortRecursively r) ""))
    by (done || by rewrite flatten_sorted_Permutation).
Qed.

End SortTreeAndDiff.

Lemma compare_sortRecursively_invariant_witness :
  let l := [("b", YAMLParser.Node (YAMLParser.Str "1") ["# c"]);
            ("a", YAMLParser.Node
                    (YAMLParser.Obj [("z", YAMLParser.Node (YAMLParser.Str "") []);
                                     ("y", YAMLParser.Node (YAMLParser.Str "x") [])])
                    [])] in
  let r := [("b", YAMLParser.Node (YAMLParser.Str "2") []);
            ("a", YAMLParser.Node
                    (YAMLParser.Obj [("y", YAMLParser.Node (YAMLParser.Str "x") [])])
                    [])] in
  DiffEngine.compare DiffEngine.yaml
    (Some (YAMLParser.sortRecursively l)) (Some (YAMLParser.sortRecursively r))
  = DiffEngine.compare DiffEngine.yaml (Some l) (Some r).
Proof.
  intros l r. apply (compare_sortRecursively_invariant l r).
  - by vm_compute.
  - by vm_compute.
  - apply (bool_decide_eq_true_1 _). by vm_compute.
  - apply (bool_decide_eq_true_1 _). by vm_compute.
Defined.
